(** * LinkedIn blog agent: blog generator and email sender

    A shallow embedding of [src/blog_generator.py] and [src/email_sender.py]
    and the properties of their text processing and batch dispatch.

    Python [str] values are sequences of Unicode code points and are
    embedded as [list N].  The [re] patterns of the program are embedded as
    terms of a small regular-expression type, run by a backtracking matcher
    that returns its matches in the order Python tries them. *)

From Stdlib Require Import String Ascii DecimalString.
From Stdlib Require Import List NArith Bool Arith Lia.
Import ListNotations.

(** ** Python strings *)

Abbreviation pystr := (list N).

(** An ASCII literal of the source as a sequence of code points. *)
Definition py (s : string) : pystr :=
  map N_of_ascii (list_ascii_of_string s).
Arguments py s%_string.

Definition NL : N := 10%N.
Definition STAR : N := 42%N.
Definition HASH : N := 35%N.

Fixpoint pystr_eqb (a b : pystr) : bool :=
  match a, b with
  | [], [] => true
  | x :: a', y :: b' => N.eqb x y && pystr_eqb a' b'
  | _, _ => false
  end.

(** [s.startswith(p)] *)
Fixpoint startswith (p s : pystr) : bool :=
  match p, s with
  | [], _ => true
  | x :: p', y :: s' => N.eqb x y && startswith p' s'
  | _ :: _, [] => false
  end.

(** [p in s] for strings: [p] occurs in [s] as a substring. *)
Fixpoint contains (p s : pystr) : bool :=
  startswith p s ||
  match s with
  | [] => false
  | _ :: s' => contains p s'
  end.

(** [s.replace(old, new)] for a non-empty [old]: occurrences are replaced
    from left to right, without overlap.  After an occurrence, [skip] counts
    the characters of it that are still to be passed over. *)
Fixpoint replace_go (old new : pystr) (skip : nat) (s : pystr) : pystr :=
  match s with
  | [] => []
  | c :: s' =>
      match skip with
      | S k => replace_go old new k s'
      | O =>
          if startswith old s
          then new ++ replace_go old new (length old - 1) s'
          else c :: replace_go old new 0 s'
      end
  end.

Definition replace (old new s : pystr) : pystr := replace_go old new 0 s.

(** [s.split('\n')]: the text between line feeds; never an empty list. *)
Fixpoint split_lines (s : pystr) : list pystr :=
  match s with
  | [] => [[]]
  | c :: s' =>
      if N.eqb c NL then [] :: split_lines s'
      else match split_lines s' with
           | l :: ls => (c :: l) :: ls
           | [] => [[c]]
           end
  end.

(** ['\n'.join(lines)] *)
Fixpoint join_lines (ls : list pystr) : pystr :=
  match ls with
  | [] => []
  | [l] => l
  | l :: ls' => l ++ NL :: join_lines ls'
  end.

(** Whitespace as [str.isspace], [str.strip] and the pattern [\s] see it
    (CPython's [_PyUnicode_IsWhitespace]). *)
Definition isspace (c : N) : bool :=
  ((9 <=? c) && (c <=? 13) || (28 <=? c) && (c <=? 32)
   || (c =? 0x85) || (c =? 0xA0) || (c =? 0x1680)
   || (0x2000 <=? c) && (c <=? 0x200A)
   || (c =? 0x2028) || (c =? 0x2029) || (c =? 0x202F)
   || (c =? 0x205F) || (c =? 0x3000))%N.

Fixpoint lstrip (s : pystr) : pystr :=
  match s with
  | c :: s' => if isspace c then lstrip s' else s
  | [] => []
  end.

Definition rstrip (s : pystr) : pystr := rev (lstrip (rev s)).

(** [s.strip()] *)
Definition strip (s : pystr) : pystr := rstrip (lstrip s).

Definition is_upper (c : N) : bool := ((65 <=? c) && (c <=? 90))%N.
Definition is_lower (c : N) : bool := ((97 <=? c) && (c <=? 122))%N.
Definition is_digit (c : N) : bool := ((48 <=? c) && (c <=? 57))%N.
Definition is_alpha (c : N) : bool := is_upper c || is_lower c.
Definition is_alnum (c : N) : bool := is_alpha c || is_digit c.
Definition is_ascii (c : N) : bool := (c <? 128)%N.

(** The interpreter's Unicode tables beyond ASCII, which the program reaches
    through [str.lower] and through the pattern [\b]: whether a code point
    is alphanumeric, and the lower-case form of a character, which for one
    letter depends on the text before and after it.  No whitespace character
    is alphanumeric. *)
Class Unicode := {
  uni_isalnum : N -> bool;
  uni_lower : pystr -> N -> pystr -> pystr;
  uni_space_not_alnum : forall c, isspace c = true -> uni_isalnum c = false
}.

(** Tables that know no letter outside ASCII; every table agrees with them
    on ASCII text, which is all the examples below use. *)
Definition ascii_tables : Unicode :=
  {| uni_isalnum := fun _ => false; uni_lower := fun _ c _ => [c];
     uni_space_not_alnum := fun _ _ => eq_refl |}.

(** A word character of a Unicode pattern: [\w]. *)
Definition is_word {U : Unicode} (c : N) : bool :=
  if is_ascii c then is_alnum c || (c =? 95)%N else uni_isalnum c.

(** [s.lower()]; [before] holds the characters already passed, last first. *)
Fixpoint lower_go {U : Unicode} (before s : pystr) : pystr :=
  match s with
  | [] => []
  | c :: s' =>
      (if is_ascii c then [if is_upper c then (c + 32)%N else c]
       else uni_lower before c s') ++ lower_go (c :: before) s'
  end.

Definition lower {U : Unicode} (s : pystr) : pystr := lower_go [] s.

(** ** Regular expressions *)

Module Re.

(** The constructs the program's patterns use. *)
Inductive regex : Type :=
| Eps
| Cls (p : N -> bool)        (* one character of a class *)
| Seq (r1 r2 : regex)
| Star (r : regex)           (* greedy repetition *)
| Group (r : regex)          (* capturing group *)
| Bol (multiline : bool)     (* ^ *)
| Eol                        (* $ without MULTILINE *)
| WordB                      (* \b *)
| NotBehind (p : N -> bool). (* (?<!c) for one character *)

Definition Plus (r : regex) : regex := Seq r (Star r).
Definition Chr (c : N) : regex := Cls (N.eqb c).

(** At least [n] times: [r{n,}]. *)
Fixpoint AtLeast (n : nat) (r : regex) : regex :=
  match n with
  | O => Star r
  | S k => Seq r (AtLeast k r)
  end.

(** A position in the subject: the text before it, last character first,
    and the text after it. *)
Definition pos : Type := pystr * pystr.

(** A match found from a position: where it ends, and the text of the
    groups it captured, first group first. *)
Definition result : Type := pos * list pystr.

(** The text between a position and a later one. *)
Definition between (p q : pos) : pystr :=
  firstn (length (snd p) - length (snd q)) (snd p).

(** Greedy repetition of a matcher [m]: one more non-empty round and the
    rest, before stopping here. *)
Fixpoint star_loop (m : pos -> list result) (fuel : nat) (p : pos)
  : list result :=
  match fuel with
  | O => [(p, [])]
  | S f =>
      flat_map
        (fun '(q, g) =>
           if Nat.ltb (length (snd q)) (length (snd p))
           then map (fun '(q', g') => (q', g ++ g')) (star_loop m f q)
           else [])
        (m p)
      ++ [(p, [])]
  end.

(** All the ways [r] matches from [p], in the order a backtracking matcher
    tries them: the head of the list is the match Python reports. *)
Fixpoint matches {U : Unicode} (r : regex) (p : pos) : list result :=
  match r with
  | Eps => [(p, [])]
  | Cls f =>
      match snd p with
      | c :: a => if f c then [((c :: fst p, a), [])] else []
      | [] => []
      end
  | Seq r1 r2 =>
      flat_map
        (fun '(q, g) => map (fun '(q', g') => (q', g ++ g')) (matches r2 q))
        (matches r1 p)
  | Star r1 => star_loop (matches r1) (S (length (snd p))) p
  | Group r1 => map (fun '(q, g) => (q, between p q :: g)) (matches r1 p)
  | Bol multiline =>
      match fst p with
      | [] => [(p, [])]
      | c :: _ => if multiline && N.eqb c NL then [(p, [])] else []
      end
  | Eol =>
      match snd p with
      | [] => [(p, [])]
      | [c] => if N.eqb c NL then [(p, [])] else []
      | _ => []
      end
  | WordB =>
      let before := match fst p with c :: _ => is_word c | [] => false end in
      let after := match snd p with c :: _ => is_word c | [] => false end in
      if xorb before after then [(p, [])] else []
  | NotBehind f =>
      match fst p with
      | c :: _ => if f c then [] else [(p, [])]
      | [] => [(p, [])]
      end
  end.

(** [re.match(r, s)]: the first match from the start of [s], if any. *)
Definition re_match {U : Unicode} (r : regex) (s : pystr) : option result :=
  hd_error (matches r ([], s)).

(** A replacement template: literal characters and group references. *)
Inductive piece : Type :=
| Lit (c : N)
| Ref (n : nat).

Definition expand (tpl : list piece) (groups : list pystr) : pystr :=
  flat_map
    (fun x => match x with Lit c => [c] | Ref n => nth (n - 1) groups [] end)
    tpl.

(** [re.sub(r, tpl, s)] from position [p]: the leftmost match is replaced
    and the scan goes on where it ended; a character no match starts at is
    copied.  None of the program's patterns matches the empty string; an
    empty match is replaced and the next character copied. *)
Fixpoint sub_go {U : Unicode} (r : regex) (tpl : list piece) (fuel : nat)
  (p : pos) : pystr :=
  match fuel with
  | O => []
  | S f =>
      match matches r p with
      | (q, g) :: _ =>
          if Nat.ltb (length (snd q)) (length (snd p))
          then expand tpl g ++ sub_go r tpl f q
          else expand tpl g ++
               match snd p with
               | c :: a => c :: sub_go r tpl f (c :: fst p, a)
               | [] => []
               end
      | [] =>
          match snd p with
          | c :: a => c :: sub_go r tpl f (c :: fst p, a)
          | [] => []
          end
      end
  end.

Definition sub {U : Unicode} (r : regex) (tpl : list piece) (s : pystr) : pystr :=
  sub_go r tpl (S (length s)) ([], s).

End Re.

Import Re.

(** ** Dictionaries

    A Python [dict] with string keys keeps its keys in insertion order and
    holds each key once: assigning to a key that is present replaces its
    value in place. *)

Definition pydict (V : Type) : Type := list (pystr * V).

Fixpoint dict_get {V : Type} (k : pystr) (d : pydict V) : option V :=
  match d with
  | [] => None
  | (k', v) :: d' => if pystr_eqb k k' then Some v else dict_get k d'
  end.

(** [d[k] = v] *)
Fixpoint dict_set {V : Type} (k : pystr) (v : V) (d : pydict V) : pydict V :=
  match d with
  | [] => [(k, v)]
  | (k', v') :: d' =>
      if pystr_eqb k k' then (k', v) :: d' else (k', v') :: dict_set k v d'
  end.

(** [d.get(k, default)] *)
Definition dict_get_default {V : Type} (k : pystr) (default : V)
  (d : pydict V) : V :=
  match dict_get k d with
  | Some v => v
  | None => default
  end.

Definition dict_keys {V : Type} (d : pydict V) : list pystr := map fst d.
Definition dict_values {V : Type} (d : pydict V) : list V := map snd d.

(** ** blog_generator.py *)

(** *** [_create_blog_prompt] *)

Definition length_guidelines : pydict pystr :=
  [ (py "short", py "150-300 words");
    (py "medium", py "400-600 words");
    (py "long", py "700-1000 words") ].

Definition _create_blog_prompt (topic tone length target_audience : pystr)
  (include_hashtags include_call_to_action : bool) : pystr :=
  join_lines
    [ [];
      py "        Create a professional LinkedIn blog post with the following specifications:";
      [];
      py "        Topic: " ++ topic;
      py "        Tone: " ++ tone;
      py "        Length: "
        ++ dict_get_default length (py "400-600 words") length_guidelines;
      py "        Target Audience: " ++ target_audience;
      [];
      py "        IMPORTANT FORMATTING GUIDELINES:";
      py "        - Use clean, professional text WITHOUT asterisks (*) for emphasis";
      py "        - DO NOT use emojis in the main content";
      py "        - Use proper paragraphs with clear line breaks";
      py "        - Write in a conversational yet professional style";
      py "        - Focus on valuable insights and actionable advice";
      py "        - Avoid excessive formatting symbols or decorative elements";
      py "        - Keep the " ++ tone ++ py " tone throughout";
      [];
      py "        CONTENT REQUIREMENTS:";
      py "        1. Create an engaging, professional title (no emojis)";
      py "        2. Write a compelling opening paragraph";
      py "        3. Include 2-3 main points with practical insights";
      py "        4. Use clear, readable formatting with proper paragraphs";
      py "        5. Make it valuable and shareable for " ++ target_audience;
      py "        ";
      py "        "
        ++ (if include_hashtags
            then py "6. Include 5-8 relevant hashtags (hashtags only, no decorative elements)"
            else []);
      py "        "
        ++ (if include_call_to_action
            then py "7. End with a professional call-to-action that encourages meaningful engagement"
            else []);
      [];
      py "        FORMAT YOUR RESPONSE EXACTLY AS FOLLOWS:";
      py "        TITLE: [Clean professional title here]";
      py "        ";
      py "        CONTENT: [Main blog post content in clear paragraphs, no asterisks or emojis]";
      py "        ";
      py "        "
        ++ (if include_hashtags
            then py "HASHTAGS: [Only hashtags, separated by spaces]"
            else []);
      py "        ";
      py "        "
        ++ (if include_call_to_action
            then py "CALL_TO_ACTION: [Professional call to action]"
            else []);
      [];
      py "        Remember: Focus on professional, clean content that provides real value without unnecessary formatting.";
      py "        " ].

(** *** [_clean_content] *)

Record blog_data : Type := {
  title : pystr;
  content : pystr;
  hashtags : pystr;
  call_to_action : pystr;
  full_post : pystr
}.

(** The symbols removed from the title, the hashtags and the call to
    action; U+FE0F comes with the star. *)
Definition title_symbols : list N :=
  [ 0x1F3AF; 0x1F4DD; 0x1F4A1; 0x1F680; 0x2728; 0x1F525; 0x1F4AA; 0x1F31F;
    0x1F4C8; 0x2B50; 0xFE0F; 0x1F3AA; 0x1F3AD; 0x1F3A8; 0x1F3AC; 0x1F3A4;
    0x1F3BC; 0x1F3B5; 0x1F3B6; 0x1F3B8; 0x1F3BA; 0x1F3BB; 0x1F973; 0x1F91D;
    0x1F44D; 0x1F4AF ]%N.

(** The symbols removed from the content: the same and twenty more. *)
Definition content_symbols : list N :=
  title_symbols ++
  [ 0x1F30D; 0x1F30E; 0x1F30F; 0x1F52E; 0x1F38A; 0x1F389; 0x1F388; 0x1F380;
    0x1F381; 0x1F3C6; 0x1F947; 0x1F948; 0x1F949; 0x1F3C5; 0x1F396; 0xFE0F;
    0x1F3F5; 0xFE0F; 0x1F397; 0xFE0F ]%N.

Definition bullets : list N :=
  [ 0x2022; 0x25AA; 0x25AB; 0x25E6; 0x2023; 0x2043 ]%N.

Definition one_of (cs : list N) (c : N) : bool := existsb (N.eqb c) cs.
Definition not_star (c : N) : bool := negb (N.eqb c STAR).
Definition is_tag_char (c : N) : bool := is_alnum c || N.eqb c 95.

(** [\*+] *)
Definition re_stars : regex := Plus (Chr STAR).
(** [\*\*([^*]+)\*\*] *)
Definition re_bold : regex :=
  Seq (Chr STAR) (Seq (Chr STAR)
    (Seq (Group (Plus (Cls not_star))) (Seq (Chr STAR) (Chr STAR)))).
(** [\*([^*]+)\*] *)
Definition re_italic : regex :=
  Seq (Chr STAR) (Seq (Group (Plus (Cls not_star))) (Chr STAR)).
Definition re_title_symbols : regex := Cls (one_of title_symbols).
Definition re_content_symbols : regex := Cls (one_of content_symbols).
(** [\n{3,}] *)
Definition re_blank_lines : regex := AtLeast 3 (Chr NL).
(** [^[...]\s*] with MULTILINE *)
Definition re_bullet : regex :=
  Seq (Bol true) (Seq (Cls (one_of bullets)) (Star (Cls isspace))).
(** [^[-*]\s+] with MULTILINE *)
Definition re_dash : regex :=
  Seq (Bol true) (Seq (Cls (one_of [45; STAR]%N)) (Plus (Cls isspace))).
(** [(?<!\#)\b(...)] with the group [[A-Za-z][A-Za-z0-9_]*] *)
Definition re_bare_tag : regex :=
  Seq (NotBehind (N.eqb HASH))
    (Seq WordB (Group (Seq (Cls is_alpha) (Star (Cls is_tag_char))))).

(** A non-empty string is true. *)
Definition truthy (s : pystr) : bool :=
  match s with [] => false | _ :: _ => true end.

Definition clean_title {U : Unicode} (s : pystr) : pystr :=
  strip (sub re_title_symbols [] (sub re_stars [] s)).

Definition clean_body {U : Unicode} (s : pystr) : pystr :=
  let s := sub re_bold [Ref 1] s in
  let s := sub re_italic [Ref 1] s in
  let s := sub re_stars [] s in
  let s := sub re_content_symbols [] s in
  let s := sub re_blank_lines [Lit NL; Lit NL] s in
  let s := sub re_bullet [] s in
  let s := sub re_dash [] s in
  strip s.

Definition clean_hashtags {U : Unicode} (s : pystr) : pystr :=
  strip (sub re_bare_tag [Lit HASH; Ref 1] (sub re_title_symbols [] s)).

Definition clean_call_to_action {U : Unicode} (s : pystr) : pystr :=
  strip (sub re_stars [] (sub re_title_symbols [] s)).

Definition _clean_content {U : Unicode} (d : blog_data) : blog_data :=
  let d :=
    if truthy (title d)
    then {| title := clean_title (title d); content := content d;
            hashtags := hashtags d; call_to_action := call_to_action d;
            full_post := full_post d |}
    else d in
  let d :=
    if truthy (content d)
    then {| title := title d; content := clean_body (content d);
            hashtags := hashtags d; call_to_action := call_to_action d;
            full_post := full_post d |}
    else d in
  let d :=
    if truthy (hashtags d)
    then {| title := title d; content := content d;
            hashtags := clean_hashtags (hashtags d);
            call_to_action := call_to_action d; full_post := full_post d |}
    else d in
  if truthy (call_to_action d)
  then {| title := title d; content := content d; hashtags := hashtags d;
          call_to_action := clean_call_to_action (call_to_action d);
          full_post := full_post d |}
  else d.

(** *** [_parse_blog_response] *)

Inductive section : Type :=
| sec_title
| sec_content
| sec_hashtags
| sec_call_to_action.

(** [blog_data[section]] *)
Definition get_section (k : section) (d : blog_data) : pystr :=
  match k with
  | sec_title => title d
  | sec_content => content d
  | sec_hashtags => hashtags d
  | sec_call_to_action => call_to_action d
  end.

(** [blog_data[section] = v] *)
Definition set_section (k : section) (v : pystr) (d : blog_data) : blog_data :=
  match k with
  | sec_title =>
      {| title := v; content := content d; hashtags := hashtags d;
         call_to_action := call_to_action d; full_post := full_post d |}
  | sec_content =>
      {| title := title d; content := v; hashtags := hashtags d;
         call_to_action := call_to_action d; full_post := full_post d |}
  | sec_hashtags =>
      {| title := title d; content := content d; hashtags := v;
         call_to_action := call_to_action d; full_post := full_post d |}
  | sec_call_to_action =>
      {| title := title d; content := content d; hashtags := hashtags d;
         call_to_action := v; full_post := full_post d |}
  end.

Definition label (k : section) : pystr :=
  match k with
  | sec_title => py "TITLE:"
  | sec_content => py "CONTENT:"
  | sec_hashtags => py "HASHTAGS:"
  | sec_call_to_action => py "CALL_TO_ACTION:"
  end.

(** The start of a labelled section: the cursor moves to it and the field
    is set to the rest of the line. *)
Definition open_section (k : section) (line : pystr) (d : blog_data)
  : option section * blog_data :=
  (Some k, set_section k (strip (replace (label k) [] line)) d).

(** One round of the loop over the lines. *)
Definition parse_line (st : option section * blog_data) (raw : pystr)
  : option section * blog_data :=
  let '(current_section, d) := st in
  let line := strip raw in
  if startswith (label sec_title) line then open_section sec_title line d
  else if startswith (label sec_content) line
  then open_section sec_content line d
  else if startswith (label sec_hashtags) line
  then open_section sec_hashtags line d
  else if startswith (label sec_call_to_action) line
  then open_section sec_call_to_action line d
  else
    match current_section with
    | Some k =>
        if truthy line
        then
          if truthy (get_section k d)
          then (current_section, set_section k (get_section k d ++ NL :: line) d)
          else (current_section, set_section k line d)
        else st
    | None => st
    end.

Definition empty_blog_data (response_text : pystr) : blog_data :=
  {| title := []; content := []; hashtags := []; call_to_action := [];
     full_post := response_text |}.

(** The record the loop leaves, before it is cleaned. *)
Definition parse_sections (response_text : pystr) : blog_data :=
  snd (fold_left parse_line (split_lines response_text)
         (None, empty_blog_data response_text)).

Definition _parse_blog_response {U : Unicode} (response_text : pystr)
  : blog_data :=
  _clean_content (parse_sections response_text).

(** *** [generate_blog_post] *)

(** What [model.generate_content] does: it returns a response with some
    text, or raises an error with a message. *)
Inductive api_outcome : Type :=
| api_text (text : pystr)
| api_raises (message : pystr).

(** The three errors the handler raises, each with the text of the error
    it caught. *)
Inductive generation_error : Type :=
| quota_exceeded (original : pystr)
| rate_limited (original : pystr)
| api_error (original : pystr).

Definition SIREN : N := 0x1F6A8%N.

(** The message of the exception raised for each. *)
Definition error_message (e : generation_error) : pystr :=
  match e with
  | quota_exceeded original =>
      SIREN :: join_lines
        [ py " API Quota Exceeded!"; [];
          py "Your Google AI (Gemini) free tier quota has been reached."; [];
          py "Solutions:";
          py "1. Wait for quota reset (usually 24 hours)";
          py "2. Upgrade to paid Google AI plan";
          py "3. Check your API usage at https://makersuite.google.com";
          py "4. Try again later with shorter content length"; [];
          py "Original error: " ++ original ]
  | rate_limited original =>
      SIREN :: join_lines
        [ py " Rate Limit Exceeded!"; [];
          py "You're making requests too quickly."; [];
          py "Solutions:";
          py "1. Wait 60 seconds before trying again";
          py "2. Reduce frequency of blog generation"; [];
          py "Original error: " ++ original ]
  | api_error original => py "Google AI API Error: " ++ original
  end.

(** The handler of the inner [try]: the error raised for a caught error
    whose text is [message]. *)
Definition classify {U : Unicode} (message : pystr) : generation_error :=
  let error_message := lower message in
  if contains (py "quota") error_message
     || contains (py "exceeded") error_message
     || contains (py "limit") error_message
  then quota_exceeded message
  else if contains (py "rate") error_message
  then rate_limited message
  else api_error message.

(** The returned post: the parsed record and the keys added to it. *)
Record blog_post : Type := {
  data : blog_data;
  generated_at : pystr;
  post_topic : pystr;
  post_tone : pystr;
  post_length : pystr
}.

Definition NO_CONTENT : pystr := py "No content generated from Google AI".

(** [generate_blog_post], given what the external call does with a prompt
    and the time stamp the clock gives. *)
Definition generate_blog_post {U : Unicode}
  (generate_content : pystr -> api_outcome) (now : pystr)
  (topic tone length target_audience : pystr)
  (include_hashtags include_call_to_action : bool)
  : blog_post + generation_error :=
  let prompt :=
    _create_blog_prompt topic tone length target_audience
      include_hashtags include_call_to_action in
  match generate_content prompt with
  | api_text text =>
      if truthy text
      then inl {| data := _parse_blog_response text; generated_at := now;
                  post_topic := topic; post_tone := tone;
                  post_length := length |}
      else inr (classify NO_CONTENT)
  | api_raises message => inr (classify message)
  end.

(** ** email_sender.py *)

(** *** [validate_email] *)

Definition is_local_char (c : N) : bool :=
  is_alnum c || one_of (py "._%+-") c.
Definition is_domain_char (c : N) : bool :=
  is_alnum c || one_of (py ".-") c.
Definition AT : N := 64%N.
Definition DOT : N := 46%N.

(** [^[a-zA-Z0-9._%+-]+@[a-zA-Z0-9.-]+\.[a-zA-Z]{2,}$] *)
Definition re_email : regex :=
  Seq (Bol false)
    (Seq (Plus (Cls is_local_char))
       (Seq (Chr AT)
          (Seq (Plus (Cls is_domain_char))
             (Seq (Chr DOT) (Seq (AtLeast 2 (Cls is_alpha)) Eol))))).

Definition validate_email {U : Unicode} (email : pystr) : bool :=
  match re_match re_email email with
  | Some _ => true
  | None => false
  end.

Definition validate_recipients {U : Unicode} (recipients : list pystr)
  : pydict bool :=
  fold_left (fun results email => dict_set email (validate_email email) results)
    recipients [].

Definition get_invalid_emails {U : Unicode} (recipients : list pystr)
  : list pystr :=
  filter (fun email => negb (validate_email email)) recipients.

(** *** Sending *)

Record message : Type := {
  msg_subject : pystr;
  msg_from : pystr;
  msg_to : pystr;
  msg_text : pystr;
  msg_html : pystr
}.

(** The messages handed to [_send_email] so far, oldest first. *)
Definition outbox : Type := list message.

(** The sender object and its surroundings: the configured address, the two
    renderings of a post ([_create_email_body] and [_create_html_body],
    whose text no property below depends on), and the mail relay, which
    given what was handed to it before either takes a message or makes
    [_send_email] raise. *)
Record EmailSender : Type := {
  sender_email : pystr;
  email_body : pydict pystr -> pystr;
  html_body : pydict pystr -> pystr;
  relay_accepts : outbox -> message -> bool
}.

(** [_send_email]: [true] when it returns, [false] when it raises. *)
Definition _send_email (self : EmailSender) (box : outbox) (m : message)
  : bool * outbox :=
  (relay_accepts self box m, box ++ [m]).

(** One round of the loop of [send_to_multiple_recipients]. *)
Definition send_one (self : EmailSender) (blog_post : pydict pystr)
  (subject_prefix : pystr) (personalized_subjects : option (pydict pystr))
  (st : pydict bool * outbox) (recipient : pystr) : pydict bool * outbox :=
  let '(results, box) := st in
  let default_subject :=
    subject_prefix ++ py ": "
      ++ dict_get_default (py "title") (py "Untitled") blog_post in
  let custom_subject :=
    match personalized_subjects with
    | Some subjects => dict_get_default recipient default_subject subjects
    | None => default_subject
    end in
  let m :=
    {| msg_subject := custom_subject; msg_from := sender_email self;
       msg_to := recipient; msg_text := email_body self blog_post;
       msg_html := html_body self blog_post |} in
  let '(ok, box') := _send_email self box m in
  (dict_set recipient ok results, box').

Definition send_to_multiple_recipients (self : EmailSender) (box : outbox)
  (blog_post : pydict pystr) (recipients : list pystr)
  (subject_prefix : pystr) (personalized_subjects : option (pydict pystr))
  : pydict bool * outbox :=
  fold_left (send_one self blog_post subject_prefix personalized_subjects)
    recipients ([], box).

(** *** [send_batch_with_validation] *)

Record batch_summary : Type := {
  total_recipients : nat;
  valid_emails : nat;
  invalid_emails : nat;
  emails_sent : nat;
  emails_failed : nat
}.

(** The returned dictionary; [error] is present only when the batch was
    refused, and then holds the addresses its message lists. *)
Record batch_results : Type := {
  validation : pydict bool;
  sending : pydict bool;
  summary : batch_summary;
  error : option (list pystr)
}.

Definition count_true (bs : list bool) : nat :=
  List.length (filter (fun b => b) bs).

Definition send_batch_with_validation {U : Unicode} (self : EmailSender)
  (box : outbox) (blog_post : pydict pystr) (recipients : list pystr)
  (subject_prefix : pystr) (skip_invalid : bool) : batch_results * outbox :=
  let validation_results := validate_recipients recipients in
  let valid := map fst (filter (fun kv => snd kv) validation_results) in
  let invalid :=
    map fst (filter (fun kv => negb (snd kv)) validation_results) in
  let counted sent failed :=
    {| total_recipients := List.length recipients;
       valid_emails := List.length valid;
       invalid_emails := List.length invalid;
       emails_sent := sent; emails_failed := failed |} in
  match invalid, skip_invalid with
  | _ :: _, false =>
      ({| validation := validation_results; sending := [];
          summary := counted 0 0; error := Some invalid |}, box)
  | _, _ =>
      match valid with
      | _ :: _ =>
          let '(sending_results, box') :=
            send_to_multiple_recipients self box blog_post valid
              subject_prefix None in
          let sent := count_true (dict_values sending_results) in
          ({| validation := validation_results; sending := sending_results;
              summary := counted sent (List.length sending_results - sent);
              error := None |}, box')
      | [] =>
          ({| validation := validation_results; sending := [];
              summary := counted 0 0; error := None |}, box)
      end
  end.

(** ** The rest of blog_generator.py *)

(** [str(n)] for a natural number. *)
Definition decimal (n : nat) : pystr :=
  py (NilEmpty.string_of_uint (Nat.to_uint n)).

(** [sep.join(parts)] *)
Fixpoint join_with (sep : pystr) (parts : list pystr) : pystr :=
  match parts with
  | [] => []
  | [x] => x
  | x :: rest => x ++ sep ++ join_with sep rest
  end.

(** *** [generate_multiple_posts]

    The model and the clock are asked once for each topic; [call] counts
    the calls made before.  The keyword arguments are given in full. *)
Fixpoint generate_multiple_posts_from {U : Unicode}
  (generate_content : nat -> pystr -> api_outcome) (clock : nat -> pystr)
  (call : nat) (topics : list pystr) (tone length target_audience : pystr)
  (include_hashtags include_call_to_action : bool) : list blog_post :=
  match topics with
  | [] => []
  | topic :: rest =>
      let later :=
        generate_multiple_posts_from generate_content clock (S call) rest
          tone length target_audience include_hashtags
          include_call_to_action in
      match generate_blog_post (generate_content call) (clock call) topic
              tone length target_audience include_hashtags
              include_call_to_action with
      | inl post => post :: later
      | inr _ => later
      end
  end.

Definition generate_multiple_posts {U : Unicode}
  (generate_content : nat -> pystr -> api_outcome) (clock : nat -> pystr)
  (topics : list pystr) (tone length target_audience : pystr)
  (include_hashtags include_call_to_action : bool) : list blog_post :=
  generate_multiple_posts_from generate_content clock 0 topics tone length
    target_audience include_hashtags include_call_to_action.

(** *** [get_topic_suggestions] *)

Definition suggestions_prompt (industry : pystr) (keywords : list pystr)
  : pystr :=
  let keywords_str :=
    match keywords with
    | [] => py "general topics"
    | _ :: _ => join_with (py ", ") keywords
    end in
  join_lines
    [ [];
      py "            Suggest 10 trending and engaging LinkedIn blog post topics for the "
        ++ industry ++ py " industry.";
      py "            ";
      py "            Consider these keywords: " ++ keywords_str;
      py "            ";
      py "            Make sure the topics are:";
      py "            1. Relevant to current industry trends";
      py "            2. Engaging and likely to get good engagement on LinkedIn";
      py "            3. Valuable to professionals in this field";
      py "            4. Actionable and practical";
      py "            ";
      py "            Format your response as a numbered list:";
      py "            1. Topic 1";
      py "            2. Topic 2";
      py "            ...etc";
      py "            " ].

(** The prefixes ["1."] to ["10."]. *)
Definition topic_labels : list pystr :=
  map (fun i => decimal i ++ [DOT]) (seq 1 10).

(** [s.split(sep, 1)[1]] for a string that holds [sep]: what follows the
    first [sep]. *)
Fixpoint after_first (sep : N) (s : pystr) : pystr :=
  match s with
  | [] => []
  | c :: s' => if N.eqb c sep then s' else after_first sep s'
  end.

(** One round of the loop over the lines of the response. *)
Definition topic_of_line (raw : pystr) : list pystr :=
  let line := strip raw in
  if truthy line && existsb (fun l => startswith l line) topic_labels
  then [if existsb (N.eqb DOT) line
        then strip (after_first DOT line) else line]
  else [].

Definition get_topic_suggestions (generate_content : pystr -> api_outcome)
  (industry : pystr) (keywords : list pystr) : list pystr :=
  match generate_content (suggestions_prompt industry keywords) with
  | api_text text => flat_map topic_of_line (split_lines text)
  | api_raises _ => []
  end.

(** ** The rest of email_sender.py *)

(** [a or b] for two optional strings, and whether the result is true. *)
Definition py_or (a b : option pystr) : option pystr :=
  match a with
  | Some x => if truthy x then a else b
  | None => b
  end.

Definition truthy_opt (a : option pystr) : bool :=
  match a with
  | Some x => truthy x
  | None => false
  end.

(** *** [send_blog_post]

    [recipient_email] is the default recipient of the sender object, which
    the configuration may not give. *)
Definition send_blog_post (self : EmailSender)
  (recipient_email : option pystr) (box : outbox)
  (blog_post : pydict pystr) (recipient : option pystr)
  (subject_prefix : pystr) : bool * outbox :=
  match py_or recipient recipient_email with
  | Some r =>
      if truthy r
      then
        _send_email self box
          {| msg_subject :=
               subject_prefix ++ py ": "
                 ++ dict_get_default (py "title") (py "Untitled") blog_post;
             msg_from := sender_email self; msg_to := r;
             msg_text := email_body self blog_post;
             msg_html := html_body self blog_post |}
      else (false, box)
  | None => (false, box)
  end.

(** *** [send_multiple_posts]

    [send_combined] stands for [_send_combined_posts], whose single
    plain-text message is not modelled here. *)
Definition send_post_numbered (self : EmailSender)
  (recipient_email recipient : option pystr)
  (st : pydict bool * outbox * nat) (post : pydict pystr)
  : pydict bool * outbox * nat :=
  let '(results, box, i) := st in
  let post_title :=
    dict_get_default (py "title") (py "Post " ++ decimal (i + 1)) post in
  let '(success, box') :=
    send_blog_post self recipient_email box post recipient
      (py "Blog Post " ++ decimal (i + 1)) in
  (dict_set post_title success results, box', S i).

Definition send_multiple_posts (self : EmailSender)
  (recipient_email : option pystr)
  (send_combined :
     outbox -> list (pydict pystr) -> option pystr -> bool * outbox)
  (box : outbox) (blog_posts : list (pydict pystr))
  (recipient : option pystr) (send_separately : bool)
  : pydict bool * outbox :=
  if send_separately
  then
    fst (fold_left (send_post_numbered self recipient_email recipient)
           blog_posts ([], box, 0))
  else
    let '(success, box') := send_combined box blog_posts recipient in
    ([(py "Combined Posts", success)], box').

(** *** [_create_email_body]

    [now] is the time the clock gives when the post has no time stamp. *)
Definition _create_email_body (now : pystr) (blog_post : pydict pystr)
  : pystr :=
  let body :=
    join_lines
      [ []; py "Hello!"; [];
        py "I've generated a new LinkedIn blog post for you:"; [];
        py "TITLE: "
          ++ dict_get_default (py "title") (py "Untitled") blog_post;
        []; py "CONTENT:";
        dict_get_default (py "content") (py "No content available")
          blog_post;
        []; [] ] in
  let body :=
    if truthy_opt (dict_get (py "hashtags") blog_post)
    then body ++ NL :: py "HASHTAGS: "
           ++ dict_get_default (py "hashtags") [] blog_post ++ [NL]
    else body in
  let body :=
    if truthy_opt (dict_get (py "call_to_action") blog_post)
    then body ++ NL :: py "CALL TO ACTION: "
           ++ dict_get_default (py "call_to_action") [] blog_post ++ [NL]
    else body in
  body
    ++ join_lines
         [ []; py "---";
           py "Generated on: "
             ++ dict_get_default (py "generated_at") now blog_post;
           py "Topic: "
             ++ dict_get_default (py "topic") (py "Unknown") blog_post;
           py "Tone: "
             ++ dict_get_default (py "tone") (py "Unknown") blog_post;
           []; py "Best regards,"; py "LinkedIn Blog Agent"; [] ].

(** ** Vocabulary of the statements *)

(** [p] occurs in [s]: the meaning of [contains]. *)
Definition occurs_in (p s : pystr) : Prop :=
  exists before after, s = before ++ p ++ after.

Definition add_distinct (seen : list pystr) (x : pystr) : list pystr :=
  if existsb (pystr_eqb x) seen then seen else seen ++ [x].

(** The strings of a list, each once, in the order they first appear. *)
Definition distinct (l : list pystr) : list pystr :=
  fold_left add_distinct l [].

(** What the relay answers to messages handed to it one after the other. *)
Fixpoint relay_run (self : EmailSender) (box : outbox) (ms : list message)
  : list bool :=
  match ms with
  | [] => []
  | m :: ms' => relay_accepts self box m :: relay_run self (box ++ [m]) ms'
  end.

(** A validation map that gives every key its own verdict. *)
Definition tabulated {U : Unicode} (d : pydict bool) : Prop :=
  d = map (fun e => (e, validate_email e)) (dict_keys d).

(** A relay that refuses everything. *)
Definition deaf_sender : EmailSender :=
  {| sender_email := py "agent@x.com"; email_body := fun _ => [];
     html_body := fun _ => []; relay_accepts := fun _ _ => false |}.

(** A later position [q] of the subject of [p]: what was passed over on
    the way has moved from after the position to before it. *)
Definition extends (p q : pos) : Prop :=
  exists consumed,
    snd p = consumed ++ snd q /\ fst q = rev consumed ++ fst p.

(** A result found from [p] ends at a later position, and its groups are
    made of characters that follow [p]. *)
Definition sound (p : pos) (res : result) : Prop :=
  extends p (fst res) /\ Forall (fun g => incl g (snd p)) (snd res).

(** The literal characters of a replacement template. *)
Definition literals (tpl : list piece) : pystr :=
  flat_map (fun x => match x with Lit c => [c] | Ref _ => [] end) tpl.

(** The longest prefix of characters of a class, and what follows it. *)
Fixpoint take_while (f : N -> bool) (s : pystr) : pystr :=
  match s with
  | c :: s' => if f c then c :: take_while f s' else []
  | [] => []
  end.

Fixpoint drop_while (f : N -> bool) (s : pystr) : pystr :=
  match s with
  | c :: s' => if f c then drop_while f s' else s
  | [] => []
  end.

(** Neither an asterisk nor one of the given symbols. *)
Definition plain (symbols : list N) (c : N) : Prop :=
  c <> STAR /\ ~ In c symbols.

(** Only whitespace. *)
Definition all_space (s : pystr) : bool := forallb isspace s.

(** A line of a response that holds no line feed and, once trimmed, starts
    with none of the four labels. *)
Definition unlabelled (l : pystr) : bool :=
  negb (existsb (N.eqb NL) l)
  && negb (startswith (label sec_title) (strip l)
           || startswith (label sec_content) (strip l)
           || startswith (label sec_hashtags) (strip l)
           || startswith (label sec_call_to_action) (strip l)).

(** A section of a response: the line that opens it, made of its label and
    the text [first], and the lines [more] that follow it. *)
Definition block (k : section) (first : pystr) (more : list pystr)
  : list pystr :=
  (label k ++ first) :: more.

(** The text after the label holds neither a line feed nor the label
    again, and the lines that follow are unlabelled. *)
Definition well_formed (k : section) (first : pystr) (more : list pystr)
  : bool :=
  negb (existsb (N.eqb NL) first) && negb (contains (label k) first)
  && forallb unlabelled more.

(** The body of a section: its lines trimmed, the blank ones left out, the
    others joined by line feeds. *)
Definition section_body (first : pystr) (more : list pystr) : pystr :=
  join_lines (filter truthy (map strip (first :: more))).

(** A section that may be missing. *)
Definition optional_block (k : section) (b : option (pystr * list pystr))
  : list pystr :=
  match b with
  | Some (first, more) => block k first more
  | None => []
  end.

Definition optional_well_formed (k : section)
  (b : option (pystr * list pystr)) : bool :=
  match b with
  | Some (first, more) => well_formed k first more
  | None => true
  end.

Definition optional_body (b : option (pystr * list pystr)) : pystr :=
  match b with
  | Some (first, more) => section_body first more
  | None => []
  end.

(** What a line that continues a section makes of the field so far. *)
Definition continue_field (v l : pystr) : pystr :=
  if truthy (strip l)
  then if truthy v then v ++ NL :: strip l else strip l
  else v.

(** A response with all four sections, used in examples. *)
Definition sample_response : pystr :=
  join_lines
    [ py "Here is your post:";
      py "TITLE: **Big** News";
      py "CONTENT: First paragraph.";
      [];
      py "  Second paragraph.";
      py "HASHTAGS: ai ml";
      py "CALL_TO_ACTION: Tell me what you think" ].

(** Where the pattern for a bare tag matches: at an ASCII letter that
    follows neither [#] nor a word character. *)
Definition tag_start {U : Unicode} (prev : option N) (c : N) : bool :=
  match prev with
  | Some p => negb (N.eqb HASH p) && negb (is_word p)
  | None => true
  end && is_alpha c.

(** The hashtag substitution, character by character: a [#] goes in front
    of every character a bare tag starts at. *)
Fixpoint hashify {U : Unicode} (prev : option N) (s : pystr) : pystr :=
  match s with
  | [] => []
  | c :: s' =>
      (if tag_start prev c then [HASH; c] else [c]) ++ hashify (Some c) s'
  end.

(** The whitespace-delimited tokens of a string, as [str.split()] gives
    them. *)
Fixpoint words (s : pystr) : list pystr :=
  match s with
  | [] => []
  | c :: s' =>
      if isspace c then words s'
      else
        match s' with
        | c' :: _ =>
            if isspace c' then [c] :: words s'
            else match words s' with
                 | t :: ts => (c :: t) :: ts
                 | [] => [[c]]
                 end
        | [] => [[c]]
        end
  end.

(** A bare word: an ASCII letter, then ASCII letters, digits, underscores. *)
Definition tag_word (w : pystr) : bool :=
  match w with
  | c :: w' => is_alpha c && forallb is_tag_char w'
  | [] => false
  end.

(** A bare word, or [#] and a bare word. *)
Definition is_tag_token (t : pystr) : bool :=
  tag_word t
  || match t with
     | c :: w => N.eqb c HASH && tag_word w
     | [] => false
     end.

(** The token with one [#] in front, unless it has one. *)
Definition ensure_hash (t : pystr) : pystr :=
  if startswith [HASH] t then t else HASH :: t.

(** No whitespace. *)
Definition spaceless (s : pystr) : bool :=
  forallb (fun c => negb (isspace c)) s.

(** Empty, or whitespace first. *)
Definition starts_blank (s : pystr) : bool :=
  match s with
  | c :: _ => isspace c
  | [] => true
  end.

(** Nothing, or whitespace. *)
Definition open_prev (prev : option N) : bool :=
  match prev with
  | Some p => isspace p
  | None => true
  end.

(** The last character once [x] has been passed. *)
Definition prev_after (prev : option N) (x : pystr) : option N :=
  fold_left (fun _ c => Some c) x prev.

(** Records with one field filled, used in examples. *)
Definition hashtags_only (h : pystr) : blog_data :=
  {| title := []; content := []; hashtags := h; call_to_action := [];
     full_post := [] |}.

Definition content_only (c : pystr) : blog_data :=
  {| title := []; content := c; hashtags := []; call_to_action := [];
     full_post := [] |}.

(** The number of line feeds a string starts with. *)
Definition lead (s : pystr) : nat := length (take_while (N.eqb NL) s).

(** Never three line feeds in a row. *)
Fixpoint no3 (s : pystr) : bool :=
  match s with
  | [] => true
  | _ :: s' => Nat.leb (lead s) 2 && no3 s'
  end.

(** At the start of a line: nothing before, or a line feed. *)
Definition at_line_start (b : pystr) : bool :=
  match b with
  | [] => true
  | c :: _ => N.eqb c NL
  end.

(** A list marker at the head of [s]: a bullet, or a dash or an asterisk
    with whitespace after it. *)
Definition marker_here (s : pystr) : bool :=
  match s with
  | c :: s' =>
      one_of bullets c
      || one_of [45; STAR]%N c
         && match s' with
            | c' :: _ => isspace c'
            | [] => false
            end
  | [] => false
  end.

(** No line of [s] starts with a list marker; [b] is what comes before
    [s], last character first. *)
Fixpoint marker_free_from (b s : pystr) : bool :=
  negb (at_line_start b && marker_here s)
  && match s with
     | c :: s' => marker_free_from (c :: b) s'
     | [] => true
     end.

Definition marker_free (s : pystr) : bool := marker_free_from [] s.

(** A pattern whose first match always stops in front of a character that
    is not whitespace, having passed at least one character. *)
Definition stops_clean {U : Unicode} (r : regex) : Prop :=
  forall b a q g rest,
    matches r (b, a) = (q, g) :: rest ->
    lead (snd q) = 0 /\ length (snd q) < length a
    /\ exists x, a = x ++ snd q.

(** A character the title and the call to action keep: no asterisk and
    none of their symbols. *)
Definition kept (c : N) : bool :=
  negb (N.eqb STAR c) && negb (one_of title_symbols c).

(** What a section of a response, given as its label, the text after the
    label and the lines that follow, makes of the record. *)
Definition record_block (d : blog_data)
  (b : section * pystr * list pystr) : blog_data :=
  let '(k, first, more) := b in set_section k (section_body first more) d.

Definition block_lines_of (b : section * pystr * list pystr) : list pystr :=
  let '(k, first, more) := b in block k first more.

Definition block_well_formed (b : section * pystr * list pystr) : bool :=
  let '(k, first, more) := b in well_formed k first more.

(** Assigning a list of keys and values in turn: [d[k] = v] for each. *)
Definition dict_update_all {V : Type} (d : pydict V)
  (kvs : list (pystr * V)) : pydict V :=
  fold_left (fun d kv => dict_set (fst kv) (snd kv) d) kvs d.

(** The subject [send_to_multiple_recipients] gives the message for a
    recipient. *)
Definition subject_for (blog_post : pydict pystr) (subject_prefix : pystr)
  (personalized_subjects : option (pydict pystr)) (recipient : pystr)
  : pystr :=
  let default_subject :=
    subject_prefix ++ py ": "
      ++ dict_get_default (py "title") (py "Untitled") blog_post in
  match personalized_subjects with
  | Some subjects => dict_get_default recipient default_subject subjects
  | None => default_subject
  end.

(** The keys under which [send_multiple_posts] files its results: the
    title of each post, or its number when it has none; and the subjects of
    its messages. *)
Fixpoint numbered_titles (i : nat) (posts : list (pydict pystr))
  : list pystr :=
  match posts with
  | [] => []
  | p :: ps =>
      dict_get_default (py "title") (py "Post " ++ decimal (i + 1)) p
        :: numbered_titles (S i) ps
  end.

Fixpoint numbered_subjects (i : nat) (posts : list (pydict pystr))
  : list pystr :=
  match posts with
  | [] => []
  | p :: ps =>
      (py "Blog Post " ++ decimal (i + 1) ++ py ": "
         ++ dict_get_default (py "title") (py "Untitled") p)
        :: numbered_subjects (S i) ps
  end.

(** [xs] is [ys] with some elements left out. *)
Inductive subsequence {A : Type} : list A -> list A -> Prop :=
| subsequence_nil : subsequence [] []
| subsequence_keep (x : A) (xs ys : list A) :
    subsequence xs ys -> subsequence (x :: xs) (x :: ys)
| subsequence_skip (y : A) (xs ys : list A) :
    subsequence xs ys -> subsequence xs (y :: ys).

(** Whether the model answers the call numbered [fst it], made for the
    topic [snd it], with a text that is not empty. *)
Definition answered (generate_content : nat -> pystr -> api_outcome)
  (tone length target_audience : pystr)
  (include_hashtags include_call_to_action : bool) (it : nat * pystr)
  : bool :=
  match generate_content (fst it)
          (_create_blog_prompt (snd it) tone length target_audience
             include_hashtags include_call_to_action) with
  | api_text text => truthy text
  | api_raises _ => false
  end.

(** No line feed. *)
Definition one_line (l : pystr) : bool := negb (existsb (N.eqb NL) l).

(** A line that, once trimmed, starts with one of the prefixes [1.] to
    [10.]. *)
Definition numbered (l : pystr) : bool :=
  existsb (fun lab => startswith lab (strip l)) topic_labels.

(** A line of a response to the request for topics: any line that is not
    numbered, or a prefix and the text after it. *)
Definition suggestion_line (x : pystr + pystr * pystr) : pystr :=
  match x with
  | inl other => other
  | inr (lab, text) => lab ++ text
  end.

Definition suggestion_line_ok (x : pystr + pystr * pystr) : bool :=
  match x with
  | inl other => one_line other && negb (numbered other)
  | inr (lab, text) => existsb (pystr_eqb lab) topic_labels && one_line text
  end.

(** The topic a line gives, if any. *)
Definition suggested (x : pystr + pystr * pystr) : list pystr :=
  match x with
  | inl _ => []
  | inr (_, text) => [strip text]
  end.

(** Some way [r] matches from [p] ends at [q]. *)
Definition reaches {U : Unicode} (r : regex) (p q : pos) : Prop :=
  exists g, In (q, g) (matches r p).

(** An address as the pattern of [validate_email] describes it: a local
    part, [@], a domain, a full stop and at least two ASCII letters. *)
Definition email_shape (s : pystr) : Prop :=
  exists local domain tld,
    s = local ++ AT :: domain ++ DOT :: tld
    /\ local <> [] /\ forallb is_local_char local = true
    /\ domain <> [] /\ forallb is_domain_char domain = true
    /\ 2 <= List.length tld /\ forallb is_alpha tld = true.

(** * Properties *)

(** ** Strings *)

Lemma pystr_eqb_refl (a : pystr) : pystr_eqb a a = true.
Proof.
  induction a as [|x a IH]; simpl; [reflexivity|].
  now rewrite N.eqb_refl, IH.
Qed.

Lemma pystr_eqb_eq (a b : pystr) : pystr_eqb a b = true <-> a = b.
Proof.
  split; [|intros ->; apply pystr_eqb_refl].
  revert b; induction a as [|x a IH]; intros [|y b]; simpl; try discriminate.
  - reflexivity.
  - rewrite andb_true_iff, N.eqb_eq. intros [-> E]. f_equal. now apply IH.
Qed.

Lemma pystr_eqb_neq (a b : pystr) : a <> b -> pystr_eqb a b = false.
Proof.
  intros D. destruct (pystr_eqb a b) eqn:E; [|reflexivity].
  now apply pystr_eqb_eq in E.
Qed.

Lemma startswith_app (p s : pystr) : startswith p (p ++ s) = true.
Proof.
  induction p as [|x p IH]; simpl; [reflexivity|].
  now rewrite N.eqb_refl.
Qed.

Lemma startswith_inv (p s : pystr) :
  startswith p s = true -> exists after, s = p ++ after.
Proof.
  revert s; induction p as [|x p IH]; intros s; simpl.
  - intros _. now exists s.
  - destruct s as [|y s]; [discriminate|].
    rewrite andb_true_iff, N.eqb_eq. intros [-> E].
    destruct (IH _ E) as [after ->]. now exists after.
Qed.

Lemma contains_occurs (p s : pystr) : contains p s = true <-> occurs_in p s.
Proof.
  split.
  - induction s as [|c s IH]; simpl; rewrite orb_true_iff.
    + intros [E|E]; [|discriminate].
      destruct (startswith_inv _ _ E) as [after ->]. now exists [], after.
    + intros [E|E].
      * destruct (startswith_inv _ _ E) as [after ->]. now exists [], after.
      * destruct (IH E) as (b & a & ->). now exists (c :: b), a.
  - intros (b & a & ->). induction b as [|c b IH]; simpl.
    + destruct (p ++ a) eqn:E; simpl; rewrite <- E, startswith_app;
        reflexivity.
    + rewrite IH. apply orb_true_r.
Qed.

Lemma contains_absent (p s : pystr) : contains p s = false <-> ~ occurs_in p s.
Proof.
  rewrite <- contains_occurs. destruct (contains p s); intuition congruence.
Qed.

Lemma occurs_in_app_r (p l s : pystr) : occurs_in p s -> occurs_in p (l ++ s).
Proof.
  intros (b & a & ->). exists (l ++ b), a. now rewrite app_assoc.
Qed.

Lemma occurs_in_cons (p : pystr) (c : N) (s : pystr) :
  occurs_in p s -> occurs_in p (c :: s).
Proof. apply (occurs_in_app_r p [c]). Qed.

Lemma occurs_in_here (p a b : pystr) : occurs_in p ((a ++ p) ++ b).
Proof. exists a, b. now rewrite <- app_assoc. Qed.

(** ** The prompt *)

Lemma length_guidelines_default (length default : pystr) :
  length <> py "short" -> length <> py "medium" -> length <> py "long" ->
  dict_get_default length default length_guidelines = default.
Proof.
  intros H1 H2 H3. unfold dict_get_default, length_guidelines. simpl.
  now rewrite !pystr_eqb_neq.
Qed.

Ltac find_in_prompt :=
  unfold _create_blog_prompt; cbn [join_lines];
  repeat first
    [ apply occurs_in_here
    | apply occurs_in_cons
    | apply occurs_in_app_r ].

(** C9.  The prompt contains the word-count range of its length: that of
    short, medium or long, and for any other length that of medium.  The
    prompt builder is a total function of its arguments. *)
Theorem prompt_contains_word_count_range :
  forall (topic tone target_audience : pystr)
         (include_hashtags include_call_to_action : bool),
    occurs_in (py "150-300 words")
      (_create_blog_prompt topic tone (py "short") target_audience
         include_hashtags include_call_to_action)
    /\ occurs_in (py "400-600 words")
         (_create_blog_prompt topic tone (py "medium") target_audience
            include_hashtags include_call_to_action)
    /\ occurs_in (py "700-1000 words")
         (_create_blog_prompt topic tone (py "long") target_audience
            include_hashtags include_call_to_action)
    /\ forall length : pystr,
         length <> py "short" -> length <> py "medium" ->
         length <> py "long" ->
         occurs_in (py "400-600 words")
           (_create_blog_prompt topic tone length target_audience
              include_hashtags include_call_to_action).
Proof.
  intros. repeat split.
  - find_in_prompt.
  - find_in_prompt.
  - find_in_prompt.
  - intros length H1 H2 H3. unfold _create_blog_prompt.
    rewrite (length_guidelines_default _ _ H1 H2 H3). find_in_prompt.
Qed.

(** The fallback at a length that is none of the three. *)
Lemma prompt_default_range_witness :
  occurs_in (py "400-600 words")
    (_create_blog_prompt (py "AI") (py "casual") (py "huge") (py "engineers")
       true true).
Proof.
  apply (proj2 (proj2 (proj2
           (prompt_contains_word_count_range (py "AI") (py "casual")
              (py "engineers") true true))));
    discriminate.
Defined.

(** ** Error classification *)

Lemma occurs_in_trans (p q s : pystr) :
  occurs_in p q -> occurs_in q s -> occurs_in p s.
Proof.
  intros (b1 & a1 & ->) (b2 & a2 & ->).
  exists (b2 ++ b1), (a1 ++ a2). now rewrite <- !app_assoc.
Qed.

Lemma classify_quota {U : Unicode} (message : pystr) :
  occurs_in (py "quota") (lower message)
  \/ occurs_in (py "exceeded") (lower message)
  \/ occurs_in (py "limit") (lower message) ->
  classify message = quota_exceeded message.
Proof.
  unfold classify. rewrite <- !contains_occurs.
  intros [-> | [-> | ->]]; now rewrite ?orb_true_r.
Qed.

Lemma classify_rate {U : Unicode} (message : pystr) :
  ~ occurs_in (py "quota") (lower message) ->
  ~ occurs_in (py "exceeded") (lower message) ->
  ~ occurs_in (py "limit") (lower message) ->
  occurs_in (py "rate") (lower message) ->
  classify message = rate_limited message.
Proof.
  unfold classify. rewrite <- !contains_absent, <- contains_occurs.
  now intros -> -> -> ->.
Qed.

Lemma classify_other {U : Unicode} (message : pystr) :
  ~ occurs_in (py "quota") (lower message) ->
  ~ occurs_in (py "exceeded") (lower message) ->
  ~ occurs_in (py "limit") (lower message) ->
  ~ occurs_in (py "rate") (lower message) ->
  classify message = api_error message.
Proof.
  unfold classify. rewrite <- !contains_absent.
  now intros -> -> -> ->.
Qed.

Lemma join_lines_last (ls : list pystr) (x original : pystr) :
  exists before, join_lines (ls ++ [x ++ original]) = before ++ original.
Proof.
  induction ls as [|l ls [before IH]].
  - now exists x.
  - exists (l ++ NL :: before). cbn [app join_lines].
    destruct (ls ++ [x ++ original]) eqn:E.
    + now destruct ls.
    + rewrite IH. now rewrite <- app_assoc.
Qed.

Lemma error_message_carries_original (e : generation_error) :
  match e with
  | quota_exceeded original | rate_limited original | api_error original =>
      exists before, error_message e = before ++ original
  end.
Proof.
  destruct e as [o|o|o]; unfold error_message.
  - match goal with
    | |- context [join_lines ?l] =>
        destruct (join_lines_last (removelast l) (py "Original error: ") o)
          as [before E]
    end.
    exists (SIREN :: before). cbn [removelast app] in E.
    cbn [app]. now rewrite <- E.
  - match goal with
    | |- context [join_lines ?l] =>
        destruct (join_lines_last (removelast l) (py "Original error: ") o)
          as [before E]
    end.
    exists (SIREN :: before). cbn [removelast app] in E.
    cbn [app]. now rewrite <- E.
  - now eexists.
Qed.

(** C1, as the code has it.  When the external call raises, the lower-cased
    text of its error decides the error that is raised instead: a text with
    "quota", "exceeded" or "limit" in it gives the quota error (so does one
    with "quota exceeded"); a text with none of these and "rate" in it gives
    the rate-limit error; a text with none of the four gives the generic
    error.  The message of each ends with the text of the error caught. *)
Theorem generation_error_classification :
  forall {U : Unicode} (generate_content : pystr -> api_outcome)
         (now topic tone length target_audience : pystr)
         (include_hashtags include_call_to_action : bool) (message : pystr),
    generate_content
      (_create_blog_prompt topic tone length target_audience
         include_hashtags include_call_to_action) = api_raises message ->
    let text := lower message in
    let outcome :=
      generate_blog_post generate_content now topic tone length
        target_audience include_hashtags include_call_to_action in
    (occurs_in (py "quota") text \/ occurs_in (py "exceeded") text
     \/ occurs_in (py "limit") text ->
     outcome = inr (quota_exceeded message))
    /\ (occurs_in (py "quota exceeded") text ->
        outcome = inr (quota_exceeded message))
    /\ (~ occurs_in (py "quota") text -> ~ occurs_in (py "exceeded") text ->
        ~ occurs_in (py "limit") text -> occurs_in (py "rate") text ->
        outcome = inr (rate_limited message))
    /\ (~ occurs_in (py "quota") text -> ~ occurs_in (py "exceeded") text ->
        ~ occurs_in (py "limit") text -> ~ occurs_in (py "rate") text ->
        outcome = inr (api_error message))
    /\ exists (e : generation_error) (before : pystr),
         outcome = inr e /\ error_message e = before ++ message.
Proof.
  intros U gen now topic tone length aud h c message Hgen text outcome.
  assert (Hout : outcome = inr (classify message))
    by (unfold outcome, generate_blog_post; now rewrite Hgen).
  rewrite Hout. repeat split.
  - intros Hk. now rewrite classify_quota.
  - intros Hk. rewrite classify_quota; [reflexivity|]. left.
    apply occurs_in_trans with (2 := Hk). now exists [], (py " exceeded").
  - intros. now rewrite classify_rate.
  - intros. now rewrite classify_other.
  - exists (classify message).
    pose proof (error_message_carries_original (classify message)) as Hc.
    unfold classify in *.
    destruct (_ || _); [|destruct (contains _ _)];
      destruct Hc as [before Hc]; now exists before.
Qed.

(** An error that says "Quota exceeded" is classified as the quota error. *)
Lemma generation_error_classification_witness :
  generate_blog_post (U := ascii_tables)
    (fun _ => api_raises (py "429 Quota exceeded for today"))
    (py "2025-01-01T00:00:00") (py "AI") (py "casual") (py "short")
    (py "engineers") true true
  = inr (quota_exceeded (py "429 Quota exceeded for today")).
Proof.
  apply (proj1 (proj2
           (generation_error_classification (U := ascii_tables)
              (fun _ => api_raises (py "429 Quota exceeded for today"))
              (py "2025-01-01T00:00:00") (py "AI") (py "casual") (py "short")
              (py "engineers") true true (py "429 Quota exceeded for today")
              eq_refl))).
  exists (py "429 "), (py " for today"). reflexivity.
Defined.

(** C1 as stated fails: an error that says "rate limit" is classified as
    the quota error, since "limit" is looked for first; and an error that
    says neither "quota exceeded" nor "rate limit" need not be generic. *)
Lemma rate_limit_error_classified_as_quota :
  contains (py "rate limit")
    (lower (U := ascii_tables) (py "Rate limit reached, retry later")) = true
  /\ generate_blog_post (U := ascii_tables)
       (fun _ => api_raises (py "Rate limit reached, retry later"))
       (py "2025-01-01T00:00:00") (py "AI") (py "casual") (py "short")
       (py "engineers") true true
     = inr (quota_exceeded (py "Rate limit reached, retry later"))
  /\ generate_blog_post (U := ascii_tables)
       (fun _ => api_raises (py "Deadline exceeded"))
       (py "2025-01-01T00:00:00") (py "AI") (py "casual") (py "short")
       (py "engineers") true true
     = inr (quota_exceeded (py "Deadline exceeded")).
Proof. repeat split; vm_compute; reflexivity. Qed.

(** C2 fails on the code.  A response with empty text raises "No content
    generated from Google AI" inside the guarded block; the handler finds
    "rate" in "generated" and raises the rate-limit error, not the generic
    one. *)
Theorem empty_response_raises_rate_limit_error :
  forall {U : Unicode} (now topic tone length target_audience : pystr)
         (include_hashtags include_call_to_action : bool),
    generate_blog_post (fun _ => api_text []) now topic tone length
      target_audience include_hashtags include_call_to_action
    = inr (rate_limited NO_CONTENT)
    /\ occurs_in (py "rate") (lower NO_CONTENT).
Proof.
  intros. split.
  - reflexivity.
  - exists (py "no content gene"), (py "d from google ai"). reflexivity.
Qed.

(** ** Address validation *)

(** C8 fails on the code at a trailing line feed.  The four addresses of
    the specification are judged as it says, but ["a@b.co\n"] is accepted
    too: [$] also matches before a line feed that ends the string. *)
Theorem validate_email_examples :
  forall {U : Unicode},
    validate_email (py "valid@example.com") = true
    /\ validate_email (py "a.b+c@sub.domain.co") = true
    /\ validate_email (py "not-an-email") = false
    /\ validate_email (py "a@b") = false
    /\ validate_email (py "a@b.co" ++ [NL]) = true.
Proof. intros. repeat split; vm_compute; reflexivity. Qed.

(** ** Dictionaries and distinct keys *)

Lemma existsb_pystr_eqb (x : pystr) (l : list pystr) :
  existsb (pystr_eqb x) l = true <-> In x l.
Proof.
  rewrite existsb_exists. split.
  - intros (y & Hy & E). apply pystr_eqb_eq in E. now subst.
  - intros Hx. exists x. split; [assumption|apply pystr_eqb_refl].
Qed.

Lemma dict_keys_set {V : Type} (k : pystr) (v : V) (d : pydict V) :
  dict_keys (dict_set k v d) = add_distinct (dict_keys d) k.
Proof.
  unfold add_distinct. induction d as [|[k' v'] d IH]; simpl; [reflexivity|].
  destruct (pystr_eqb k k'); simpl; [reflexivity|].
  rewrite IH. unfold dict_keys. now destruct (existsb _ _).
Qed.

Lemma dict_set_fresh {V : Type} (k : pystr) (v : V) (d : pydict V) :
  ~ In k (dict_keys d) -> dict_set k v d = d ++ [(k, v)].
Proof.
  induction d as [|[k' v'] d IH]; simpl; intros Hk; [reflexivity|].
  rewrite pystr_eqb_neq by intuition congruence.
  now rewrite IH by tauto.
Qed.

Lemma dict_get_tabulate {V : Type} (f : pystr -> V) (k : pystr)
  (ks : list pystr) :
  In k ks -> dict_get k (map (fun e => (e, f e)) ks) = Some (f k).
Proof.
  induction ks as [|k' ks IH]; simpl; [tauto|].
  destruct (pystr_eqb k k') eqn:E.
  - apply pystr_eqb_eq in E. now subst.
  - intros [->|Hk]; [now rewrite pystr_eqb_refl in E|now apply IH].
Qed.

Section Distinct.

Lemma add_distinct_in (seen : list pystr) (x y : pystr) :
  In y (add_distinct seen x) <-> In y seen \/ y = x.
Proof.
  unfold add_distinct. destruct (existsb _ _) eqn:E.
  - apply existsb_pystr_eqb in E. intuition (subst; assumption).
  - rewrite in_app_iff. simpl. intuition.
Qed.

Lemma add_distinct_NoDup (seen : list pystr) (x : pystr) :
  NoDup seen -> NoDup (add_distinct seen x).
Proof.
  unfold add_distinct. destruct (existsb _ _) eqn:E; [tauto|].
  intros Hs. apply NoDup_app; [assumption|repeat constructor; tauto|].
  intros y Hy [<-|[]]. apply existsb_pystr_eqb in Hy. congruence.
Qed.

Lemma add_distinct_length (seen : list pystr) (x : pystr) :
  length (add_distinct seen x) <= S (length seen).
Proof.
  unfold add_distinct. destruct (existsb _ _); [lia|].
  rewrite length_app. simpl. lia.
Qed.

Lemma fold_distinct_in (l seen : list pystr) (y : pystr) :
  In y (fold_left add_distinct l seen) <-> In y seen \/ In y l.
Proof.
  revert seen; induction l as [|x l IH]; intros seen; simpl; [tauto|].
  rewrite IH, add_distinct_in. intuition.
Qed.

Lemma fold_distinct_NoDup (l seen : list pystr) :
  NoDup seen -> NoDup (fold_left add_distinct l seen).
Proof.
  revert seen; induction l as [|x l IH]; intros seen Hs; simpl;
    [assumption|].
  now apply IH, add_distinct_NoDup.
Qed.

Lemma fold_distinct_length (l seen : list pystr) :
  length (fold_left add_distinct l seen) <= length seen + length l.
Proof.
  revert seen; induction l as [|x l IH]; intros seen; simpl; [lia|].
  specialize (IH (add_distinct seen x)).
  pose proof (add_distinct_length seen x). lia.
Qed.

(** Nothing is dropped only when nothing is repeated. *)
Lemma fold_distinct_full (l seen : list pystr) :
  NoDup seen ->
  length (fold_left add_distinct l seen) = length seen + length l ->
  NoDup (seen ++ l).
Proof.
  revert seen; induction l as [|x l IH]; intros seen Hs; simpl.
  - now rewrite app_nil_r.
  - intros Hlen. pose proof (fold_distinct_length l (add_distinct seen x)).
    unfold add_distinct in *. destruct (existsb _ _) eqn:E.
    + lia.
    + assert (Hx : ~ In x seen)
        by (rewrite <- existsb_pystr_eqb; congruence).
      assert (Hs' : NoDup (seen ++ [x])).
      { apply NoDup_app; [assumption|repeat constructor; tauto|].
        intros y Hy [<-|[]]. tauto. }
      specialize (IH _ Hs'). rewrite length_app in IH. simpl in IH.
      rewrite <- app_assoc in IH. apply IH. lia.
Qed.

Lemma distinct_in (l : list pystr) (y : pystr) : In y (distinct l) <-> In y l.
Proof. unfold distinct. rewrite fold_distinct_in. simpl. tauto. Qed.

Lemma distinct_NoDup (l : list pystr) : NoDup (distinct l).
Proof. apply fold_distinct_NoDup. constructor. Qed.

Lemma distinct_length (l : list pystr) : length (distinct l) <= length l.
Proof. apply (fold_distinct_length l []). Qed.

Lemma distinct_shorter (l : list pystr) :
  ~ NoDup l -> length (distinct l) < length l.
Proof.
  intros Hd. pose proof (distinct_length l).
  destruct (Nat.eq_dec (length (distinct l)) (length l)) as [E|]; [|lia].
  exfalso. apply Hd. apply (fold_distinct_full l []); [constructor|exact E].
Qed.

End Distinct.

(** ** Batch dispatch *)

Section Batch.

Context {U : Unicode}.

Lemma tabulated_set (e : pystr) (d : pydict bool) :
  tabulated d -> tabulated (dict_set e (validate_email e) d).
Proof.
  unfold tabulated. induction d as [|[k v] d IH]; simpl; [reflexivity|].
  intros E. injection E as Ev Ed.
  destruct (pystr_eqb e k) eqn:Ek.
  - apply pystr_eqb_eq in Ek. subst k. simpl. now f_equal.
  - simpl. f_equal; [now f_equal|]. now apply IH.
Qed.

Lemma validate_fold (rs : list pystr) (d : pydict bool) :
  tabulated d ->
  let d' :=
    fold_left (fun results email =>
                 dict_set email (validate_email email) results) rs d in
  tabulated d' /\ dict_keys d' = fold_left add_distinct rs (dict_keys d).
Proof.
  revert d; induction rs as [|e rs IH]; intros d Hd; simpl; [now split|].
  destruct (IH _ (tabulated_set e d Hd)) as [Ht Hk]. split; [exact Ht|].
  now rewrite Hk, dict_keys_set.
Qed.

Lemma validate_recipients_distinct (rs : list pystr) :
  validate_recipients rs
  = map (fun e => (e, validate_email e)) (distinct rs).
Proof.
  destruct (validate_fold rs [] eq_refl) as [Ht Hk].
  unfold validate_recipients, distinct. simpl in Hk. now rewrite <- Hk.
Qed.

Lemma valid_of_tabulated (f : pystr -> bool) (ds : list pystr) :
  map fst (filter (fun kv : pystr * bool => snd kv)
             (map (fun e => (e, f e)) ds)) = filter f ds.
Proof.
  induction ds as [|e ds IH]; simpl; [reflexivity|].
  destruct (f e); simpl; now rewrite IH.
Qed.

Lemma invalid_of_tabulated (f : pystr -> bool) (ds : list pystr) :
  map fst (filter (fun kv : pystr * bool => negb (snd kv))
             (map (fun e => (e, f e)) ds))
  = filter (fun e => negb (f e)) ds.
Proof.
  induction ds as [|e ds IH]; simpl; [reflexivity|].
  destruct (f e); simpl; now rewrite IH.
Qed.

Lemma filter_split_length {A : Type} (f : A -> bool) (l : list A) :
  length (filter f l) + length (filter (fun x => negb (f x)) l) = length l.
Proof.
  induction l as [|x l IH]; simpl; [reflexivity|].
  destruct (f x); simpl; lia.
Qed.

Lemma values_combine {A B : Type} (l : list A) (bs : list B) :
  length bs = length l -> map snd (combine l bs) = bs.
Proof.
  revert bs; induction l as [|x l IH]; intros [|b bs]; simpl;
    try discriminate; [reflexivity|].
  intros E. f_equal. apply IH. lia.
Qed.

Lemma count_true_le (bs : list bool) : count_true bs <= length bs.
Proof. apply filter_length_le. Qed.

Lemma relay_run_length (self : EmailSender) (ms : list message)
  (box : outbox) : length (relay_run self box ms) = length ms.
Proof.
  revert box; induction ms as [|m ms IH]; intros box; simpl;
    [reflexivity|now rewrite IH].
Qed.

(** The loop of [send_to_multiple_recipients] over recipients that are
    distinct and new to the results: one message each, in order, whatever
    the relay answered to the ones before. *)
Lemma send_fold (self : EmailSender) (blog_post : pydict pystr)
  (subject_prefix : pystr) (rs : list pystr) :
  forall (results : pydict bool) (box : outbox),
    NoDup rs ->
    (forall r, In r rs -> ~ In r (dict_keys results)) ->
    exists sent,
      fold_left (send_one self blog_post subject_prefix None) rs
        (results, box)
      = (results ++ combine rs (relay_run self box sent), box ++ sent)
      /\ map msg_to sent = rs.
Proof.
  induction rs as [|r rs IH]; intros results box Hnd Hnew.
  - exists []. simpl. now rewrite !app_nil_r.
  - inversion Hnd as [|? ? Hr Hnd']; subst. simpl.
    rewrite dict_set_fresh by (apply Hnew; now left).
    match goal with
    | |- context [box ++ [?m]] => set (m0 := m)
    end.
    destruct (IH (results ++ [(r, relay_accepts self box m0)]) (box ++ [m0])
                Hnd') as (sent & E & Hto).
    { intros r' Hr'. unfold dict_keys. rewrite map_app, in_app_iff. simpl.
      intros [Hin|[<-|[]]]; [|tauto].
      apply (Hnew r'); [now right|exact Hin]. }
    exists (m0 :: sent). split; [|simpl; now rewrite Hto].
    rewrite E. simpl. now rewrite <- !app_assoc.
Qed.

Lemma send_to_distinct (self : EmailSender) (box : outbox)
  (blog_post : pydict pystr) (rs : list pystr) (subject_prefix : pystr) :
  NoDup rs ->
  exists sent,
    send_to_multiple_recipients self box blog_post rs subject_prefix None
    = (combine rs (relay_run self box sent), box ++ sent)
    /\ map msg_to sent = rs.
Proof.
  intros Hnd.
  destruct (send_fold self blog_post subject_prefix rs [] box Hnd)
    as (sent & E & Hto); [intros ? _ []|].
  exists sent. now split.
Qed.

(** What [send_batch_with_validation] returns and leaves in the outbox. *)
Lemma send_batch_spec (self : EmailSender) (box : outbox)
  (blog_post : pydict pystr) (rs : list pystr) (subject_prefix : pystr)
  (skip_invalid : bool) :
  let valid := filter validate_email (distinct rs) in
  let invalid := filter (fun e => negb (validate_email e)) (distinct rs) in
  let out :=
    send_batch_with_validation self box blog_post rs subject_prefix
      skip_invalid in
  validation (fst out) = map (fun e => (e, validate_email e)) (distinct rs)
  /\ total_recipients (summary (fst out)) = length rs
  /\ valid_emails (summary (fst out)) = length valid
  /\ invalid_emails (summary (fst out)) = length invalid
  /\ (skip_invalid = false -> invalid <> [] ->
      snd out = box /\ error (fst out) = Some invalid
      /\ sending (fst out) = []
      /\ emails_sent (summary (fst out)) = 0
      /\ emails_failed (summary (fst out)) = 0)
  /\ (skip_invalid = true \/ invalid = [] ->
      exists sent,
        snd out = box ++ sent /\ map msg_to sent = valid
        /\ sending (fst out) = combine valid (relay_run self box sent)
        /\ error (fst out) = None
        /\ emails_sent (summary (fst out))
           = count_true (relay_run self box sent)
        /\ emails_sent (summary (fst out))
           + emails_failed (summary (fst out)) = length valid).
Proof.
  intros valid invalid out.
  assert (Hnd : NoDup valid) by apply NoDup_filter, distinct_NoDup.
  destruct (send_to_distinct self box blog_post valid subject_prefix Hnd)
    as (sent & Esend & Hto).
  assert (Hlen : length sent = length valid)
    by (now rewrite <- Hto, length_map).
  unfold out, send_batch_with_validation.
  rewrite validate_recipients_distinct, valid_of_tabulated,
    invalid_of_tabulated.
  fold valid invalid. rewrite Esend.
  assert (Hcount : forall bs : list bool,
             length bs = length valid ->
             count_true (dict_values (combine valid bs)) = count_true bs
             /\ count_true bs + (length (combine valid bs) - count_true bs)
                = length valid).
  { intros bs Hbs. unfold dict_values.
    rewrite length_combine, Hbs, Nat.min_id.
    pose proof (count_true_le bs) as Hle. split; [|lia].
    now rewrite values_combine. }
  specialize (Hcount _ (eq_trans (relay_run_length self sent box) Hlen)).
  destruct Hcount as [Hc1 Hc2].
  assert (Hsend : valid <> [] \/ (valid = [] /\ sent = [])).
  { destruct valid; [right|left; discriminate].
    split; [reflexivity|now destruct sent]. }
  clearbody valid invalid. clear Esend Hnd out.
  split; [now destruct invalid, skip_invalid, valid|].
  split; [now destruct invalid, skip_invalid, valid|].
  split; [now destruct invalid, skip_invalid, valid|].
  split; [now destruct invalid, skip_invalid, valid|].
  split.
  - intros -> Hi. destruct invalid; [congruence|]. simpl. now repeat split.
  - intros Hskip. exists sent.
    assert (Hgo : match invalid, skip_invalid with
                  | _ :: _, false => False
                  | _, _ => True
                  end).
    { destruct Hskip as [->| ->]; [now destruct invalid|exact I]. }
    clear Hskip. destruct Hsend as [Hv|[-> ->]].
    + destruct invalid, skip_invalid, valid; try contradiction;
        try congruence; cbn [fst snd sending summary error emails_sent
                               emails_failed];
        rewrite ?Hc1; now repeat split.
    + destruct invalid, skip_invalid; try contradiction; simpl;
        rewrite ?app_nil_r; now repeat split.
Qed.

End Batch.

Lemma keys_combine {A B : Type} (l : list A) (bs : list B) :
  length bs = length l -> map fst (combine l bs) = l.
Proof.
  revert bs; induction l as [|x l IH]; intros [|b bs]; simpl;
    try discriminate; [reflexivity|].
  intros E. f_equal. apply IH. lia.
Qed.





(** ** The matcher *)

Section Matcher.

Context {U : Unicode}.

Lemma extends_refl (p : pos) : extends p p.
Proof. now exists []. Qed.

Lemma extends_trans (p q r : pos) : extends p q -> extends q r -> extends p r.
Proof.
  intros (c1 & E1 & F1) (c2 & E2 & F2). exists (c1 ++ c2).
  rewrite E1, E2, F2, F1, rev_app_distr, <- !app_assoc. now split.
Qed.

Lemma extends_incl (p q : pos) : extends p q -> incl (snd q) (snd p).
Proof. intros (c & -> & _). now apply incl_appr. Qed.

Lemma extends_length (p q : pos) :
  extends p q -> length (snd q) <= length (snd p).
Proof. intros (c & -> & _). rewrite length_app. lia. Qed.

Lemma between_incl (p q : pos) : incl (between p q) (snd p).
Proof.
  unfold between. intros x Hx.
  rewrite <- (firstn_skipn (length (snd p) - length (snd q)) (snd p)).
  apply in_or_app. now left.
Qed.

Lemma sound_here (p : pos) : sound p (p, []).
Proof. split; [apply extends_refl|constructor]. Qed.

Lemma sound_seq (p q q' : pos) (g g' : list pystr) :
  sound p (q, g) -> sound q (q', g') -> sound p (q', g ++ g').
Proof.
  intros [Hq Hg] [Hq' Hg']. split; simpl in *.
  - now apply extends_trans with q.
  - apply Forall_app. split; [assumption|].
    apply Forall_impl with (2 := Hg'). intros x Hx.
    apply incl_tran with (1 := Hx). now apply extends_incl.
Qed.

Lemma star_loop_sound (m : pos -> list result) :
  (forall p, Forall (sound p) (m p)) ->
  forall fuel p, Forall (sound p) (star_loop m fuel p).
Proof.
  intros Hm. induction fuel as [|fuel IH]; intros p; simpl.
  - repeat constructor. apply sound_here.
  - apply Forall_app. split; [|repeat constructor; apply sound_here].
    apply Forall_forall. intros [q' g'] Hin.
    apply in_flat_map in Hin. destruct Hin as ([q g] & Hqg & Hin).
    destruct (Nat.ltb _ _); [|contradiction].
    apply in_map_iff in Hin. destruct Hin as ([q2 g2] & E & Hin).
    injection E as <- <-.
    apply sound_seq with q.
    + specialize (Hm p). rewrite Forall_forall in Hm. now apply Hm.
    + specialize (IH q). rewrite Forall_forall in IH. now apply IH.
Qed.

(** Every match ends at a later position of the same subject and captures
    text of the subject. *)
Lemma matches_sound (r : regex) : forall p, Forall (sound p) (matches r p).
Proof.
  induction r as [|f|r1 IH1 r2 IH2|r1 IH1|r1 IH1|ml| | |f]; intros p;
    cbn [matches].
  - repeat constructor. apply sound_here.
  - destruct p as [b [|c a]]; simpl; [constructor|].
    destruct (f c); repeat constructor.
    exists [c]. now split.
  - apply Forall_forall. intros [q' g'] Hin.
    apply in_flat_map in Hin. destruct Hin as ([q g] & Hqg & Hin).
    apply in_map_iff in Hin. destruct Hin as ([q2 g2] & E & Hin).
    injection E as <- <-.
    apply sound_seq with q.
    + specialize (IH1 p). rewrite Forall_forall in IH1. now apply IH1.
    + specialize (IH2 q). rewrite Forall_forall in IH2. now apply IH2.
  - now apply star_loop_sound.
  - apply Forall_forall. intros [q' g'] Hin.
    apply in_map_iff in Hin. destruct Hin as ([q g] & E & Hin).
    injection E as <- <-.
    specialize (IH1 p). rewrite Forall_forall in IH1.
    destruct (IH1 _ Hin) as [Hq Hg]. split; [exact Hq|].
    constructor; [apply between_incl|exact Hg].
  - destruct (fst p) as [|c b]; [repeat constructor; apply sound_here|].
    destruct (ml && N.eqb c NL); repeat constructor. apply sound_here.
  - destruct (snd p) as [|c [|c' a]]; repeat constructor;
      try apply sound_here.
    destruct (N.eqb c NL); repeat constructor. apply sound_here.
  - destruct (xorb _ _); repeat constructor. apply sound_here.
  - destruct (fst p) as [|c b]; [repeat constructor; apply sound_here|].
    destruct (f c); repeat constructor. apply sound_here.
Qed.

Lemma matches_head_sound (r : regex) (p q : pos) (g : list pystr)
  (rest : list result) :
  matches r p = (q, g) :: rest -> sound p (q, g).
Proof.
  intros E. pose proof (matches_sound r p) as H. rewrite E in H.
  now inversion H.
Qed.

Lemma expand_incl (tpl : list piece) (g : list pystr) (s : pystr) :
  Forall (fun x => incl x s) g -> incl (expand tpl g) (literals tpl ++ s).
Proof.
  intros Hg x Hx. unfold expand in Hx. apply in_flat_map in Hx.
  destruct Hx as ([c|n] & Hin & Hx); apply in_or_app.
  - left. unfold literals. apply in_flat_map. now exists (Lit c).
  - right. rewrite Forall_forall in Hg.
    destruct (nth_in_or_default (n - 1) g []) as [Hn|Hn].
    + now apply (Hg _ Hn).
    + now rewrite Hn in Hx.
Qed.

(** A substitution writes only characters of its subject and literal
    characters of its template. *)
Lemma sub_go_incl (r : regex) (tpl : list piece) (fuel : nat) :
  forall p, incl (sub_go r tpl fuel p) (literals tpl ++ snd p).
Proof.
  induction fuel as [|fuel IH]; intros p; simpl; [intros x []|].
  assert (Hcopy : incl match snd p with
                       | [] => []
                       | c :: a => c :: sub_go r tpl fuel (c :: fst p, a)
                       end (literals tpl ++ snd p)).
  { destruct (snd p) as [|c a] eqn:Ep; [intros x []|].
    intros x [<-|Hx]; [apply in_or_app; right; now left|].
    apply IH in Hx. simpl in Hx. apply in_app_or in Hx.
    apply in_or_app. destruct Hx; [now left|right; now right]. }
  destruct (matches r p) as [|[q g] rest] eqn:Em; [exact Hcopy|].
  destruct (matches_head_sound r p q g rest Em) as [Hq Hg].
  simpl in Hq, Hg.
  assert (He := expand_incl tpl g (snd p) Hg).
  destruct (Nat.ltb _ _).
  - apply incl_app; [exact He|].
    intros x Hx. apply IH in Hx. apply in_app_or in Hx.
    apply in_or_app. destruct Hx as [Hx|Hx]; [now left|right].
    now apply (extends_incl p q Hq).
  - now apply incl_app.
Qed.

Lemma sub_incl (r : regex) (tpl : list piece) (s : pystr) :
  incl (sub r tpl s) (literals tpl ++ s).
Proof. apply (sub_go_incl r tpl (S (length s)) ([], s)). Qed.

End Matcher.

(** ** Patterns of one class *)

Lemma take_drop_while (f : N -> bool) (s : pystr) :
  take_while f s ++ drop_while f s = s.
Proof.
  induction s as [|c s IH]; simpl; [reflexivity|].
  destruct (f c); simpl; [now rewrite IH|reflexivity].
Qed.

Lemma drop_while_length (f : N -> bool) (s : pystr) :
  length (drop_while f s) <= length s.
Proof.
  induction s as [|c s IH]; simpl; [lia|]. destruct (f c); simpl; lia.
Qed.

Lemma take_while_all (f : N -> bool) (s : pystr) :
  Forall (fun c => f c = true) (take_while f s).
Proof.
  induction s as [|c s IH]; simpl; [constructor|].
  destruct (f c) eqn:E; now constructor.
Qed.

Lemma filter_drop_while (f : N -> bool) (s : pystr) :
  filter (fun c => negb (f c)) (drop_while f s)
  = filter (fun c => negb (f c)) s.
Proof.
  induction s as [|c s IH]; simpl; [reflexivity|].
  destruct (f c) eqn:E; simpl; [exact IH|now rewrite E].
Qed.

Section OneClass.

Context {U : Unicode}.

Lemma ltb_tail {A : Type} (c : A) (a a' : list A) :
  length a' <= length a -> Nat.ltb (length a') (length (c :: a)) = true.
Proof. intros H. apply Nat.ltb_lt. simpl. lia. Qed.

(** The first way a class repeats: as far as it goes. *)
Lemma star_loop_cls_head (m : pos -> list result) (f : N -> bool) :
  (forall p, m p = matches (Cls f) p) ->
  forall (a : pystr) (fuel : nat) (b : pystr),
    length a < fuel ->
    exists rest,
      star_loop m fuel (b, a)
      = ((rev (take_while f a) ++ b, drop_while f a), []) :: rest.
Proof.
  intros Hm. induction a as [|c a IH]; intros [|fuel] b Hf; simpl in Hf;
    try lia; cbn [star_loop]; rewrite Hm; cbn [matches snd fst].
  - now exists [].
  - simpl take_while. simpl drop_while. destruct (f c) eqn:E.
    + destruct (IH fuel (c :: b)) as [rest Hr]; [lia|].
      cbn [flat_map snd]. rewrite (ltb_tail c a a) by lia.
      rewrite Hr. eexists. simpl.
      rewrite <- (app_assoc (rev (take_while f a)) [c] b). reflexivity.
    + now eexists.
Qed.

Lemma matches_star_cls (f : N -> bool) (b a : pystr) :
  exists rest,
    matches (Star (Cls f)) (b, a)
    = ((rev (take_while f a) ++ b, drop_while f a), []) :: rest.
Proof. apply star_loop_cls_head; [reflexivity|simpl; lia]. Qed.

Lemma matches_seq_nil (r1 r2 : regex) (p : pos) :
  matches r1 p = [] -> matches (Seq r1 r2) p = [].
Proof. intros E. cbn [matches]. now rewrite E. Qed.

Lemma matches_seq_one (r1 r2 : regex) (p q : pos) (g : list pystr) :
  matches r1 p = [(q, g)] ->
  matches (Seq r1 r2) p
  = map (fun '(q', g') => (q', g ++ g')) (matches r2 q).
Proof. intros E. cbn [matches]. rewrite E. simpl. apply app_nil_r. Qed.

Lemma matches_seq_head (r1 r2 : regex) (p q q' : pos) (g g' : list pystr)
  (rest1 rest2 : list result) :
  matches r1 p = (q, g) :: rest1 ->
  matches r2 q = (q', g') :: rest2 ->
  exists rest, matches (Seq r1 r2) p = (q', g ++ g') :: rest.
Proof.
  intros E1 E2. cbn [matches]. rewrite E1. cbn [flat_map]. rewrite E2.
  simpl. now eexists.
Qed.

Lemma matches_cls (f : N -> bool) (b : pystr) (c : N) (a : pystr) :
  matches (Cls f) (b, c :: a) = if f c then [((c :: b, a), [])] else [].
Proof. reflexivity. Qed.

Lemma matches_plus_cls (f : N -> bool) (b : pystr) (c : N) (a : pystr) :
  f c = true ->
  exists rest,
    matches (Plus (Cls f)) (b, c :: a)
    = ((rev (take_while f a) ++ c :: b, drop_while f a), []) :: rest.
Proof.
  intros E. destruct (matches_star_cls f (c :: b) a) as [rest Hr].
  unfold Plus. rewrite (matches_seq_one (Cls f) (Star (Cls f)) (b, c :: a)
                          (c :: b, a) [])
    by (now rewrite matches_cls, E).
  rewrite Hr. simpl. now eexists.
Qed.

Lemma matches_plus_cls_none (f : N -> bool) (b a : pystr) :
  match a with c :: _ => f c = false | [] => True end ->
  matches (Plus (Cls f)) (b, a) = [].
Proof.
  intros H. apply matches_seq_nil. destruct a as [|c a]; [reflexivity|].
  now rewrite matches_cls, H.
Qed.

Lemma sub_go_S (r : regex) (tpl : list piece) (fuel : nat) (p : pos) :
  sub_go r tpl (S fuel) p
  = match matches r p with
    | (q, g) :: _ =>
        if Nat.ltb (length (snd q)) (length (snd p))
        then expand tpl g ++ sub_go r tpl fuel q
        else expand tpl g ++
             match snd p with
             | c :: a => c :: sub_go r tpl fuel (c :: fst p, a)
             | [] => []
             end
    | [] =>
        match snd p with
        | c :: a => c :: sub_go r tpl fuel (c :: fst p, a)
        | [] => []
        end
    end.
Proof. reflexivity. Qed.

(** Removing the characters of a class, one at a time or in runs. *)
Lemma sub_go_cls (f : N -> bool) (a : pystr) :
  forall (fuel : nat) (b : pystr),
    length a < fuel ->
    sub_go (Cls f) [] fuel (b, a) = filter (fun c => negb (f c)) a.
Proof.
  induction a as [|c a IH]; intros [|fuel] b Hf; simpl in Hf; try lia.
  - reflexivity.
  - rewrite sub_go_S, matches_cls. cbn [filter].
    destruct (f c) eqn:E; cbn [snd fst negb].
    + rewrite (ltb_tail c a a) by lia. simpl. apply IH. lia.
    + f_equal. apply IH. lia.
Qed.

Lemma sub_cls (f : N -> bool) (s : pystr) :
  sub (Cls f) [] s = filter (fun c => negb (f c)) s.
Proof. apply sub_go_cls. lia. Qed.

Lemma sub_go_plus_cls (f : N -> bool) (fuel : nat) :
  forall (b a : pystr),
    length a < fuel ->
    sub_go (Plus (Cls f)) [] fuel (b, a) = filter (fun c => negb (f c)) a.
Proof.
  induction fuel as [|fuel IH]; intros b a Hf; [lia|].
  rewrite sub_go_S. destruct a as [|c a].
  - now rewrite matches_plus_cls_none.
  - simpl in Hf. destruct (f c) eqn:E.
    + destruct (matches_plus_cls f b c a E) as [rest ->].
      pose proof (drop_while_length f a) as Hd.
      cbn [snd]. rewrite (ltb_tail c a _ Hd). cbn [expand flat_map app].
      rewrite IH by lia. simpl. now rewrite E, filter_drop_while.
    + rewrite matches_plus_cls_none by exact E. simpl. rewrite E. simpl.
      f_equal. apply IH. lia.
Qed.

Lemma sub_plus_cls (f : N -> bool) (s : pystr) :
  sub (Plus (Cls f)) [] s = filter (fun c => negb (f c)) s.
Proof. apply sub_go_plus_cls. lia. Qed.

End OneClass.

(** ** Stripping *)

Lemma lstrip_incl (s : pystr) : incl (lstrip s) s.
Proof.
  induction s as [|c s IH]; simpl; [apply incl_refl|].
  destruct (isspace c); [now apply incl_tl|apply incl_refl].
Qed.

Lemma strip_incl (s : pystr) : incl (strip s) s.
Proof.
  unfold strip, rstrip. intros x Hx. apply lstrip_incl.
  apply in_rev in Hx. apply lstrip_incl in Hx. now apply in_rev in Hx.
Qed.

(** ** The sanitizer, field by field *)

Section Sanitizer.

Context {U : Unicode}.

(** Each field is cleaned on its own, and only when it is not empty. *)
Lemma clean_content_fields (d : blog_data) :
  title (_clean_content d) = clean_title (title d)
  /\ content (_clean_content d) = clean_body (content d)
  /\ hashtags (_clean_content d) = clean_hashtags (hashtags d)
  /\ call_to_action (_clean_content d)
     = clean_call_to_action (call_to_action d)
  /\ full_post (_clean_content d) = full_post d.
Proof.
  destruct d as [t c h a f]. unfold _clean_content.
  destruct t, c, h, a;
    cbn [truthy title content hashtags call_to_action full_post];
    repeat split; reflexivity.
Qed.

Lemma one_of_false (cs : list N) (c : N) : one_of cs c = false -> ~ In c cs.
Proof.
  unfold one_of. intros E Hin.
  assert (existsb (N.eqb c) cs = true); [|congruence].
  apply existsb_exists. exists c. split; [assumption|apply N.eqb_refl].
Qed.

Lemma kept_not_star (c : N) (s : pystr) :
  In c (sub re_stars [] s) -> c <> STAR /\ In c s.
Proof.
  unfold re_stars, Chr. rewrite sub_plus_cls, filter_In.
  intros [Hin E]. split; [|exact Hin].
  intros ->. now rewrite N.eqb_refl in E.
Qed.

Lemma kept_not_symbol (cs : list N) (c : N) (s : pystr) :
  In c (sub (Cls (one_of cs)) [] s) -> ~ In c cs /\ In c s.
Proof.
  rewrite sub_cls, filter_In. intros [Hin E]. split; [|exact Hin].
  apply one_of_false. now destruct (one_of cs c).
Qed.

Lemma clean_title_plain (s : pystr) :
  Forall (plain title_symbols) (clean_title s).
Proof.
  apply Forall_forall. intros c Hc. unfold clean_title in Hc.
  apply strip_incl, kept_not_symbol in Hc. destruct Hc as [Hsym Hc].
  apply kept_not_star in Hc. now split.
Qed.

Lemma clean_call_to_action_plain (s : pystr) :
  Forall (plain title_symbols) (clean_call_to_action s).
Proof.
  apply Forall_forall. intros c Hc. unfold clean_call_to_action in Hc.
  apply strip_incl, kept_not_star in Hc. destruct Hc as [Hstar Hc].
  apply kept_not_symbol in Hc. now split.
Qed.

Lemma line_feed_plain : plain content_symbols NL.
Proof.
  split; [discriminate|]. now apply one_of_false.
Qed.

Lemma sub_delete_incl (r : regex) (s : pystr) : incl (sub r [] s) s.
Proof. exact (sub_incl r [] s). Qed.

Lemma sub_two_incl (r : regex) (a b : N) (s : pystr) :
  incl (sub r [Lit a; Lit b] s) (a :: b :: s).
Proof. exact (sub_incl r [Lit a; Lit b] s). Qed.

Lemma clean_body_plain (s : pystr) :
  Forall (plain content_symbols) (clean_body s).
Proof.
  unfold clean_body.
  apply (incl_Forall (strip_incl _)).
  apply (incl_Forall (sub_delete_incl re_dash _)).
  apply (incl_Forall (sub_delete_incl re_bullet _)).
  apply (incl_Forall (sub_two_incl re_blank_lines NL NL _)).
  constructor; [apply line_feed_plain|].
  constructor; [apply line_feed_plain|].
  apply Forall_forall. intros c Hc.
  apply (kept_not_symbol content_symbols) in Hc. destruct Hc as [Hsym Hc].
  apply kept_not_star in Hc. destruct Hc as [Hstar _]. now split.
Qed.

End Sanitizer.

(** C7.  After sanitizing, the title, the content and the call to action
    hold no asterisk and none of the symbols removed from them: the title and
    the call to action none of [title_symbols], the content none of
    [content_symbols]; the symbols removed from the content include those
    removed from the other two. *)
Theorem sanitized_fields_are_plain :
  forall {U : Unicode} (d : blog_data),
    Forall (plain title_symbols) (title (_clean_content d))
    /\ Forall (plain content_symbols) (content (_clean_content d))
    /\ Forall (plain title_symbols) (call_to_action (_clean_content d))
    /\ incl title_symbols content_symbols.
Proof.
  intros U d.
  destruct (clean_content_fields d) as (-> & -> & _ & -> & _).
  split; [apply clean_title_plain|].
  split; [apply clean_body_plain|].
  split; [apply clean_call_to_action_plain|].
  unfold content_symbols. now apply incl_appl.
Qed.

(** The title and the call to action keep a symbol that only the list of
    the content holds; the content loses it. *)
Lemma content_symbol_stays_in_title :
  title (_clean_content (U := ascii_tables)
           {| title := 0x1F30D%N :: py " Earth"; content := [];
              hashtags := []; call_to_action := []; full_post := [] |})
  = 0x1F30D%N :: py " Earth"
  /\ call_to_action
       (_clean_content (U := ascii_tables)
          {| title := []; content := []; hashtags := [];
             call_to_action := 0x1F30D%N :: py " Earth";
             full_post := [] |})
     = 0x1F30D%N :: py " Earth"
  /\ content (_clean_content (U := ascii_tables)
                (content_only (0x1F30D%N :: py " Earth")))
     = py "Earth"
  /\ one_of content_symbols 0x1F30D%N = true
  /\ one_of title_symbols 0x1F30D%N = false.
Proof. repeat split; vm_compute; reflexivity. Qed.

(** ** Trimming *)

Lemma lstrip_all_space (s : pystr) : all_space s = true -> lstrip s = [].
Proof.
  induction s as [|c s IH]; simpl; [reflexivity|].
  destruct (isspace c); [exact IH|discriminate].
Qed.

Lemma lstrip_app (x y : pystr) :
  lstrip (x ++ y) = if all_space x then lstrip y else lstrip x ++ y.
Proof.
  induction x as [|c x IH]; simpl; [reflexivity|].
  destruct (isspace c); [exact IH|reflexivity].
Qed.

Lemma all_space_rev (s : pystr) : all_space (rev s) = all_space s.
Proof.
  unfold all_space. induction s as [|c s IH]; simpl; [reflexivity|].
  rewrite forallb_app, IH. simpl. rewrite andb_true_r. apply andb_comm.
Qed.

Lemma rstrip_app (x y : pystr) :
  rstrip (x ++ y) = if all_space y then rstrip x else x ++ rstrip y.
Proof.
  unfold rstrip. rewrite rev_app_distr, lstrip_app, all_space_rev.
  destruct (all_space y); [reflexivity|].
  now rewrite rev_app_distr, rev_involutive.
Qed.

Lemma rstrip_all_space (s : pystr) : all_space s = true -> rstrip s = [].
Proof.
  intros H. unfold rstrip. rewrite lstrip_all_space; [reflexivity|].
  now rewrite all_space_rev.
Qed.

Lemma rstrip_cons (c : N) (s : pystr) :
  rstrip (c :: s)
  = if isspace c && all_space s then [] else c :: rstrip s.
Proof.
  change (c :: s) with ([c] ++ s). rewrite rstrip_app.
  destruct (all_space s) eqn:Es; [|now rewrite andb_false_r].
  rewrite andb_true_r, (rstrip_all_space s Es). unfold rstrip. simpl.
  now destruct (isspace c).
Qed.

Lemma lstrip_rstrip (s : pystr) : lstrip (rstrip s) = rstrip (lstrip s).
Proof.
  induction s as [|c s IH]; [reflexivity|].
  rewrite rstrip_cons. simpl. destruct (isspace c) eqn:E; simpl.
  - destruct (all_space s) eqn:Es.
    + now rewrite (lstrip_all_space s Es).
    + simpl. now rewrite E.
  - now rewrite rstrip_cons, E.
Qed.

Lemma lstrip_idem (s : pystr) : lstrip (lstrip s) = lstrip s.
Proof.
  induction s as [|c s IH]; simpl; [reflexivity|].
  destruct (isspace c) eqn:E; [exact IH|]. simpl. now rewrite E.
Qed.

Lemma rstrip_idem (s : pystr) : rstrip (rstrip s) = rstrip s.
Proof. unfold rstrip. now rewrite rev_involutive, lstrip_idem. Qed.

Lemma strip_idem (s : pystr) : strip (strip s) = strip s.
Proof.
  unfold strip. now rewrite lstrip_rstrip, lstrip_idem, rstrip_idem.
Qed.

Lemma strip_rstrip (s : pystr) : strip (rstrip s) = strip s.
Proof. unfold strip. now rewrite lstrip_rstrip, rstrip_idem. Qed.

Lemma rstrip_prefix (s : pystr) :
  exists ws, s = rstrip s ++ ws /\ all_space ws = true.
Proof.
  induction s as [|c s (ws & IH & Hws)]; [now exists []|].
  rewrite rstrip_cons. destruct (isspace c && all_space s) eqn:E.
  - exists (c :: s). split; [reflexivity|].
    apply andb_true_iff in E. simpl. now rewrite (proj1 E), (proj2 E).
  - exists ws. split; [|exact Hws]. simpl. now rewrite <- IH.
Qed.

(** ** Replacing and splitting *)

Lemma replace_go_skip (old new x y : pystr) :
  replace_go old new (length x) (x ++ y) = replace_go old new 0 y.
Proof.
  induction x as [|c x IH]; simpl; [|exact IH].
  destruct y; reflexivity.
Qed.

Lemma replace_absent (old new s : pystr) :
  contains old s = false -> replace old new s = s.
Proof.
  unfold replace. induction s as [|c s IH]; simpl; [reflexivity|].
  rewrite orb_false_iff. intros [-> Hs]. now rewrite IH.
Qed.

Lemma replace_leading (old s : pystr) :
  old <> [] -> contains old s = false -> replace old [] (old ++ s) = s.
Proof.
  intros Hold Hs. destruct old as [|c old]; [congruence|].
  unfold replace. cbn [app replace_go].
  change (startswith (c :: old) (c :: old ++ s))
    with (startswith (c :: old) ((c :: old) ++ s)).
  rewrite startswith_app. cbn [app].
  replace (length (c :: old) - 1) with (length old) by (simpl; lia).
  rewrite replace_go_skip. now apply replace_absent.
Qed.

Lemma contains_prefix (p x y : pystr) :
  contains p (x ++ y) = false -> contains p x = false.
Proof.
  rewrite !contains_absent. intros H (b & a & ->). apply H.
  exists b, (a ++ y). now rewrite <- !app_assoc.
Qed.

Lemma split_lines_line (l : pystr) :
  existsb (N.eqb NL) l = false -> split_lines l = [l].
Proof.
  induction l as [|c l IH]; cbn [split_lines existsb app]; [reflexivity|].
  rewrite orb_false_iff. intros [Hc Hl].
  rewrite N.eqb_sym in Hc. now rewrite Hc, IH.
Qed.

Lemma split_lines_cons (l : pystr) (s : pystr) :
  existsb (N.eqb NL) l = false ->
  split_lines (l ++ NL :: s) = l :: split_lines s.
Proof.
  induction l as [|c l IH]; cbn [split_lines existsb app]; [reflexivity|].
  rewrite orb_false_iff. intros [Hc Hl].
  rewrite N.eqb_sym in Hc. now rewrite Hc, IH.
Qed.

Lemma split_join_lines (ls : list pystr) :
  ls <> [] -> forallb (fun l => negb (existsb (N.eqb NL) l)) ls = true ->
  split_lines (join_lines ls) = ls.
Proof.
  induction ls as [|l ls IH]; [congruence|]. intros _. simpl forallb.
  rewrite andb_true_iff, negb_true_iff. intros [Hl Hls].
  destruct ls as [|l' ls]; [now apply split_lines_line|].
  change (join_lines (l :: l' :: ls)) with (l ++ NL :: join_lines (l' :: ls)).
  rewrite split_lines_cons by exact Hl. f_equal. now apply IH.
Qed.

(** ** The parser *)

Lemma label_not_empty (k : section) : label k <> [].
Proof. destruct k; discriminate. Qed.

Lemma startswith_label (j k : section) (y : pystr) :
  startswith (label j) (label k ++ y)
  = match j, k with
    | sec_title, sec_title | sec_content, sec_content
    | sec_hashtags, sec_hashtags
    | sec_call_to_action, sec_call_to_action => true
    | _, _ => false
    end.
Proof. destruct j, k; reflexivity. Qed.

Lemma strip_label (k : section) (first : pystr) :
  strip (label k ++ first) = label k ++ rstrip first.
Proof.
  unfold strip.
  assert (Hl : lstrip (label k ++ first) = label k ++ first)
    by (destruct k; reflexivity).
  rewrite Hl, rstrip_app. destruct (all_space first) eqn:E; [|reflexivity].
  rewrite (rstrip_all_space first E), app_nil_r. destruct k; reflexivity.
Qed.

Lemma get_set_section (k : section) (v : pystr) (d : blog_data) :
  get_section k (set_section k v d) = v.
Proof. destruct k; reflexivity. Qed.

Lemma set_set_section (k : section) (v w : pystr) (d : blog_data) :
  set_section k w (set_section k v d) = set_section k w d.
Proof. destruct k; reflexivity. Qed.

Lemma set_get_section (k : section) (d : blog_data) :
  set_section k (get_section k d) d = d.
Proof. destruct k, d; reflexivity. Qed.

(** The line that opens a section. *)
Lemma parse_opening_line (k : section) (first : pystr)
  (cur : option section) (d : blog_data) :
  contains (label k) first = false ->
  parse_line (cur, d) (label k ++ first)
  = (Some k, set_section k (strip first) d).
Proof.
  intros Hf. unfold parse_line. rewrite strip_label, !startswith_label.
  assert (Hv : strip (replace (label k) [] (label k ++ rstrip first))
               = strip first).
  { rewrite replace_leading.
    - apply strip_rstrip.
    - apply label_not_empty.
    - destruct (rstrip_prefix first) as (ws & E & _). rewrite E in Hf.
      now apply contains_prefix in Hf. }
  destruct k; unfold open_section; now rewrite Hv.
Qed.

(** A line that opens nothing. *)
Lemma parse_unlabelled_line (l : pystr) (cur : option section)
  (d : blog_data) :
  unlabelled l = true ->
  parse_line (cur, d) l
  = match cur with
    | Some k =>
        (cur, set_section k (continue_field (get_section k d) l) d)
    | None => (cur, d)
    end.
Proof.
  unfold unlabelled. rewrite andb_true_iff, negb_true_iff, negb_true_iff.
  rewrite !orb_false_iff. intros (_ & ((H1 & H2) & H3) & H4).
  unfold parse_line, continue_field. rewrite H1, H2, H3, H4.
  destruct cur as [k|]; [|reflexivity].
  destruct (truthy (strip l)); [|now rewrite set_get_section].
  now destruct (truthy (get_section k d)).
Qed.

Lemma parse_leading_lines (pre : list pystr) (d : blog_data) :
  forallb unlabelled pre = true ->
  fold_left parse_line pre (None, d) = (None, d).
Proof.
  induction pre as [|l pre IH]; cbn [fold_left forallb]; [reflexivity|].
  rewrite andb_true_iff. intros [Hl Hpre].
  rewrite (parse_unlabelled_line l None d Hl). now apply IH.
Qed.

Lemma parse_continuation (k : section) (more : list pystr) :
  forall d : blog_data,
    forallb unlabelled more = true ->
    fold_left parse_line more (Some k, d)
    = (Some k,
       set_section k (fold_left continue_field more (get_section k d)) d).
Proof.
  induction more as [|l more IH]; intros d; cbn [fold_left forallb].
  - now rewrite set_get_section.
  - rewrite andb_true_iff. intros [Hl Hmore].
    rewrite (parse_unlabelled_line l (Some k) d Hl), IH by exact Hmore.
    now rewrite get_set_section, set_set_section.
Qed.

Lemma join_lines_glue (v l : pystr) (rest : list pystr) :
  join_lines ((v ++ NL :: l) :: rest) = join_lines (v :: l :: rest).
Proof.
  destruct rest as [|r rest]; cbn [join_lines]; [reflexivity|].
  now rewrite <- app_assoc.
Qed.

Lemma continued_field (more : list pystr) :
  forall v : pystr,
    fold_left continue_field more v
    = join_lines (filter truthy (v :: map strip more)).
Proof.
  induction more as [|l more IH]; intros v.
  - destruct v; reflexivity.
  - cbn [fold_left map]. rewrite IH. unfold continue_field.
    cbn [filter]. destruct (truthy (strip l)) eqn:El.
    + destruct (truthy v) eqn:Ev.
      * assert (Ht : truthy (v ++ NL :: strip l) = true)
          by (now destruct v).
        rewrite Ht. apply join_lines_glue.
      * now rewrite El.
    + reflexivity.
Qed.

(** A whole section: the cursor moves to it and the field gets its body. *)
Lemma parse_block (k : section) (first : pystr) (more : list pystr)
  (cur : option section) (d : blog_data) :
  well_formed k first more = true ->
  fold_left parse_line (block k first more) (cur, d)
  = (Some k, set_section k (section_body first more) d).
Proof.
  unfold well_formed. rewrite !andb_true_iff, !negb_true_iff.
  intros [[_ Hf] Hmore]. unfold block. cbn [fold_left].
  rewrite parse_opening_line by exact Hf.
  rewrite parse_continuation by exact Hmore.
  now rewrite get_set_section, set_set_section, continued_field.
Qed.

Lemma parse_optional_block (k : section) (b : option (pystr * list pystr))
  (cur : option section) (d : blog_data) :
  optional_well_formed k b = true ->
  fold_left parse_line (optional_block k b) (cur, d)
  = match b with
    | Some _ => (Some k, set_section k (optional_body b) d)
    | None => (cur, d)
    end.
Proof.
  destruct b as [[first more]|]; [|reflexivity].
  cbn [optional_well_formed optional_block optional_body].
  apply parse_block.
Qed.

Lemma block_lines (k : section) (first : pystr) (more : list pystr) :
  well_formed k first more = true ->
  forallb (fun l => negb (existsb (N.eqb NL) l)) (block k first more) = true.
Proof.
  unfold well_formed, block. rewrite !andb_true_iff, !negb_true_iff.
  intros [[Hn _] Hmore]. cbn [forallb]. rewrite andb_true_iff. split.
  - rewrite existsb_app, Hn, orb_false_r. now destruct k.
  - rewrite forallb_forall in *. intros l Hl. specialize (Hmore l Hl).
    unfold unlabelled in Hmore. now apply andb_true_iff in Hmore.
Qed.

Lemma optional_block_lines (k : section) (b : option (pystr * list pystr)) :
  optional_well_formed k b = true ->
  forallb (fun l => negb (existsb (N.eqb NL) l)) (optional_block k b) = true.
Proof.
  destruct b as [[first more]|]; [apply block_lines|reflexivity].
Qed.

Lemma unlabelled_lines (ls : list pystr) :
  forallb unlabelled ls = true ->
  forallb (fun l => negb (existsb (N.eqb NL) l)) ls = true.
Proof.
  rewrite !forallb_forall. intros H l Hl. specialize (H l Hl).
  unfold unlabelled in H. now apply andb_true_iff in H.
Qed.

(** C5, as the code has it.  For a response made of unlabelled lines, a
    TITLE section, a CONTENT section and then, each present or not, a
    HASHTAGS and a CALL_TO_ACTION section, the parser returns the sanitizer's
    output on the record of the section bodies: each body is the section's
    lines trimmed, blank ones left out, joined by line feeds; a missing
    section gives the empty string; the leading lines are dropped. *)
Theorem parser_yields_sanitized_sections :
  forall {U : Unicode} (pre : list pystr) (t : pystr) (ts : list pystr)
         (c : pystr) (cs : list pystr) (h a : option (pystr * list pystr)),
    forallb unlabelled pre = true ->
    well_formed sec_title t ts = true ->
    well_formed sec_content c cs = true ->
    optional_well_formed sec_hashtags h = true ->
    optional_well_formed sec_call_to_action a = true ->
    let response_text :=
      join_lines
        (pre ++ block sec_title t ts ++ block sec_content c cs
           ++ optional_block sec_hashtags h
           ++ optional_block sec_call_to_action a) in
    _parse_blog_response response_text
    = _clean_content
        {| title := section_body t ts; content := section_body c cs;
           hashtags := optional_body h; call_to_action := optional_body a;
           full_post := response_text |}.
Proof.
  intros U pre t ts c cs h a Hpre Ht Hc Hh Ha response_text.
  unfold _parse_blog_response, parse_sections. f_equal.
  unfold response_text at 1. rewrite split_join_lines.
  - rewrite !fold_left_app.
    rewrite (parse_leading_lines pre _ Hpre).
    rewrite (parse_block sec_title t ts _ _ Ht).
    rewrite (parse_block sec_content c cs _ _ Hc).
    rewrite (parse_optional_block sec_hashtags h _ _ Hh).
    destruct h as [h'|];
      rewrite (parse_optional_block sec_call_to_action a _ _ Ha);
      destruct a as [a'|]; reflexivity.
  - unfold block. now destruct pre.
  - rewrite !forallb_app, (unlabelled_lines pre Hpre),
      (block_lines sec_title t ts Ht), (block_lines sec_content c cs Hc),
      (optional_block_lines sec_hashtags h Hh),
      (optional_block_lines sec_call_to_action a Ha).
    reflexivity.
Qed.

(** The sample response, with a HASHTAGS section and no call to action. *)
Lemma parser_sections_witness :
  _parse_blog_response (U := ascii_tables)
    (join_lines
       ([py "Here is your post:"]
          ++ block sec_title (py " **Big** News") []
          ++ block sec_content (py " First paragraph.")
               [[]; py "  Second paragraph."]
          ++ optional_block sec_hashtags (Some (py " ai ml", []))
          ++ optional_block sec_call_to_action None))
  = _clean_content (U := ascii_tables)
      {| title := section_body (py " **Big** News") [];
         content :=
           section_body (py " First paragraph.")
             [[]; py "  Second paragraph."];
         hashtags := optional_body (Some (py " ai ml", []));
         call_to_action := optional_body None;
         full_post :=
           join_lines
             ([py "Here is your post:"]
                ++ block sec_title (py " **Big** News") []
                ++ block sec_content (py " First paragraph.")
                     [[]; py "  Second paragraph."]
                ++ optional_block sec_hashtags (Some (py " ai ml", []))
                ++ optional_block sec_call_to_action None) |}.
Proof.
  apply (parser_yields_sanitized_sections (U := ascii_tables)
           [py "Here is your post:"] (py " **Big** News") []
           (py " First paragraph.") [[]; py "  Second paragraph."]
           (Some (py " ai ml", [])) None);
    reflexivity.
Defined.

(** C5 as stated fails: the parsed fields are not the section bodies
    themselves.  The title loses its asterisks, the blank line of the content
    is gone, and the hashtags gain their [#]. *)
Lemma parsed_fields_differ_from_section_bodies :
  title (_parse_blog_response (U := ascii_tables) sample_response)
  = py "Big News"
  /\ content (_parse_blog_response (U := ascii_tables) sample_response)
     = py "First paragraph." ++ NL :: py "Second paragraph."
  /\ hashtags (_parse_blog_response (U := ascii_tables) sample_response)
     = py "#ai #ml"
  /\ call_to_action (_parse_blog_response (U := ascii_tables) sample_response)
     = py "Tell me what you think"
  /\ pystr_eqb
       (title (_parse_blog_response (U := ascii_tables) sample_response))
       (py "**Big** News") = false.
Proof. repeat split; vm_compute; reflexivity. Qed.

(** ** The hashtag substitution *)

Ltac bool_to_prop :=
  repeat
    (rewrite ?andb_true_iff, ?orb_true_iff, ?andb_false_iff, ?orb_false_iff,
       ?negb_true_iff, ?negb_false_iff, ?N.leb_le, ?N.leb_gt, ?N.ltb_lt,
       ?N.ltb_ge, ?N.eqb_eq, ?N.eqb_neq in *).

Section Hashtags.

Context {U : Unicode}.

Lemma tag_char_is_word (c : N) : is_tag_char c = true -> is_word c = true.
Proof.
  intros H. unfold is_word.
  assert (Ha : is_ascii c = true).
  { unfold is_tag_char, is_alnum, is_alpha, is_upper, is_lower, is_digit,
      is_ascii in *. bool_to_prop. lia. }
  rewrite Ha. exact H.
Qed.

Lemma alpha_is_tag_char (c : N) : is_alpha c = true -> is_tag_char c = true.
Proof. unfold is_tag_char, is_alnum. now intros ->. Qed.

Lemma space_not_word (c : N) : isspace c = true -> is_word c = false.
Proof.
  intros H. unfold is_word. destruct (is_ascii c) eqn:Ha.
  - destruct (is_alnum c || (c =? 95)%N) eqn:E; [exfalso|reflexivity].
    unfold isspace, is_alnum, is_alpha, is_upper, is_lower, is_digit,
      is_ascii in *.
    bool_to_prop. lia.
  - now apply uni_space_not_alnum.
Qed.

Lemma space_not_hash (c : N) : isspace c = true -> N.eqb HASH c = false.
Proof.
  intros H. destruct (N.eqb HASH c) eqn:E; [|reflexivity].
  apply N.eqb_eq in E. subst c. discriminate.
Qed.

Lemma space_not_alpha (c : N) : isspace c = true -> is_alpha c = false.
Proof.
  intros H. destruct (is_alpha c) eqn:E; [|reflexivity].
  apply alpha_is_tag_char, tag_char_is_word in E.
  now rewrite space_not_word in E.
Qed.

Lemma matches_group (r : regex) (p : pos) :
  matches (Group r) p
  = map (fun '(q, g) => (q, between p q :: g)) (matches r p).
Proof. reflexivity. Qed.

Lemma firstn_take_while (f : N -> bool) (a : pystr) :
  firstn (length (take_while f a)) a = take_while f a.
Proof.
  induction a as [|x a IH]; simpl; [reflexivity|].
  destruct (f x); simpl; [now rewrite IH|reflexivity].
Qed.

Lemma between_run (f : N -> bool) (b b' : pystr) (c : N) (a : pystr) :
  between (b, c :: a) (b', drop_while f a) = c :: take_while f a.
Proof.
  unfold between. cbn [snd].
  assert (Hn : length (c :: a) - length (drop_while f a)
               = S (length (take_while f a))).
  { pose proof (f_equal (@length N) (take_drop_while f a)) as E.
    rewrite length_app in E. cbn [length]. lia. }
  rewrite Hn. cbn [firstn]. f_equal. apply firstn_take_while.
Qed.

(** Where a bare tag starts, the pattern takes the letter and the run of
    tag characters after it, and captures them. *)
Lemma matches_bare_tag (b : pystr) (c : N) (a : pystr) :
  tag_start (hd_error b) c = true ->
  exists rest,
    matches re_bare_tag (b, c :: a)
    = ((rev (take_while is_tag_char a) ++ c :: b, drop_while is_tag_char a),
       [c :: take_while is_tag_char a]) :: rest.
Proof.
  unfold tag_start. rewrite andb_true_iff. intros [Hb Hc].
  assert (Hw : is_word c = true)
    by now apply tag_char_is_word, alpha_is_tag_char.
  unfold re_bare_tag.
  rewrite (matches_seq_one (NotBehind (N.eqb HASH)) _ (b, c :: a)
             (b, c :: a) []).
  2:{ cbn [matches fst]. destruct b as [|p b]; [reflexivity|].
      cbn [hd_error] in Hb. apply andb_true_iff in Hb. destruct Hb as [Hh _].
      apply negb_true_iff in Hh. now rewrite Hh. }
  rewrite (matches_seq_one WordB _ (b, c :: a) (b, c :: a) []).
  2:{ cbn [matches fst snd]. rewrite Hw. destruct b as [|p b]; [reflexivity|].
      cbn [hd_error] in Hb. apply andb_true_iff in Hb. destruct Hb as [_ Hp].
      apply negb_true_iff in Hp. now rewrite Hp. }
  rewrite matches_group.
  rewrite (matches_seq_one (Cls is_alpha) _ (b, c :: a) (c :: b, a) [])
    by (now rewrite matches_cls, Hc).
  destruct (matches_star_cls is_tag_char (c :: b) a) as [rest ->].
  cbn [map app]. rewrite between_run. now eexists.
Qed.

Lemma matches_bare_tag_none (b a : pystr) :
  match a with
  | c :: _ => tag_start (hd_error b) c = false
  | [] => True
  end ->
  matches re_bare_tag (b, a) = [].
Proof.
  intros H. unfold re_bare_tag.
  destruct (matches (NotBehind (N.eqb HASH)) (b, a)) as [|r rs] eqn:E1;
    [now apply matches_seq_nil|].
  assert (E1' : matches (NotBehind (N.eqb HASH)) (b, a) = [((b, a), [])]).
  { revert E1. cbn [matches fst]. destruct b as [|p b]; [reflexivity|].
    now destruct (N.eqb HASH p). }
  rewrite (matches_seq_one _ _ _ _ _ E1').
  destruct (matches WordB (b, a)) as [|r' rs'] eqn:E2;
    [now rewrite matches_seq_nil|].
  assert (E2' : matches WordB (b, a) = [((b, a), [])]).
  { revert E2. cbn [matches fst snd]. now destruct (xorb _ _). }
  rewrite (matches_seq_one _ _ _ _ _ E2'), matches_group.
  rewrite matches_seq_nil; [reflexivity|].
  destruct a as [|c a]; [reflexivity|]. rewrite matches_cls.
  destruct (is_alpha c) eqn:Hc; [exfalso|reflexivity].
  assert (Hw : is_word c = true)
    by now apply tag_char_is_word, alpha_is_tag_char.
  unfold tag_start in H. rewrite Hc, andb_true_r in H.
  revert E1 E2. cbn [matches fst snd]. rewrite Hw.
  destruct b as [|p b]; [discriminate|]. cbn [hd_error] in H.
  destruct (N.eqb HASH p); [discriminate|]. cbn [negb andb] in H.
  apply negb_false_iff in H. now rewrite H.
Qed.

(** Inside a run of tag characters nothing starts. *)
Lemma hashify_run (a : pystr) :
  forall (p : N) (b : pystr),
    is_word p = true ->
    hashify (Some p) a
    = take_while is_tag_char a
        ++ hashify (hd_error (rev (take_while is_tag_char a) ++ p :: b))
             (drop_while is_tag_char a).
Proof.
  induction a as [|x a IH]; intros p b Hp; [reflexivity|].
  cbn [take_while drop_while]. destruct (is_tag_char x) eqn:Ex.
  - cbn [hashify]. unfold tag_start at 1. rewrite Hp, andb_false_r.
    cbn [andb app]. f_equal.
    rewrite (IH x (p :: b)) by now apply tag_char_is_word.
    cbn [rev]. now rewrite <- app_assoc.
  - reflexivity.
Qed.

Lemma sub_go_bare_tag (fuel : nat) :
  forall b a : pystr,
    length a < fuel ->
    sub_go re_bare_tag [Lit HASH; Ref 1] fuel (b, a) = hashify (hd_error b) a.
Proof.
  induction fuel as [|fuel IH]; intros b a Hf; [lia|].
  rewrite sub_go_S. destruct a as [|c a].
  - now rewrite matches_bare_tag_none.
  - simpl in Hf. destruct (tag_start (hd_error b) c) eqn:E.
    + destruct (matches_bare_tag b c a E) as [rest ->].
      pose proof (drop_while_length is_tag_char a) as Hd.
      cbn [snd]. rewrite (ltb_tail c a _ Hd).
      rewrite IH by lia. cbn [hashify]. rewrite E.
      unfold tag_start in E. apply andb_true_iff in E. destruct E as [_ Hc].
      rewrite (hashify_run a c b)
        by now apply tag_char_is_word, alpha_is_tag_char.
      simpl. now rewrite app_nil_r.
    + rewrite matches_bare_tag_none by exact E. cbn [snd fst hashify].
      rewrite E. simpl. f_equal. apply IH. lia.
Qed.

(** The substitution is [hashify]. *)
Lemma sub_bare_tag (s : pystr) :
  sub re_bare_tag [Lit HASH; Ref 1] s = hashify None s.
Proof. apply (sub_go_bare_tag (S (length s)) [] s). lia. Qed.

End Hashtags.

(** ** Whitespace-delimited tokens *)

Lemma lstrip_is_drop_while (s : pystr) : lstrip s = drop_while isspace s.
Proof.
  induction s as [|c s IH]; simpl; [reflexivity|].
  now destruct (isspace c).
Qed.

Lemma take_while_space (s : pystr) : all_space (take_while isspace s) = true.
Proof.
  induction s as [|c s IH]; simpl; [reflexivity|].
  destruct (isspace c) eqn:E; simpl; [now rewrite E|reflexivity].
Qed.

Lemma drop_while_space_head (s : pystr) :
  match drop_while isspace s with
  | c :: _ => isspace c = false
  | [] => True
  end.
Proof.
  induction s as [|c s IH]; simpl; [exact I|].
  destruct (isspace c) eqn:E; [exact IH|exact E].
Qed.

Lemma words_spaces (ws s : pystr) :
  all_space ws = true -> words (ws ++ s) = words s.
Proof.
  induction ws as [|c ws IH]; [reflexivity|].
  cbn [all_space forallb]. rewrite andb_true_iff. intros [Hc Hws].
  cbn [app words]. rewrite Hc. now apply IH.
Qed.

Lemma words_all_space (ws : pystr) : all_space ws = true -> words ws = [].
Proof.
  intros H. rewrite <- (app_nil_r ws). now rewrite words_spaces.
Qed.

(** A token in front of a blank start is the first word. *)
Lemma words_token (t s : pystr) :
  t <> [] -> spaceless t = true -> starts_blank s = true ->
  words (t ++ s) = t :: words s.
Proof.
  intros Hne Ht Hs. induction t as [|c t IH]; [congruence|].
  cbn [spaceless forallb] in Ht. apply andb_true_iff in Ht.
  destruct Ht as [Hc Ht]. apply negb_true_iff in Hc.
  cbn [app words]. rewrite Hc. destruct t as [|c2 t].
  - cbn [app]. destruct s as [|c' s]; [reflexivity|].
    cbn [starts_blank] in Hs. now rewrite Hs.
  - cbn [app]. pose proof Ht as Ht'.
    cbn [spaceless forallb] in Ht'. apply andb_true_iff in Ht'.
    destruct Ht' as [Hc2 _]. apply negb_true_iff in Hc2. rewrite Hc2.
    change (c2 :: t ++ s) with ((c2 :: t) ++ s).
    rewrite IH; [reflexivity|discriminate|exact Ht].
Qed.

(** Every string is blank, or blanks, a token and a rest that starts
    blank. *)
Lemma words_cases (s : pystr) :
  all_space s = true
  \/ exists ws t rest,
       s = ws ++ t ++ rest /\ all_space ws = true /\ t <> []
       /\ spaceless t = true /\ starts_blank rest = true
       /\ length rest < length s.
Proof.
  destruct (all_space s) eqn:E; [now left|right].
  set (f := fun c => negb (isspace c)).
  exists (take_while isspace s), (take_while f (drop_while isspace s)),
    (drop_while f (drop_while isspace s)).
  pose proof (drop_while_space_head s) as Hd.
  assert (Hs : s = take_while isspace s ++ drop_while isspace s)
    by now rewrite take_drop_while.
  destruct (drop_while isspace s) as [|c r] eqn:Er.
  { rewrite app_nil_r in Hs. rewrite Hs, take_while_space in E.
    discriminate. }
  split; [now rewrite take_drop_while|].
  split; [apply take_while_space|].
  split; [cbn [take_while]; unfold f at 1; now rewrite Hd|].
  split.
  { pose proof (take_while_all f (c :: r)) as Ha. unfold spaceless.
    apply forallb_forall. rewrite Forall_forall in Ha. exact Ha. }
  split.
  { clear. induction (c :: r) as [|x l IH]; [reflexivity|].
    cbn [drop_while]. unfold f at 1. destruct (isspace x) eqn:Ex; simpl.
    - exact Ex.
    - exact IH. }
  apply (f_equal (@length N)) in Hs. rewrite length_app in Hs.
  cbn [drop_while]. unfold f at 1. rewrite Hd. cbn [negb].
  pose proof (drop_while_length f r). cbn [length] in Hs. lia.
Qed.

Lemma words_ind (P : pystr -> Prop) :
  (forall ws, all_space ws = true -> P ws) ->
  (forall ws t rest,
      all_space ws = true -> t <> [] -> spaceless t = true ->
      starts_blank rest = true -> P rest -> P (ws ++ t ++ rest)) ->
  forall s, P s.
Proof.
  intros Hblank Hword s.
  induction s as [s IH] using (induction_ltof1 _ (@length N)).
  destruct (words_cases s)
    as [Hs|(ws & t & rest & -> & Hws & Hne & Ht & Hr & Hlen)].
  - now apply Hblank.
  - apply Hword; try assumption. now apply IH.
Qed.

Lemma words_token_in (ws t rest : pystr) :
  all_space ws = true -> t <> [] -> spaceless t = true ->
  starts_blank rest = true ->
  words (ws ++ t ++ rest) = t :: words rest.
Proof.
  intros Hws Hne Ht Hr. rewrite words_spaces by exact Hws.
  now apply words_token.
Qed.

Lemma all_space_starts_blank (ws : pystr) :
  all_space ws = true -> starts_blank ws = true.
Proof.
  destruct ws as [|c ws]; [reflexivity|]. simpl.
  now intros H%andb_true_iff.
Qed.

Lemma words_trailing_spaces (s ws : pystr) :
  all_space ws = true -> words (s ++ ws) = words s.
Proof.
  intros Hws. induction s as [ws' Hws'|ws' t rest Hws' Hne Ht Hr IH]
    using words_ind.
  - rewrite (words_all_space ws') by exact Hws'. apply words_all_space.
    unfold all_space in *. now rewrite forallb_app, Hws', Hws.
  - rewrite <- !app_assoc, !words_token_in, IH; try assumption;
      [reflexivity|].
    destruct rest; [now apply all_space_starts_blank|exact Hr].
Qed.

Lemma words_strip (s : pystr) : words (strip s) = words s.
Proof.
  unfold strip.
  destruct (rstrip_prefix (lstrip s)) as (ws & E & Hws).
  rewrite <- (words_trailing_spaces (rstrip (lstrip s)) ws Hws), <- E.
  rewrite lstrip_is_drop_while.
  rewrite <- (take_drop_while isspace s) at 2.
  now rewrite words_spaces by apply take_while_space.
Qed.

(** Removing characters that are not whitespace removes them from the
    tokens, and the tokens it empties. *)
Lemma words_filter (g : N -> bool) (s : pystr) :
  (forall c, isspace c = true -> g c = true) ->
  words (filter g s) = filter truthy (map (filter g) (words s)).
Proof.
  intros Hg.
  assert (Hkeep : forall ws, all_space ws = true ->
                             all_space (filter g ws) = true).
  { intros ws. unfold all_space. rewrite !forallb_forall.
    intros H c Hc. apply filter_In in Hc. now apply H. }
  induction s as [ws Hws|ws t rest Hws Hne Ht Hr IH] using words_ind.
  - now rewrite (words_all_space ws Hws), words_all_space by auto.
  - rewrite (words_token_in ws t rest) by assumption.
    rewrite !filter_app, words_spaces by auto. cbn [map filter].
    destruct (filter g t) as [|x t'] eqn:Et; cbn [truthy];
      [exact IH|].
    rewrite <- Et, words_token, IH; [reflexivity| | |].
    + rewrite Et. discriminate.
    + unfold spaceless in *. rewrite forallb_forall in *.
      intros c Hc. apply filter_In in Hc. now apply Ht.
    + destruct rest as [|c r]; [reflexivity|]. cbn [starts_blank] in Hr.
      cbn [filter]. now rewrite (Hg c Hr).
Qed.

(** ** Hashtags, token by token *)

Section HashtagTokens.

Context {U : Unicode}.

Lemma hashify_app (x y : pystr) :
  forall prev,
    hashify prev (x ++ y) = hashify prev x ++ hashify (prev_after prev x) y.
Proof.
  induction x as [|c x IH]; intros prev; [reflexivity|].
  cbn [app hashify]. now rewrite IH, <- app_assoc.
Qed.

Lemma tag_start_open (prev : option N) (c : N) :
  open_prev prev = true -> tag_start prev c = is_alpha c.
Proof.
  unfold tag_start. destruct prev as [p|]; [|reflexivity]. cbn [open_prev].
  intros Hp. now rewrite (space_not_hash p Hp), (space_not_word p Hp).
Qed.

(** What comes before matters only through whether a tag may start. *)
Lemma hashify_open (prev prev' : option N) (s : pystr) :
  open_prev prev = true -> open_prev prev' = true ->
  hashify prev s = hashify prev' s.
Proof.
  intros H H'. destruct s as [|c s]; [reflexivity|]. cbn [hashify].
  now rewrite !tag_start_open.
Qed.

Lemma hashify_spaces (ws : pystr) :
  forall prev, all_space ws = true -> hashify prev ws = ws.
Proof.
  induction ws as [|c ws IH]; intros prev; [reflexivity|].
  cbn [all_space forallb hashify]. rewrite andb_true_iff. intros [Hc Hws].
  unfold tag_start. rewrite (space_not_alpha c Hc), andb_false_r.
  cbn [app]. f_equal. now apply IH.
Qed.

Lemma prev_after_open (prev : option N) (ws : pystr) :
  open_prev prev = true -> all_space ws = true ->
  open_prev (prev_after prev ws) = true.
Proof.
  revert prev; induction ws as [|c ws IH]; intros prev Hp; [now intros _|].
  cbn [all_space forallb]. rewrite andb_true_iff. intros [Hc Hws].
  now apply IH.
Qed.

Lemma prev_after_spaces (prev : option N) (ws : pystr) :
  ws <> [] -> all_space ws = true -> open_prev (prev_after prev ws) = true.
Proof.
  destruct ws as [|c ws]; [congruence|]. intros _.
  cbn [all_space forallb]. rewrite andb_true_iff. intros [Hc Hws].
  now apply (prev_after_open (Some c) ws).
Qed.

Lemma hashify_tag_chars (w : pystr) :
  forall p,
    is_word p = true -> forallb is_tag_char w = true ->
    hashify (Some p) w = w.
Proof.
  induction w as [|c w IH]; intros p Hp; [reflexivity|].
  cbn [forallb hashify]. rewrite andb_true_iff. intros [Hc Hw].
  unfold tag_start. rewrite Hp, andb_false_r. cbn [andb app]. f_equal.
  apply IH; [now apply tag_char_is_word|exact Hw].
Qed.

Lemma hashify_tag_word (prev : option N) (w : pystr) :
  open_prev prev = true -> tag_word w = true -> hashify prev w = HASH :: w.
Proof.
  intros Hp. destruct w as [|c w]; [discriminate|]. cbn [tag_word].
  rewrite andb_true_iff. intros [Hc Hw]. cbn [hashify].
  rewrite (tag_start_open prev c Hp), Hc. cbn [app]. do 2 f_equal.
  apply hashify_tag_chars; [|exact Hw].
  now apply tag_char_is_word, alpha_is_tag_char.
Qed.

Lemma hashify_tagged_word (prev : option N) (w : pystr) :
  tag_word w = true -> hashify prev (HASH :: w) = HASH :: w.
Proof.
  destruct w as [|c w]; [discriminate|]. cbn [tag_word].
  rewrite andb_true_iff. intros [Hc Hw]. cbn [hashify].
  unfold tag_start at 1. rewrite andb_false_r.
  unfold tag_start. rewrite N.eqb_refl. cbn [negb andb app]. do 2 f_equal.
  apply hashify_tag_chars; [|exact Hw].
  now apply tag_char_is_word, alpha_is_tag_char.
Qed.

Lemma tag_word_no_hash (w : pystr) :
  tag_word w = true -> startswith [HASH] w = false.
Proof.
  destruct w as [|c w]; [discriminate|]. cbn [tag_word startswith].
  rewrite andb_true_iff. intros [Hc _]. rewrite andb_true_r.
  destruct (N.eqb HASH c) eqn:E; [|reflexivity].
  apply N.eqb_eq in E. subst c. discriminate.
Qed.

(** A token that is a bare word, tagged or not, comes out with one [#]. *)
Lemma hashify_tag_token (prev : option N) (t : pystr) :
  open_prev prev = true -> is_tag_token t = true ->
  hashify prev t = ensure_hash t.
Proof.
  intros Hp. unfold is_tag_token, ensure_hash. rewrite orb_true_iff.
  intros [Hw|Ht].
  - rewrite (tag_word_no_hash t Hw). now apply hashify_tag_word.
  - destruct t as [|c w]; [discriminate|].
    apply andb_true_iff in Ht. destruct Ht as [Hc Hw].
    apply N.eqb_eq in Hc. subst c. cbn [startswith].
    rewrite N.eqb_refl. cbn [andb]. now apply hashify_tagged_word.
Qed.

Lemma ensure_hash_one (t : pystr) :
  is_tag_token t = true ->
  exists w, ensure_hash t = HASH :: w /\ tag_word w = true.
Proof.
  unfold is_tag_token, ensure_hash. rewrite orb_true_iff. intros [Hw|Ht].
  - rewrite (tag_word_no_hash t Hw). now exists t.
  - destruct t as [|c w]; [discriminate|].
    apply andb_true_iff in Ht. destruct Ht as [Hc Hw].
    apply N.eqb_eq in Hc. subst c. cbn [startswith].
    rewrite N.eqb_refl. cbn [andb]. now exists w.
Qed.

Lemma hashify_not_empty (prev : option N) (t : pystr) :
  t <> [] -> hashify prev t <> [].
Proof.
  destruct t as [|c t]; [congruence|]. intros _. cbn [hashify].
  now destruct (tag_start prev c).
Qed.

Lemma hashify_spaceless (t : pystr) :
  forall prev, spaceless t = true -> spaceless (hashify prev t) = true.
Proof.
  induction t as [|c t IH]; intros prev; [reflexivity|].
  cbn [spaceless forallb hashify]. rewrite andb_true_iff. intros [Hc Ht].
  unfold spaceless in *. rewrite forallb_app, (IH _ Ht), andb_true_r.
  destruct (tag_start prev c); cbn [forallb]; now rewrite Hc.
Qed.

Lemma hashify_starts_blank (prev : option N) (s : pystr) :
  starts_blank s = true -> starts_blank (hashify prev s) = true.
Proof.
  destruct s as [|c s]; [reflexivity|]. cbn [starts_blank hashify].
  intros Hc. unfold tag_start. now rewrite (space_not_alpha c Hc), andb_false_r.
Qed.

(** The substitution works on each token by itself. *)
Lemma words_hashify (s : pystr) :
  forall prev,
    open_prev prev = true \/ starts_blank s = true ->
    words (hashify prev s) = map (hashify None) (words s).
Proof.
  induction s as [ws Hws|ws t rest Hws Hne Ht Hr IH] using words_ind;
    intros prev Hp.
  - now rewrite (hashify_spaces ws prev Hws), (words_all_space ws Hws).
  - rewrite (words_token_in ws t rest) by assumption.
    rewrite !hashify_app, (hashify_spaces ws prev Hws).
    assert (Hopen : open_prev (prev_after prev ws) = true).
    { destruct ws as [|c ws]; [|now apply prev_after_spaces].
      destruct Hp as [Hp|Hp]; [exact Hp|].
      destruct t as [|c t]; [congruence|].
      cbn [app starts_blank] in Hp. cbn [spaceless forallb] in Ht.
      apply andb_true_iff in Ht. destruct Ht as [Hc _].
      now rewrite Hp in Hc. }
    rewrite (hashify_open _ None t Hopen eq_refl).
    rewrite words_token_in; try assumption.
    + cbn [map]. f_equal. apply IH. now right.
    + now apply hashify_not_empty.
    + now apply hashify_spaceless.
    + now apply hashify_starts_blank.
Qed.

Lemma symbols_not_space (c : N) :
  isspace c = true -> negb (one_of title_symbols c) = true.
Proof.
  intros Hc. apply negb_true_iff.
  destruct (one_of title_symbols c) eqn:E; [exfalso|reflexivity].
  unfold one_of in E. apply existsb_exists in E.
  destruct E as (x & Hin & Heq). apply N.eqb_eq in Heq. subst x.
  unfold title_symbols in Hin. cbn [In] in Hin.
  repeat (destruct Hin as [<-|Hin]; [discriminate|]). exact Hin.
Qed.

Lemma symbols_not_ascii (c : N) :
  is_ascii c = true -> negb (one_of title_symbols c) = true.
Proof.
  intros Hc. apply negb_true_iff.
  destruct (one_of title_symbols c) eqn:E; [exfalso|reflexivity].
  unfold one_of in E. apply existsb_exists in E.
  destruct E as (x & Hin & Heq). apply N.eqb_eq in Heq. subst x.
  unfold title_symbols in Hin. cbn [In] in Hin.
  repeat (destruct Hin as [<-|Hin]; [discriminate|]). exact Hin.
Qed.

Lemma tag_token_ascii (t : pystr) :
  is_tag_token t = true -> forallb is_ascii t = true.
Proof.
  assert (Hchars : forall w, forallb is_tag_char w = true ->
                             forallb is_ascii w = true).
  { intros w. rewrite !forallb_forall. intros H c Hc. specialize (H c Hc).
    unfold is_tag_char, is_alnum, is_alpha, is_upper, is_lower, is_digit,
      is_ascii in *. bool_to_prop. lia. }
  assert (Hword : forall w, tag_word w = true -> forallb is_ascii w = true).
  { intros [|c w]; [discriminate|]. cbn [tag_word]. rewrite andb_true_iff.
    intros [Hc Hw]. apply Hchars. cbn [forallb].
    now rewrite (alpha_is_tag_char c Hc). }
  unfold is_tag_token. rewrite orb_true_iff. intros [Hw|Ht]; [auto|].
  destruct t as [|c w]; [discriminate|].
  apply andb_true_iff in Ht. destruct Ht as [Hc Hw].
  apply N.eqb_eq in Hc. subst c. cbn [forallb]. now rewrite (Hword w Hw).
Qed.

Lemma tag_token_kept (t : pystr) :
  is_tag_token t = true ->
  filter (fun c => negb (one_of title_symbols c)) t = t.
Proof.
  intros Ht. apply tag_token_ascii in Ht. rewrite forallb_forall in Ht.
  induction t as [|c t IH]; [reflexivity|]. cbn [filter].
  rewrite symbols_not_ascii by (apply Ht; now left).
  f_equal. apply IH. intros x Hx. apply Ht. now right.
Qed.

(** The tokens of the cleaned hashtags: those of the field without the
    symbols, each run through the substitution. *)
Lemma words_clean_hashtags (h : pystr) :
  words (clean_hashtags h)
  = map (hashify None)
      (filter truthy
         (map (filter (fun c => negb (one_of title_symbols c))) (words h))).
Proof.
  unfold clean_hashtags, re_title_symbols.
  rewrite words_strip, sub_bare_tag, sub_cls.
  rewrite words_hashify by now left.
  now rewrite words_filter by apply symbols_not_space.
Qed.

End HashtagTokens.

(** C4, as the code has it.  A whitespace-delimited token of the hashtags
    field that is a bare word (an ASCII letter, then ASCII letters, digits or
    underscores) or [#] and a bare word is, after normalization, a token with
    exactly one [#] in front of the word; when all the tokens are such, the
    tokens afterwards are these, in the same order. *)
Theorem hashtag_tokens_get_one_hash :
  forall {U : Unicode} (d : blog_data),
    let before := words (hashtags d) in
    let after := words (hashtags (_clean_content d)) in
    (forall t, In t before -> is_tag_token t = true ->
               In (ensure_hash t) after)
    /\ (forallb is_tag_token before = true ->
        after = map ensure_hash before)
    /\ (forall t, is_tag_token t = true ->
                  exists w, ensure_hash t = HASH :: w /\ tag_word w = true).
Proof.
  intros U d before after.
  assert (Ha : after
               = map (hashify None)
                   (filter truthy
                      (map (filter (fun c => negb (one_of title_symbols c)))
                         before))).
  { unfold after, before.
    destruct (clean_content_fields d) as (_ & _ & -> & _).
    apply words_clean_hashtags. }
  split; [|split].
  - intros t Hin Ht. rewrite Ha.
    rewrite <- (hashify_tag_token None t eq_refl Ht).
    apply in_map, filter_In. split.
    + rewrite <- (tag_token_kept t Ht) at 1. now apply in_map.
    + destruct t; [discriminate|reflexivity].
  - intros Hall. rewrite forallb_forall in Hall.
    assert (E1 : map (filter (fun c => negb (one_of title_symbols c))) before
                 = before).
    { rewrite <- (map_id before) at 2. apply map_ext_in.
      intros t Ht. apply tag_token_kept, Hall, Ht. }
    assert (E2 : filter truthy before = before).
    { clear Ha E1. induction before as [|t ts IH]; [reflexivity|].
      cbn [filter]. assert (Ht : is_tag_token t = true) by (apply Hall; now left).
      destruct t; [discriminate|]. cbn [truthy]. f_equal. apply IH.
      intros x Hx. apply Hall. now right. }
    rewrite Ha, E1, E2. apply map_ext_in. intros t Ht.
    apply hashify_tag_token; [reflexivity|now apply Hall].
  - intros t. apply ensure_hash_one.
Qed.

(** Three tokens, bare and tagged, two spaces between the last two. *)
Lemma hashtag_tokens_witness :
  words (hashtags
           (_clean_content (U := ascii_tables)
              (hashtags_only (py "AI #ml  data_2024"))))
  = map ensure_hash (words (hashtags (hashtags_only (py "AI #ml  data_2024")))).
Proof.
  apply (proj1 (proj2
           (hashtag_tokens_get_one_hash (U := ascii_tables)
              (hashtags_only (py "AI #ml  data_2024"))))).
  reflexivity.
Defined.

(** C4 as stated fails: a token that starts with a digit gets no [#], and
    a token with two [#] keeps both. *)
Lemma hashtag_tokens_left_alone :
  hashtags
    (_clean_content (U := ascii_tables) (hashtags_only (py "AI 2024 ##ml")))
  = py "#AI 2024 ##ml"
  /\ words
       (hashtags
          (_clean_content (U := ascii_tables)
             (hashtags_only (py "AI 2024 ##ml"))))
     = [py "#AI"; py "2024"; py "##ml"].
Proof. split; vm_compute; reflexivity. Qed.

(** ** Running the sanitizer again *)

Section Again.

Context {U : Unicode}.

Lemma filter_all (g : N -> bool) (s : pystr) :
  (forall c, In c s -> g c = true) -> filter g s = s.
Proof.
  intros H. apply forallb_filter_id, forallb_forall, H.
Qed.

Lemma plain_no_star (cs : list N) (s : pystr) :
  Forall (plain cs) s -> sub re_stars [] s = s.
Proof.
  intros H. unfold re_stars, Chr. rewrite sub_plus_cls.
  apply filter_all. intros c Hc. rewrite Forall_forall in H.
  destruct (H c Hc) as [Hs _]. apply negb_true_iff, N.eqb_neq. congruence.
Qed.

Lemma plain_no_symbol (cs : list N) (s : pystr) :
  Forall (plain cs) s -> sub (Cls (one_of cs)) [] s = s.
Proof.
  intros H. rewrite sub_cls. apply filter_all. intros c Hc.
  rewrite Forall_forall in H. destruct (H c Hc) as [_ Hs].
  apply negb_true_iff. destruct (one_of cs c) eqn:E; [|reflexivity].
  exfalso. apply Hs. unfold one_of in E. apply existsb_exists in E.
  destruct E as (x & Hx & Ex). apply N.eqb_eq in Ex. now subst.
Qed.

Lemma clean_title_again (s : pystr) :
  clean_title (clean_title s) = clean_title s.
Proof.
  pose proof (clean_title_plain s) as Hp.
  unfold clean_title at 1. unfold re_title_symbols.
  rewrite (plain_no_star _ _ Hp), (plain_no_symbol _ _ Hp).
  unfold clean_title. apply strip_idem.
Qed.

Lemma clean_call_to_action_again (s : pystr) :
  clean_call_to_action (clean_call_to_action s) = clean_call_to_action s.
Proof.
  pose proof (clean_call_to_action_plain s) as Hp.
  unfold clean_call_to_action at 1. unfold re_title_symbols.
  rewrite (plain_no_symbol _ _ Hp), (plain_no_star _ _ Hp).
  unfold clean_call_to_action. apply strip_idem.
Qed.

Lemma hashify_again (s : pystr) :
  forall prev, hashify prev (hashify prev s) = hashify prev s.
Proof.
  induction s as [|c s IH]; intros prev; [reflexivity|].
  cbn [hashify]. destruct (tag_start prev c) eqn:E; cbn [app hashify].
  - unfold tag_start at 1. rewrite andb_false_r.
    unfold tag_start at 1. rewrite N.eqb_refl. cbn [negb andb app].
    now rewrite IH.
  - now rewrite E, IH.
Qed.

Lemma hashify_lstrip (s : pystr) :
  hashify None s = s -> hashify None (lstrip s) = lstrip s.
Proof.
  rewrite lstrip_is_drop_while.
  rewrite <- (take_drop_while isspace s) at 1 2.
  rewrite hashify_app, hashify_spaces by apply take_while_space.
  intros H. apply app_inv_head in H. rewrite <- H at 2.
  apply hashify_open; [reflexivity|].
  apply prev_after_open; [reflexivity|apply take_while_space].
Qed.

Lemma hashify_rstrip (s : pystr) :
  hashify None s = s -> hashify None (rstrip s) = rstrip s.
Proof.
  destruct (rstrip_prefix s) as (ws & E & Hws). rewrite E at 1 2.
  rewrite hashify_app, (hashify_spaces ws _ Hws).
  now intros H%app_inv_tail.
Qed.

Lemma hashify_strip (s : pystr) :
  hashify None s = s -> hashify None (strip s) = strip s.
Proof. intros H. unfold strip. now apply hashify_rstrip, hashify_lstrip. Qed.

Lemma clean_hashtags_again (s : pystr) :
  clean_hashtags (clean_hashtags s) = clean_hashtags s.
Proof.
  unfold clean_hashtags at 1.
  assert (Hsym : sub re_title_symbols [] (clean_hashtags s)
                 = clean_hashtags s).
  { unfold re_title_symbols. rewrite sub_cls. apply filter_all.
    intros c Hc. unfold clean_hashtags in Hc.
    apply strip_incl, sub_incl in Hc. cbn [literals flat_map app] in Hc.
    destruct Hc as [<-|Hc]; [reflexivity|].
    unfold re_title_symbols in Hc. rewrite sub_cls in Hc.
    now apply filter_In in Hc. }
  rewrite Hsym, sub_bare_tag. unfold clean_hashtags at 1.
  rewrite sub_bare_tag, hashify_strip by apply hashify_again.
  rewrite strip_idem. unfold clean_hashtags. now rewrite sub_bare_tag.
Qed.

End Again.

(** ** Substitutions that find nothing *)

Section NoMatch.

Context {U : Unicode}.

(** A pattern that matches nowhere leaves the string as it is. *)
Lemma sub_go_nowhere (r : regex) (tpl : list piece) (a : pystr) :
  forall (fuel : nat) (b : pystr),
    length a < fuel ->
    (forall x y, a = x ++ y -> matches r (rev x ++ b, y) = []) ->
    sub_go r tpl fuel (b, a) = a.
Proof.
  induction a as [|c a IH]; intros [|fuel] b Hf Hno; simpl in Hf; try lia;
    pose proof (Hno [] _ eq_refl) as H0; cbn [rev app] in H0;
    rewrite sub_go_S, H0; cbn [snd fst]; [reflexivity|].
  f_equal. apply IH; [lia|]. intros x y E.
  specialize (Hno (c :: x) y). cbn [rev] in Hno.
  rewrite <- app_assoc in Hno. apply Hno. now rewrite E.
Qed.

Lemma sub_nowhere (r : regex) (tpl : list piece) (s : pystr) :
  (forall x y, s = x ++ y -> matches r (rev x, y) = []) ->
  sub r tpl s = s.
Proof.
  intros H. apply sub_go_nowhere; [lia|].
  intros x y E. rewrite app_nil_r. now apply H.
Qed.

Lemma matches_cls_end (f : N -> bool) (b : pystr) : matches (Cls f) (b, []) = [].
Proof. reflexivity. Qed.

Lemma matches_chr_other (c : N) (r : regex) (b a : pystr) :
  match a with x :: _ => x <> c | [] => True end ->
  matches (Seq (Chr c) r) (b, a) = [].
Proof.
  intros H. apply matches_seq_nil. destruct a as [|x a]; [reflexivity|].
  unfold Chr. rewrite matches_cls.
  destruct (N.eqb c x) eqn:E; [|reflexivity].
  apply N.eqb_eq in E. congruence.
Qed.

(** Without an asterisk there is no emphasis to unwrap. *)
Lemma no_star_nowhere (r : regex) (tpl : list piece) (s : pystr) :
  ~ In STAR s -> sub (Seq (Chr STAR) r) tpl s = s.
Proof.
  intros Hs. apply sub_nowhere. intros x y E. apply matches_chr_other.
  destruct y as [|c y]; [exact I|]. intros ->. apply Hs. rewrite E.
  apply in_or_app. right. now left.
Qed.

End NoMatch.

(** ** Runs of line feeds *)

Lemma lead_cons (c : N) (s : pystr) :
  lead (c :: s) = if N.eqb NL c then S (lead s) else 0.
Proof. unfold lead. cbn [take_while]. now destruct (N.eqb NL c). Qed.

Lemma lead_drop_while (s : pystr) : lead (drop_while (N.eqb NL) s) = 0.
Proof.
  induction s as [|c s IH]; [reflexivity|]. cbn [drop_while].
  destruct (N.eqb NL c) eqn:E; [exact IH|]. now rewrite lead_cons, E.
Qed.

Lemma lead_after_space (s : pystr) : lead (drop_while isspace s) = 0.
Proof.
  pose proof (drop_while_space_head s) as H.
  destruct (drop_while isspace s) as [|c r]; [reflexivity|].
  rewrite lead_cons. destruct (N.eqb NL c) eqn:E; [|reflexivity].
  apply N.eqb_eq in E. subst c. discriminate.
Qed.

Lemma lead_app_le (x y : pystr) : lead x <= lead (x ++ y).
Proof.
  induction x as [|c x IH]; [unfold lead at 1; simpl; lia|].
  cbn [app]. rewrite !lead_cons. destruct (N.eqb NL c); lia.
Qed.

Lemma no3_cons (c : N) (s : pystr) :
  no3 (c :: s) = Nat.leb (lead (c :: s)) 2 && no3 s.
Proof. reflexivity. Qed.

Lemma no3_suffix (x y : pystr) : no3 (x ++ y) = true -> no3 y = true.
Proof.
  induction x as [|c x IH]; [trivial|]. cbn [app]. rewrite no3_cons.
  intros H%andb_true_iff. now apply IH.
Qed.

Lemma no3_prefix (x y : pystr) : no3 (x ++ y) = true -> no3 x = true.
Proof.
  induction x as [|c x IH]; [reflexivity|]. cbn [app]. rewrite !no3_cons.
  rewrite !andb_true_iff, !Nat.leb_le. intros [Hl Hn]. split; [|now apply IH].
  pose proof (lead_app_le (c :: x) y). cbn [app] in *. lia.
Qed.

Lemma no3_lead (s : pystr) : no3 s = true -> lead s <= 2.
Proof.
  destruct s as [|c s]; [unfold lead; simpl; lia|]. rewrite no3_cons.
  now intros [H _]%andb_true_iff; apply Nat.leb_le.
Qed.

Lemma no3_strip (s : pystr) : no3 s = true -> no3 (strip s) = true.
Proof.
  intros H. unfold strip.
  assert (Hl : no3 (lstrip s) = true).
  { rewrite lstrip_is_drop_while.
    rewrite <- (take_drop_while isspace s) in H. now apply no3_suffix in H. }
  destruct (rstrip_prefix (lstrip s)) as (ws & E & _). rewrite E in Hl.
  now apply no3_prefix in Hl.
Qed.

Section BlankLines.

Context {U : Unicode}.

Lemma matches_chr_seq (c : N) (r : regex) (b : pystr) (x : N) (a : pystr) :
  matches (Seq (Chr c) r) (b, x :: a)
  = if N.eqb c x
    then map (fun '(q', g') => (q', [] ++ g')) (matches r (x :: b, a))
    else [].
Proof.
  destruct (N.eqb c x) eqn:E.
  - apply matches_seq_one. unfold Chr. now rewrite matches_cls, E.
  - apply matches_seq_nil. unfold Chr. now rewrite matches_cls, E.
Qed.

Lemma matches_chr_seq_end (c : N) (r : regex) (b : pystr) :
  matches (Seq (Chr c) r) (b, []) = [].
Proof. now apply matches_seq_nil. Qed.

(** Fewer than three line feeds ahead: no match. *)
Lemma blank_lines_none (b a : pystr) :
  lead a <= 2 -> matches re_blank_lines (b, a) = [].
Proof.
  unfold re_blank_lines. cbn [AtLeast]. intros H.
  destruct a as [|c1 a]; [apply matches_chr_seq_end|].
  rewrite matches_chr_seq. rewrite lead_cons in H.
  destruct (N.eqb NL c1); [|reflexivity].
  destruct a as [|c2 a]; [now rewrite matches_chr_seq_end|].
  rewrite matches_chr_seq. rewrite lead_cons in H.
  destruct (N.eqb NL c2); [|reflexivity].
  destruct a as [|c3 a]; [now rewrite matches_chr_seq_end|].
  rewrite matches_chr_seq. rewrite lead_cons in H.
  destruct (N.eqb NL c3); [lia|reflexivity].
Qed.

(** Three or more: the whole run is taken. *)
Lemma blank_lines_head (b a : pystr) :
  3 <= lead a ->
  exists b' rest,
    matches re_blank_lines (b, a)
    = ((b', drop_while (N.eqb NL) a), []) :: rest.
Proof.
  unfold re_blank_lines. cbn [AtLeast]. intros H.
  destruct a as [|c1 a]; [unfold lead in H; simpl in H; lia|].
  rewrite lead_cons in H. rewrite matches_chr_seq. cbn [drop_while].
  destruct (N.eqb NL c1); [|lia].
  destruct a as [|c2 a]; [unfold lead in H; simpl in H; lia|].
  rewrite lead_cons in H. rewrite matches_chr_seq. cbn [drop_while].
  destruct (N.eqb NL c2); [|lia].
  destruct a as [|c3 a]; [unfold lead in H; simpl in H; lia|].
  rewrite lead_cons in H. rewrite matches_chr_seq. cbn [drop_while].
  destruct (N.eqb NL c3); [|lia].
  destruct (matches_star_cls (N.eqb NL) (c3 :: c2 :: c1 :: b) a)
    as [rest Hr].
  unfold Chr. rewrite Hr. cbn [map app]. now eexists _, _.
Qed.

(** After the collapse no three line feeds are left in a row. *)
Lemma sub_go_blank_lines (fuel : nat) :
  forall b a : pystr,
    length a < fuel ->
    let o := sub_go re_blank_lines [Lit NL; Lit NL] fuel (b, a) in
    no3 o = true /\ lead o <= 2 /\ lead o <= lead a.
Proof.
  induction fuel as [|fuel IH]; intros b a Hf; [lia|].
  cbv zeta. rewrite sub_go_S.
  destruct (Nat.le_gt_cases 3 (lead a)) as [H3|H3].
  - destruct (blank_lines_head b a H3) as (b' & rest & ->). cbn [snd].
    pose proof (drop_while_length (N.eqb NL) a) as Hd.
    assert (Hlt : length (drop_while (N.eqb NL) a) < length a).
    { destruct a as [|c a]; [unfold lead in H3; simpl in H3; lia|].
      rewrite lead_cons in H3. cbn [drop_while].
      destruct (N.eqb NL c); [|lia].
      pose proof (drop_while_length (N.eqb NL) a). simpl. lia. }
    rewrite (proj2 (Nat.ltb_lt _ _) Hlt).
    destruct (IH b' (drop_while (N.eqb NL) a)) as (Hn & _ & Hl); [lia|].
    rewrite lead_drop_while in Hl.
    set (o' := sub_go re_blank_lines [Lit NL; Lit NL] fuel
                 (b', drop_while (N.eqb NL) a)) in *.
    assert (Hz : lead o' = 0) by lia.
    cbn [expand flat_map app]. rewrite !no3_cons, !lead_cons, Hn.
    rewrite N.eqb_refl, Hz. repeat split; try reflexivity.
    exact (Nat.le_trans _ _ _ (Nat.le_succ_diag_r 2) H3).
  - rewrite blank_lines_none by lia. cbn [snd fst].
    destruct a as [|c a]; [repeat split; unfold lead; simpl; lia|].
    simpl in Hf. destruct (IH (c :: b) a) as (Hn & Hl2 & Hl); [lia|].
    rewrite no3_cons, !lead_cons, Hn. rewrite lead_cons in H3.
    destruct (N.eqb NL c); rewrite andb_true_r, Nat.leb_le;
      repeat split; lia.
Qed.

Lemma sub_blank_lines_no3 (s : pystr) :
  no3 (sub re_blank_lines [Lit NL; Lit NL] s) = true.
Proof. apply (sub_go_blank_lines (S (length s)) [] s). lia. Qed.

Lemma no3_everywhere (s x y : pystr) :
  no3 s = true -> s = x ++ y -> lead y <= 2.
Proof. intros H ->. now apply no3_lead, (no3_suffix x). Qed.

Lemma sub_blank_lines_fixed (s : pystr) :
  no3 s = true -> sub re_blank_lines [Lit NL; Lit NL] s = s.
Proof.
  intros H. apply sub_nowhere. intros x y E.
  apply blank_lines_none. exact (no3_everywhere s x y H E).
Qed.

End BlankLines.

(** ** List markers *)

Section Markers.

Context {U : Unicode}.

Lemma matches_bol (b a : pystr) :
  matches (Bol true) (b, a) = if at_line_start b then [((b, a), [])] else [].
Proof. destruct b as [|c b]; reflexivity. Qed.

Lemma matches_bol_seq (r : regex) (b a : pystr) :
  matches (Seq (Bol true) r) (b, a)
  = if at_line_start b
    then map (fun '(q', g') => (q', [] ++ g')) (matches r (b, a))
    else [].
Proof.
  destruct (at_line_start b) eqn:E.
  - apply matches_seq_one. now rewrite matches_bol, E.
  - apply matches_seq_nil. now rewrite matches_bol, E.
Qed.

Lemma matches_cls_seq (f : N -> bool) (r : regex) (b : pystr) (c : N)
  (a : pystr) :
  matches (Seq (Cls f) r) (b, c :: a)
  = if f c
    then map (fun '(q', g') => (q', [] ++ g')) (matches r (c :: b, a))
    else [].
Proof.
  destruct (f c) eqn:E.
  - apply matches_seq_one. now rewrite matches_cls, E.
  - apply matches_seq_nil. now rewrite matches_cls, E.
Qed.

(** What the bullet pattern finds: nothing, or the bullet and all the
    whitespace after it. *)
Lemma matches_bullet (b a : pystr) :
  match a with
  | c :: a' =>
      if at_line_start b && one_of bullets c
      then exists rest,
          matches re_bullet (b, a)
          = ((rev (take_while isspace a') ++ c :: b, drop_while isspace a'),
             []) :: rest
      else matches re_bullet (b, a) = []
  | [] => matches re_bullet (b, a) = []
  end.
Proof.
  unfold re_bullet. rewrite matches_bol_seq.
  destruct a as [|c a].
  - destruct (at_line_start b); [|reflexivity].
    now rewrite matches_seq_nil.
  - rewrite matches_cls_seq.
    destruct (at_line_start b); cbn [andb]; [|reflexivity].
    destruct (one_of bullets c); [|reflexivity].
    destruct (matches_star_cls isspace (c :: b) a) as [rest ->].
    cbn [map app]. now eexists.
Qed.

(** What the dash pattern finds: nothing, or the dash or asterisk and all
    the whitespace after it, of which there is some. *)
Lemma matches_dash (b a : pystr) :
  match a with
  | c :: w :: a' =>
      if at_line_start b && (one_of [45; STAR]%N c && isspace w)
      then exists rest,
          matches re_dash (b, a)
          = ((rev (take_while isspace a') ++ w :: c :: b,
              drop_while isspace a'), []) :: rest
      else matches re_dash (b, a) = []
  | _ => matches re_dash (b, a) = []
  end.
Proof.
  unfold re_dash. rewrite matches_bol_seq.
  destruct a as [|c a].
  - destruct (at_line_start b); [|reflexivity].
    now rewrite matches_seq_nil.
  - rewrite matches_cls_seq. destruct a as [|w a].
    + destruct (at_line_start b); [|reflexivity].
      destruct (one_of [45; STAR]%N c); [|reflexivity].
      now rewrite matches_plus_cls_none.
    + destruct (at_line_start b); cbn [andb]; [|reflexivity].
      destruct (one_of [45; STAR]%N c); cbn [andb]; [|reflexivity].
      destruct (isspace w) eqn:Ew.
      * destruct (matches_plus_cls isspace (c :: b) w a Ew) as [rest ->].
        cbn [map app]. now eexists.
      * now rewrite matches_plus_cls_none.
Qed.

Lemma drop_while_suffix (f : N -> bool) (a : pystr) :
  exists x, a = x ++ drop_while f a.
Proof. exists (take_while f a). now rewrite take_drop_while. Qed.

Lemma bullet_stops_clean : stops_clean re_bullet.
Proof.
  intros b a q g rest E. pose proof (matches_bullet b a) as H.
  destruct a as [|c a]; [congruence|].
  destruct (at_line_start b && one_of bullets c); [|congruence].
  destruct H as [rest' H]. rewrite H in E. injection E as <- _ _.
  cbn [snd]. split; [apply lead_after_space|]. split.
  - pose proof (drop_while_length isspace a). simpl. lia.
  - destruct (drop_while_suffix isspace a) as [x Hx].
    exists (c :: x). simpl. now rewrite <- Hx.
Qed.

Lemma dash_stops_clean : stops_clean re_dash.
Proof.
  intros b a q g rest E. pose proof (matches_dash b a) as H.
  destruct a as [|c [|w a]]; try congruence.
  destruct (at_line_start b && (one_of [45; STAR]%N c && isspace w));
    [|congruence].
  destruct H as [rest' H]. rewrite H in E. injection E as <- _ _.
  cbn [snd]. split; [apply lead_after_space|]. split.
  - pose proof (drop_while_length isspace a). simpl. lia.
  - destruct (drop_while_suffix isspace a) as [x Hx].
    exists (c :: w :: x). simpl. now rewrite <- Hx.
Qed.

(** Deleting what such a pattern finds brings no line feeds together. *)
Lemma sub_go_delete_no3 (r : regex) (fuel : nat) :
  stops_clean r ->
  forall b a : pystr,
    length a < fuel -> no3 a = true ->
    no3 (sub_go r [] fuel (b, a)) = true
    /\ lead (sub_go r [] fuel (b, a)) <= lead a.
Proof.
  intros Hr. induction fuel as [|fuel IH]; intros b a Hf Ha; [lia|].
  rewrite sub_go_S.
  assert (Hcopy : no3 match a with
                      | [] => []
                      | c :: a' => c :: sub_go r [] fuel (c :: b, a')
                      end = true
                  /\ lead match a with
                          | [] => []
                          | c :: a' => c :: sub_go r [] fuel (c :: b, a')
                          end <= lead a).
  { destruct a as [|c a']; [split; [reflexivity|lia]|].
    simpl in Hf. pose proof (no3_lead _ Ha) as Hl.
    rewrite no3_cons in Ha. apply andb_true_iff in Ha.
    destruct Ha as [_ Ha']. destruct (IH (c :: b) a') as [Hn Hle]; [lia|exact Ha'|].
    rewrite no3_cons, Hn, andb_true_r, Nat.leb_le, !lead_cons.
    rewrite lead_cons in Hl. destruct (N.eqb NL c); split; lia. }
  destruct (matches r (b, a)) as [|[q g] rest] eqn:E; [exact Hcopy|].
  destruct (Hr b a q g rest E) as (Hq & Hlen & x & Hx).
  cbn [snd fst]. rewrite (proj2 (Nat.ltb_lt _ _) Hlen).
  cbn [expand flat_map app]. destruct q as [qb qa]. cbn [snd] in *.
  destruct (IH qb qa) as [Hn Hle]; [lia| |].
  - rewrite Hx in Ha. now apply no3_suffix in Ha.
  - split; [exact Hn|lia].
Qed.

Lemma sub_delete_no3 (r : regex) (s : pystr) :
  stops_clean r -> no3 s = true -> no3 (sub r [] s) = true.
Proof.
  intros Hr Hs. apply (sub_go_delete_no3 r (S (length s)) Hr [] s);
    [lia|exact Hs].
Qed.

(** Where no line starts with a marker the two patterns find nothing. *)
Lemma marker_free_everywhere (s : pystr) :
  forall b x y,
    marker_free_from b s = true -> s = x ++ y ->
    at_line_start (rev x ++ b) && marker_here y = false.
Proof.
  induction s as [|c s IH]; intros b x y H E.
  - destruct x; [|discriminate]. destruct y; [|discriminate].
    cbn [marker_here]. apply andb_false_r.
  - cbn [marker_free_from] in H. apply andb_true_iff in H.
    destruct H as [H0 Hs]. destruct x as [|c' x].
    + cbn [rev app] in *. subst y. now apply negb_true_iff in H0.
    + cbn [app] in E. injection E as <- E. cbn [rev].
      rewrite <- app_assoc. now apply (IH (c :: b) x y).
Qed.

Lemma marker_free_bullet (s : pystr) :
  marker_free s = true -> sub re_bullet [] s = s.
Proof.
  intros H. apply sub_nowhere. intros x y E.
  pose proof (marker_free_everywhere s [] x y H E) as Hm.
  rewrite app_nil_r in Hm. pose proof (matches_bullet (rev x) y) as Hb.
  destruct y as [|c y]; [exact Hb|].
  destruct (at_line_start (rev x)); cbn [andb] in *; [|exact Hb].
  cbn [marker_here] in Hm. apply orb_false_iff in Hm.
  destruct Hm as [Hm _]. now rewrite Hm in Hb.
Qed.

Lemma marker_free_dash (s : pystr) :
  marker_free s = true -> sub re_dash [] s = s.
Proof.
  intros H. apply sub_nowhere. intros x y E.
  pose proof (marker_free_everywhere s [] x y H E) as Hm.
  rewrite app_nil_r in Hm. pose proof (matches_dash (rev x) y) as Hd.
  destruct y as [|c [|w y]]; try exact Hd.
  destruct (at_line_start (rev x)); cbn [andb] in *; [|exact Hd].
  cbn [marker_here] in Hm. apply orb_false_iff in Hm.
  destruct Hm as [_ Hm]. now rewrite Hm in Hd.
Qed.

(** The cleaned content has no three line feeds in a row. *)
Lemma clean_body_no3 (s : pystr) : no3 (clean_body s) = true.
Proof.
  unfold clean_body. apply no3_strip.
  apply sub_delete_no3; [apply dash_stops_clean|].
  apply sub_delete_no3; [apply bullet_stops_clean|].
  apply sub_blank_lines_no3.
Qed.

Lemma plain_not_in_star (cs : list N) (s : pystr) :
  Forall (plain cs) s -> ~ In STAR s.
Proof.
  intros H Hin. rewrite Forall_forall in H. now destruct (H _ Hin).
Qed.

(** Cleaning content that is already clean, when no line of it starts with
    a list marker, changes nothing. *)
Lemma clean_body_again (s : pystr) :
  marker_free (clean_body s) = true ->
  clean_body (clean_body s) = clean_body s.
Proof.
  intros Hm. pose proof (clean_body_plain s) as Hp.
  pose proof (clean_body_no3 s) as Hn.
  unfold clean_body at 1.
  unfold re_bold, re_italic.
  rewrite (no_star_nowhere _ _ _ (plain_not_in_star _ _ Hp)).
  rewrite (no_star_nowhere _ _ _ (plain_not_in_star _ _ Hp)).
  rewrite (plain_no_star _ _ Hp).
  unfold re_content_symbols. rewrite (plain_no_symbol _ _ Hp).
  rewrite (sub_blank_lines_fixed _ Hn).
  rewrite (marker_free_bullet _ Hm), (marker_free_dash _ Hm).
  unfold clean_body. apply strip_idem.
Qed.

End Markers.

(** ** The sanitizer as a whole *)

Lemma blog_data_eq (d e : blog_data) :
  title d = title e -> content d = content e -> hashtags d = hashtags e ->
  call_to_action d = call_to_action e -> full_post d = full_post e -> d = e.
Proof. destruct d, e; simpl; intros; now subst. Qed.

Lemma filter_filter (f g : N -> bool) (s : pystr) :
  filter g (filter f s) = filter (fun c => f c && g c) s.
Proof.
  induction s as [|c s IH]; [reflexivity|]. cbn [filter].
  destruct (f c); cbn [filter andb]; [|exact IH].
  destruct (g c); now rewrite IH.
Qed.

Lemma no3_no_triple (s : pystr) :
  no3 s = true -> contains [NL; NL; NL] s = false.
Proof.
  induction s as [|c s IH]; [reflexivity|]. rewrite no3_cons.
  rewrite andb_true_iff, Nat.leb_le. intros [Hl Hs].
  cbn [contains]. rewrite (IH Hs), orb_false_r.
  destruct (startswith [NL; NL; NL] (c :: s)) eqn:E; [exfalso|reflexivity].
  apply startswith_inv in E. destruct E as [after E]. rewrite E in Hl.
  cbn [app] in Hl. rewrite !lead_cons, N.eqb_refl in Hl. lia.
Qed.

(** Sanitizing twice: the title, the hashtags and the call to action are
    those of sanitizing once, and the raw response is never touched. *)
Theorem sanitizer_again_outside_content :
  forall {U : Unicode} (d : blog_data),
    title (_clean_content (_clean_content d)) = title (_clean_content d)
    /\ hashtags (_clean_content (_clean_content d))
       = hashtags (_clean_content d)
    /\ call_to_action (_clean_content (_clean_content d))
       = call_to_action (_clean_content d)
    /\ full_post (_clean_content (_clean_content d)) = full_post d.
Proof.
  intros U d.
  destruct (clean_content_fields (_clean_content d))
    as (-> & _ & -> & -> & ->).
  destruct (clean_content_fields d) as (-> & _ & -> & -> & ->).
  split; [apply clean_title_again|].
  split; [apply clean_hashtags_again|].
  split; [apply clean_call_to_action_again|reflexivity].
Qed.

(** When no line of the sanitized content starts with a list marker,
    sanitizing again gives the same record. *)
Theorem sanitizer_again_without_markers :
  forall {U : Unicode} (d : blog_data),
    marker_free (content (_clean_content d)) = true ->
    _clean_content (_clean_content d) = _clean_content d.
Proof.
  intros U d Hm.
  destruct (clean_content_fields (_clean_content d))
    as (Ht & Hc & Hh & Ha & Hf).
  destruct (clean_content_fields d) as (Ht' & Hc' & Hh' & Ha' & Hf').
  apply blog_data_eq.
  - rewrite Ht, Ht'. apply clean_title_again.
  - rewrite Hc, Hc'. rewrite Hc' in Hm. now apply clean_body_again.
  - rewrite Hh, Hh'. apply clean_hashtags_again.
  - rewrite Ha, Ha'. apply clean_call_to_action_again.
  - exact Hf.
Qed.

(** A content with emphasis, a symbol, a run of blank lines and a bullet. *)
Lemma sanitizer_again_witness :
  _clean_content (U := ascii_tables)
    (_clean_content (U := ascii_tables)
       (content_only
          (py "- **Bold** start" ++ [NL; NL; NL; NL; 0x1F680%N]
             ++ py " *then* more")))
  = _clean_content (U := ascii_tables)
      (content_only
         (py "- **Bold** start" ++ [NL; NL; NL; NL; 0x1F680%N]
            ++ py " *then* more")).
Proof.
  apply (sanitizer_again_without_markers (U := ascii_tables)).
  vm_compute. reflexivity.
Defined.

(** The sanitized content never holds three line feeds in a row, and every
    sanitized field is free of whitespace at both ends. *)
Theorem sanitized_fields_are_trimmed :
  forall {U : Unicode} (d : blog_data),
    contains [NL; NL; NL] (content (_clean_content d)) = false
    /\ strip (title (_clean_content d)) = title (_clean_content d)
    /\ strip (content (_clean_content d)) = content (_clean_content d)
    /\ strip (hashtags (_clean_content d)) = hashtags (_clean_content d)
    /\ strip (call_to_action (_clean_content d))
       = call_to_action (_clean_content d).
Proof.
  intros U d. destruct (clean_content_fields d) as (-> & -> & -> & -> & _).
  split; [apply no3_no_triple, clean_body_no3|].
  unfold clean_title, clean_body, clean_hashtags, clean_call_to_action.
  now rewrite !strip_idem.
Qed.

(** The title and the call to action are cleaned alike, whatever the order
    of the two substitutions: asterisks and symbols deleted, the rest kept in
    order, then trimmed. *)
Theorem title_and_call_to_action_keep_the_rest :
  forall {U : Unicode} (d : blog_data),
    title (_clean_content d) = strip (filter kept (title d))
    /\ call_to_action (_clean_content d)
       = strip (filter kept (call_to_action d)).
Proof.
  intros U d. destruct (clean_content_fields d) as (-> & _ & _ & -> & _).
  unfold clean_title, clean_call_to_action, re_title_symbols, re_stars, Chr.
  rewrite !sub_cls, !sub_plus_cls, !filter_filter. split.
  - reflexivity.
  - f_equal. apply filter_ext. intros c. apply andb_comm.
Qed.

(** ** The parser on any response *)

Lemma parse_line_full_post (st : option section * blog_data) (raw : pystr) :
  full_post (snd (parse_line st raw)) = full_post (snd st).
Proof.
  destruct st as [cur d]. unfold parse_line, open_section.
  repeat match goal with
    | |- context [if ?c then _ else _] => destruct c
    | |- context [match ?c with Some _ => _ | None => _ end] => destruct c
    | k : section |- _ => destruct k
    end; reflexivity.
Qed.

Lemma parse_lines_full_post (ls : list pystr) :
  forall st, full_post (snd (fold_left parse_line ls st)) = full_post (snd st).
Proof.
  induction ls as [|l ls IH]; intros st; [reflexivity|].
  cbn [fold_left]. now rewrite IH, parse_line_full_post.
Qed.

Lemma clean_empty_blog_data {U : Unicode} (text : pystr) :
  _clean_content (empty_blog_data text) = empty_blog_data text.
Proof. reflexivity. Qed.

(** Whatever the response, the parsed record keeps it whole as its
    [full_post]; and a response in which no line starts with a label gives
    four empty fields. *)
Theorem parser_on_unlabelled_response :
  forall {U : Unicode} (response_text : pystr),
    full_post (_parse_blog_response response_text) = response_text
    /\ (forallb unlabelled (split_lines response_text) = true ->
        _parse_blog_response response_text = empty_blog_data response_text).
Proof.
  intros U text. split.
  - unfold _parse_blog_response.
    destruct (clean_content_fields (parse_sections text)) as (_ & _ & _ & _ & ->).
    unfold parse_sections. now rewrite parse_lines_full_post.
  - intros H. unfold _parse_blog_response, parse_sections.
    now rewrite (parse_leading_lines _ _ H).
Qed.

(** An apology instead of a post. *)
Lemma parser_unlabelled_witness :
  _parse_blog_response (U := ascii_tables)
    (py "I cannot write about that." ++ NL :: py "Title: none")
  = empty_blog_data (py "I cannot write about that." ++ NL :: py "Title: none").
Proof.
  apply (parser_on_unlabelled_response (U := ascii_tables)). reflexivity.
Defined.

Lemma parse_blocks (bs : list (section * pystr * list pystr)) :
  forall (cur : option section) (d : blog_data),
    forallb block_well_formed bs = true ->
    snd (fold_left parse_line (flat_map block_lines_of bs) (cur, d))
    = fold_left record_block bs d.
Proof.
  induction bs as [|[[k first] more] bs IH]; intros cur d; [reflexivity|].
  cbn [forallb flat_map fold_left block_well_formed block_lines_of
         record_block].
  rewrite andb_true_iff. intros [Hb Hbs].
  rewrite fold_left_app, (parse_block k first more cur d Hb).
  now apply IH.
Qed.

Lemma blocks_lines (bs : list (section * pystr * list pystr)) :
  forallb block_well_formed bs = true ->
  forallb (fun l => negb (existsb (N.eqb NL) l)) (flat_map block_lines_of bs)
  = true.
Proof.
  induction bs as [|[[k first] more] bs IH]; [reflexivity|].
  cbn [forallb flat_map block_well_formed block_lines_of].
  rewrite andb_true_iff. intros [Hb Hbs].
  now rewrite forallb_app, (block_lines k first more Hb), IH.
Qed.

(** Sections may come in any order and any number of times.  When no
    section repeats its own label in the text after it, and the lines that
    follow a label start with none, each section sets its field to its body,
    so the last section with a label decides that field. *)
Theorem parser_last_section_wins :
  forall {U : Unicode} (pre : list pystr)
         (bs : list (section * pystr * list pystr)),
    forallb unlabelled pre = true ->
    forallb block_well_formed bs = true ->
    let response_text := join_lines (pre ++ flat_map block_lines_of bs) in
    _parse_blog_response response_text
    = _clean_content (fold_left record_block bs
                        (empty_blog_data response_text))
    /\ forall bs' k first more,
         bs = bs' ++ [(k, first, more)] ->
         get_section k (parse_sections response_text)
         = section_body first more.
Proof.
  intros U pre bs Hpre Hbs text.
  assert (Hparse : parse_sections text
                   = fold_left record_block bs (empty_blog_data text)).
  { unfold parse_sections, text.
    set (ls := pre ++ flat_map block_lines_of bs).
    assert (El : ls = pre ++ flat_map block_lines_of bs) by reflexivity.
    assert (Hls : forallb (fun l => negb (existsb (N.eqb NL) l)) ls = true).
    { rewrite El, forallb_app, (unlabelled_lines pre Hpre).
      now apply blocks_lines. }
    assert (Hfold : snd (fold_left parse_line ls
                           (None, empty_blog_data (join_lines ls)))
                    = fold_left record_block bs
                        (empty_blog_data (join_lines ls))).
    { rewrite El at 1. rewrite fold_left_app.
      rewrite (parse_leading_lines pre _ Hpre). now apply parse_blocks. }
    clearbody ls. destruct ls as [|l ls].
    - symmetry in El. apply app_eq_nil in El. destruct El as [-> Hfl].
      destruct bs as [|[[k first] more] bs]; [reflexivity|discriminate].
    - rewrite split_join_lines; [exact Hfold|discriminate|exact Hls]. }
  split.
  - unfold _parse_blog_response. now rewrite Hparse.
  - intros bs' k first more ->. rewrite Hparse, fold_left_app.
    cbn [fold_left record_block]. apply get_set_section.
Qed.

(** Hashtags before the title, and the title given twice. *)
Lemma parser_last_section_witness :
  get_section sec_title
    (parse_sections
       (join_lines
          ([py "Post:"]
             ++ flat_map block_lines_of
                  ([(sec_hashtags, py " ai", []);
                    (sec_title, py " Draft", [])]
                     ++ [(sec_title, py " Final", [py "edition"])]))))
  = section_body (py " Final") [py "edition"].
Proof.
  apply (proj2
           (parser_last_section_wins (U := ascii_tables) [py "Post:"]
              ([(sec_hashtags, py " ai", []); (sec_title, py " Draft", [])]
                 ++ [(sec_title, py " Final", [py "edition"])])
              eq_refl eq_refl)
           [(sec_hashtags, py " ai", []); (sec_title, py " Draft", [])]).
  reflexivity.
Defined.

(** ** Sending to lists *)

Lemma dict_get_set {V : Type} (k k' : pystr) (v : V) (d : pydict V) :
  dict_get k (dict_set k' v d)
  = if pystr_eqb k k' then Some v else dict_get k d.
Proof.
  induction d as [|[k0 v0] d IH]; cbn [dict_set dict_get].
  - reflexivity.
  - destruct (pystr_eqb k' k0) eqn:E0; cbn [dict_get].
    + apply pystr_eqb_eq in E0. subst k0. now destruct (pystr_eqb k k').
    + rewrite IH. destruct (pystr_eqb k k0) eqn:E1; [|reflexivity].
      apply pystr_eqb_eq in E1. subst k0.
      destruct (pystr_eqb k k') eqn:E2; [|reflexivity].
      apply pystr_eqb_eq in E2. subst k'.
      now rewrite pystr_eqb_refl in E0.
Qed.

Lemma dict_update_all_keys {V : Type} (kvs : list (pystr * V)) :
  forall d : pydict V,
    dict_keys (dict_update_all d kvs)
    = fold_left add_distinct (map fst kvs) (dict_keys d).
Proof.
  induction kvs as [|[k v] kvs IH]; intros d; [reflexivity|].
  unfold dict_update_all in *. cbn [fold_left map fst snd].
  now rewrite IH, dict_keys_set.
Qed.

Lemma dict_update_all_app {V : Type} (d : pydict V)
  (xs ys : list (pystr * V)) :
  dict_update_all d (xs ++ ys) = dict_update_all (dict_update_all d xs) ys.
Proof. apply fold_left_app. Qed.

(** The value under a key is the one assigned last. *)
Lemma dict_update_all_last {V : Type} (kvs : list (pystr * V)) :
  forall (d : pydict V) (k : pystr) (v : V),
    dict_get k d = Some v -> ~ In k (map fst kvs) ->
    dict_get k (dict_update_all d kvs) = Some v.
Proof.
  induction kvs as [|[k' v'] kvs IH]; intros d k v Hd Hk; [exact Hd|].
  unfold dict_update_all in *. cbn [fold_left fst snd].
  apply IH.
  - rewrite dict_get_set, pystr_eqb_neq; [exact Hd|].
    intros ->. apply Hk. now left.
  - intros Hin. apply Hk. now right.
Qed.

(** The loop of [send_to_multiple_recipients] on any list: a message for
    each entry, and each answer assigned under its address. *)
Lemma send_all (self : EmailSender) (blog_post : pydict pystr)
  (subject_prefix : pystr) (subjects : option (pydict pystr))
  (rs : list pystr) :
  forall (results : pydict bool) (box : outbox),
    exists sent,
      fold_left (send_one self blog_post subject_prefix subjects) rs
        (results, box)
      = (dict_update_all results (combine rs (relay_run self box sent)),
         box ++ sent)
      /\ map msg_to sent = rs
      /\ map msg_subject sent
         = map (subject_for blog_post subject_prefix subjects) rs
      /\ Forall (fun m => msg_from m = sender_email self) sent.
Proof.
  induction rs as [|r rs IH]; intros results box.
  - exists []. cbn. rewrite app_nil_r. repeat split. constructor.
  - cbn [fold_left]. unfold send_one at 2. unfold _send_email.
    match goal with
    | |- context [box ++ [?m]] => set (m0 := m)
    end.
    destruct (IH (dict_set r (relay_accepts self box m0) results)
                (box ++ [m0])) as (sent & E & Hto & Hsub & Hfrom).
    exists (m0 :: sent). rewrite E. cbn [map combine relay_run].
    rewrite <- app_assoc, Hto, Hsub.
    split; [reflexivity|]. split; [reflexivity|]. split.
    + unfold subject_for, m0. cbn [msg_subject]. now destruct subjects.
    + constructor; [reflexivity|exact Hfrom].
Qed.

Lemma combine_split_at {A B : Type} (before : list A) (r : A)
  (after : list A) :
  forall run : list B,
    length run = length (before ++ r :: after) ->
    exists answers ok later,
      nth_error run (length before) = Some ok
      /\ combine (before ++ r :: after) run
         = combine before answers ++ (r, ok) :: combine after later.
Proof.
  induction before as [|b before IH]; intros [|x run] Hlen;
    try discriminate.
  - now exists [], x, run.
  - cbn [app length] in Hlen. injection Hlen as Hlen.
    destruct (IH run Hlen) as (answers & ok & later & Hn & Hc).
    exists (x :: answers), ok, later. split; [exact Hn|].
    cbn [app combine]. now rewrite Hc.
Qed.


(** ** Sending several posts *)

Lemma numbered_titles_length (posts : list (pydict pystr)) :
  forall i, length (numbered_titles i posts) = length posts.
Proof.
  induction posts as [|p ps IH]; intros i; [reflexivity|].
  cbn [numbered_titles length]. now rewrite IH.
Qed.

Lemma dict_set_tabulate {V : Type} (f : pystr -> V) (e : pystr)
  (seen : list pystr) :
  dict_set e (f e) (map (fun x => (x, f x)) seen)
  = map (fun x => (x, f x)) (add_distinct seen e).
Proof.
  induction seen as [|k seen IH].
  - reflexivity.
  - unfold add_distinct in *. cbn [map dict_set existsb].
    destruct (pystr_eqb e k) eqn:Ek; cbn [orb].
    + apply pystr_eqb_eq in Ek. now subst k.
    + rewrite IH. now destruct (existsb (pystr_eqb e) seen).
Qed.

(** The loop of [send_multiple_posts] when there is someone to write to. *)
Lemma send_posts_to (self : EmailSender)
  (recipient_email recipient : option pystr) (r : pystr) :
  py_or recipient recipient_email = Some r -> truthy r = true ->
  forall (posts : list (pydict pystr)) (results : pydict bool)
         (box : outbox) (i : nat),
    exists sent,
      fold_left (send_post_numbered self recipient_email recipient) posts
        (results, box, i)
      = (dict_update_all results
           (combine (numbered_titles i posts) (relay_run self box sent)),
         box ++ sent, i + length posts)
      /\ map msg_to sent = map (fun _ => r) posts
      /\ map msg_subject sent = numbered_subjects i posts
      /\ map msg_text sent = map (email_body self) posts.
Proof.
  intros Hor Hr. induction posts as [|p ps IH]; intros results box i.
  - exists []. cbn. now rewrite app_nil_r, Nat.add_0_r.
  - cbn [fold_left]. unfold send_post_numbered at 2.
    unfold send_blog_post. rewrite Hor, Hr. unfold _send_email.
    match goal with
    | |- context [box ++ [?m]] => set (m0 := m)
    end.
    destruct (IH (dict_set
                    (dict_get_default (py "title")
                       (py "Post " ++ decimal (i + 1)) p)
                    (relay_accepts self box m0) results)
                (box ++ [m0]) (S i)) as (sent & E & Hto & Hsub & Htext).
    exists (m0 :: sent). rewrite E.
    cbn [map combine relay_run numbered_titles numbered_subjects length].
    rewrite <- app_assoc, Hto, Hsub, Htext, (Nat.add_succ_r i (length ps)).
    split; [reflexivity|]. split; [reflexivity|]. split; reflexivity.
Qed.

(** The same loop when there is no one to write to. *)
Lemma send_posts_nowhere (self : EmailSender)
  (recipient_email recipient : option pystr) :
  truthy_opt (py_or recipient recipient_email) = false ->
  forall (posts : list (pydict pystr)) (results : pydict bool)
         (box : outbox) (i : nat),
    fold_left (send_post_numbered self recipient_email recipient) posts
      (results, box, i)
    = (dict_update_all results
         (map (fun t => (t, false)) (numbered_titles i posts)),
       box, i + length posts).
Proof.
  intros Hor. induction posts as [|p ps IH]; intros results box i.
  - cbn. now rewrite Nat.add_0_r.
  - cbn [fold_left]. unfold send_post_numbered at 2.
    assert (E : send_blog_post self recipient_email box p recipient
                  (py "Blog Post " ++ decimal (i + 1)) = (false, box)).
    { unfold send_blog_post.
      destruct (py_or recipient recipient_email) as [r|]; [|reflexivity].
      cbn [truthy_opt] in Hor. now rewrite Hor. }
    rewrite E, IH. cbn [numbered_titles map length].
    now rewrite (Nat.add_succ_r i (length ps)).
Qed.

Lemma update_all_false (ts : list pystr) :
  forall seen : list pystr,
    dict_update_all (map (fun t => (t, false)) seen)
      (map (fun t => (t, false)) ts)
    = map (fun t => (t, false)) (fold_left add_distinct ts seen).
Proof.
  induction ts as [|t ts IH]; intros seen; [reflexivity|].
  unfold dict_update_all in *. cbn [map fold_left fst snd].
  now rewrite (dict_set_tabulate (fun _ => false)), IH.
Qed.



(** ** Generating several posts *)

(** The loop of [generate_multiple_posts] from the call numbered [call]. *)
Lemma generate_from {U : Unicode}
  (generate_content : nat -> pystr -> api_outcome) (clock : nat -> pystr)
  (tone length target_audience : pystr)
  (include_hashtags include_call_to_action : bool) (topics : list pystr) :
  forall call : nat,
    let posts :=
      generate_multiple_posts_from generate_content clock call topics tone
        length target_audience include_hashtags include_call_to_action in
    let made :=
      filter (answered generate_content tone length target_audience
                include_hashtags include_call_to_action)
        (combine (seq call (List.length topics)) topics) in
    map post_topic posts = map snd made
    /\ map generated_at posts = map (fun it => clock (fst it)) made
    /\ Forall (fun p => post_tone p = tone /\ post_length p = length) posts
    /\ subsequence (map post_topic posts) topics.
Proof.
  induction topics as [|topic rest IH]; intros call.
  - cbn. repeat split; constructor.
  - destruct (IH (S call)) as (Ht & Hg & Hp & Hs).
    assert (Ha : answered generate_content tone length target_audience
                   include_hashtags include_call_to_action (call, topic)
                 = match generate_content call
                           (_create_blog_prompt topic tone length
                              target_audience include_hashtags
                              include_call_to_action) with
                   | api_text text => truthy text
                   | api_raises _ => false
                   end) by reflexivity.
    cbn [generate_multiple_posts_from List.length seq combine filter].
    rewrite Ha. unfold generate_blog_post. cbn [fst snd].
    destruct (generate_content call _) as [text|message].
    + destruct (truthy text); cbn [map fst snd post_topic generated_at].
      * split; [now rewrite Ht|]. split; [now rewrite Hg|].
        split; [constructor; [now split|exact Hp]|].
        now apply subsequence_keep.
      * split; [exact Ht|]. split; [exact Hg|]. split; [exact Hp|].
        now apply subsequence_skip.
    + split; [exact Ht|]. split; [exact Hg|]. split; [exact Hp|].
      now apply subsequence_skip.
Qed.

(** [generate_multiple_posts] asks the model once for each topic, in order,
    and returns a post for exactly the topics the model answered with a text
    that is not empty, in the order of the topics: a failure costs its own
    post and no other.  Each post has the time of its own call, and the tone
    and length asked for. *)
Theorem generate_multiple_posts_skips_failures :
  forall {U : Unicode} (generate_content : nat -> pystr -> api_outcome)
         (clock : nat -> pystr) (topics : list pystr)
         (tone length target_audience : pystr)
         (include_hashtags include_call_to_action : bool),
    let posts :=
      generate_multiple_posts generate_content clock topics tone length
        target_audience include_hashtags include_call_to_action in
    let made :=
      filter (answered generate_content tone length target_audience
                include_hashtags include_call_to_action)
        (combine (seq 0 (List.length topics)) topics) in
    map post_topic posts = map snd made
    /\ map generated_at posts = map (fun it => clock (fst it)) made
    /\ Forall (fun p => post_tone p = tone /\ post_length p = length) posts
    /\ subsequence (map post_topic posts) topics.
Proof.
  intros U generate_content clock topics tone length target_audience
    include_hashtags include_call_to_action.
  apply (generate_from generate_content clock tone length target_audience
           include_hashtags include_call_to_action topics 0).
Qed.

(** ** Topic suggestions *)

Lemma topic_labels_eq :
  topic_labels
  = [py "1."; py "2."; py "3."; py "4."; py "5."; py "6."; py "7.";
     py "8."; py "9."; py "10."].
Proof. reflexivity. Qed.

(** A prefix is one or two digits and a full stop. *)
Lemma topic_label_shape (lab : pystr) :
  In lab topic_labels ->
  exists d ds,
    lab = (d :: ds) ++ [DOT] /\ isspace d = false
    /\ existsb (N.eqb DOT) (d :: ds) = false
    /\ existsb (N.eqb NL) lab = false.
Proof.
  rewrite topic_labels_eq. cbn [In].
  intros H.
  repeat (destruct H as [<-|H];
          [eexists _, [];
           (split; [reflexivity|]); split; [reflexivity|];
           split; reflexivity|]).
  destruct H as [<-|[]]. exists 49%N, [48%N].
  split; [reflexivity|]. split; [reflexivity|]. split; reflexivity.
Qed.

Lemma after_first_app (sep : N) (x y : pystr) :
  existsb (N.eqb sep) x = false -> after_first sep (x ++ sep :: y) = y.
Proof.
  induction x as [|c x IH]; cbn [existsb app after_first].
  - intros _. now rewrite N.eqb_refl.
  - rewrite orb_false_iff. intros [Hc Hx].
    rewrite N.eqb_sym in Hc. now rewrite Hc, IH.
Qed.

Lemma strip_topic_label (lab text : pystr) :
  In lab topic_labels -> strip (lab ++ text) = lab ++ rstrip text.
Proof.
  intros H. destruct (topic_label_shape lab H) as (d & ds & -> & Hd & _).
  unfold strip.
  assert (Hl : lstrip (((d :: ds) ++ [DOT]) ++ text)
               = ((d :: ds) ++ [DOT]) ++ text)
    by (cbn [app lstrip]; now rewrite Hd).
  rewrite Hl, rstrip_app. destruct (all_space text) eqn:E; [|reflexivity].
  rewrite (rstrip_all_space text E), app_nil_r, rstrip_app.
  reflexivity.
Qed.

(** A numbered line gives what follows its prefix, trimmed. *)
Lemma topic_of_numbered_line (lab text : pystr) :
  In lab topic_labels -> topic_of_line (lab ++ text) = [strip text].
Proof.
  intros H. unfold topic_of_line. rewrite (strip_topic_label lab text H).
  assert (Hn : existsb (fun l => startswith l (lab ++ rstrip text))
                 topic_labels = true).
  { apply existsb_exists. exists lab. split; [exact H|].
    apply startswith_app. }
  rewrite Hn.
  destruct (topic_label_shape lab H) as (d & ds & -> & _ & Hdot & _).
  cbn [app truthy andb]. rewrite <- app_assoc. cbn [app].
  assert (Hd : existsb (N.eqb DOT) (d :: ds ++ DOT :: rstrip text) = true).
  { change (d :: ds ++ DOT :: rstrip text)
      with ((d :: ds) ++ DOT :: rstrip text).
    rewrite existsb_app. cbn [existsb]. rewrite N.eqb_refl.
    now rewrite orb_true_r. }
  rewrite Hd.
  change (d :: ds ++ DOT :: rstrip text)
    with ((d :: ds) ++ DOT :: rstrip text).
  now rewrite (after_first_app DOT (d :: ds) _ Hdot), strip_rstrip.
Qed.

(** Any other line gives nothing. *)
Lemma topic_of_other_line (other : pystr) :
  numbered other = false -> topic_of_line other = [].
Proof.
  unfold numbered, topic_of_line. intros ->. now rewrite andb_false_r.
Qed.

Lemma topic_of_line_trimmed (raw : pystr) :
  Forall (fun t => strip t = t) (topic_of_line raw).
Proof.
  unfold topic_of_line.
  destruct (truthy (strip raw) && _); [|constructor].
  constructor; [|constructor].
  destruct (existsb (N.eqb DOT) (strip raw)); apply strip_idem.
Qed.

Lemma topics_of_lines (lines : list (pystr + pystr * pystr)) :
  forallb suggestion_line_ok lines = true ->
  flat_map topic_of_line (map suggestion_line lines)
  = flat_map suggested lines
  /\ forallb one_line (map suggestion_line lines) = true.
Proof.
  induction lines as [|x lines IH]; [now split|].
  cbn [forallb map flat_map]. rewrite andb_true_iff. intros [Hx Hl].
  destruct (IH Hl) as [-> ->]. rewrite andb_true_r.
  destruct x as [other|[lab text]]; cbn [suggestion_line_ok] in Hx;
    apply andb_true_iff in Hx; destruct Hx as [H1 H2];
    cbn [suggestion_line suggested].
  - apply negb_true_iff in H2. rewrite (topic_of_other_line other H2).
    now split.
  - apply existsb_pystr_eqb in H1.
    rewrite (topic_of_numbered_line lab text H1). split; [reflexivity|].
    unfold one_line in *. rewrite existsb_app, negb_orb, H2, andb_true_r.
    destruct (topic_label_shape lab H1) as (_ & _ & _ & _ & _ & ->).
    reflexivity.
Qed.

(** [get_topic_suggestions] reads a response line by line.  A line that,
    trimmed, starts with one of [1.] to [10.] gives the text after its first
    full stop, trimmed, whatever that text is; any other line gives nothing.
    So the topics come back trimmed and in the order of the lines, and when
    the call to the model fails there are none. *)
Theorem topic_suggestions_of_numbered_list :
  forall (generate_content : pystr -> api_outcome) (industry : pystr)
         (keywords : list pystr),
    let topics := get_topic_suggestions generate_content industry keywords in
    (forall message,
        generate_content (suggestions_prompt industry keywords)
        = api_raises message ->
        topics = [])
    /\ Forall (fun t => strip t = t) topics
    /\ (forall lines,
          forallb suggestion_line_ok lines = true ->
          generate_content (suggestions_prompt industry keywords)
          = api_text (join_lines (map suggestion_line lines)) ->
          topics = flat_map suggested lines).
Proof.
  intros generate_content industry keywords topics. unfold topics.
  unfold get_topic_suggestions. split; [|split].
  - now intros message ->.
  - destruct (generate_content _) as [text|message]; [|constructor].
    induction (split_lines text) as [|l ls IH]; [constructor|].
    cbn [flat_map]. apply Forall_app. split; [|exact IH].
    apply topic_of_line_trimmed.
  - intros lines Hok ->. destruct (topics_of_lines lines Hok) as [Ht Hl].
    destruct lines as [|x lines]; [reflexivity|].
    rewrite split_join_lines; [exact Ht|discriminate|exact Hl].
Qed.

(** An introduction, a blank line, numbers out of order, and a number with
    nothing after it. *)
Lemma topic_suggestions_witness :
  get_topic_suggestions
    (fun _ =>
       api_text
         (join_lines
            (map suggestion_line
               [inl (py "Here are some ideas:"); inr (py "1.", py " AI in hiring ");
                inl []; inr (py "10.", py "5 trends"); inr (py "2.", [])])))
    (py "tech") []
  = [py "AI in hiring"; py "5 trends"; []].
Proof.
  apply (proj2 (proj2
           (topic_suggestions_of_numbered_list
              (fun _ =>
                 api_text
                   (join_lines
                      (map suggestion_line
                         [inl (py "Here are some ideas:");
                          inr (py "1.", py " AI in hiring ");
                          inl []; inr (py "10.", py "5 trends");
                          inr (py "2.", [])])))
              (py "tech") []))
           [inl (py "Here are some ideas:");
            inr (py "1.", py " AI in hiring ");
            inl []; inr (py "10.", py "5 trends"); inr (py "2.", [])]);
    reflexivity.
Defined.

(** ** Validation of a list *)

Lemma existsb_filter_same (f : pystr -> bool) (x : pystr)
  (seen : list pystr) :
  f x = true ->
  existsb (pystr_eqb x) (filter f seen) = existsb (pystr_eqb x) seen.
Proof.
  intros Hx. induction seen as [|y seen IH]; [reflexivity|].
  cbn [filter existsb]. destruct (pystr_eqb x y) eqn:E.
  - apply pystr_eqb_eq in E. subst y. rewrite Hx. cbn [existsb].
    now rewrite pystr_eqb_refl.
  - destruct (f y); cbn [existsb]; now rewrite ?E, IH.
Qed.

Lemma add_distinct_filter (f : pystr -> bool) (seen : list pystr)
  (x : pystr) :
  filter f (add_distinct seen x)
  = if f x then add_distinct (filter f seen) x else filter f seen.
Proof.
  unfold add_distinct. destruct (f x) eqn:Hx.
  - rewrite (existsb_filter_same f x seen Hx).
    destruct (existsb (pystr_eqb x) seen); [reflexivity|].
    rewrite filter_app. cbn [filter]. now rewrite Hx.
  - destruct (existsb (pystr_eqb x) seen); [reflexivity|].
    rewrite filter_app. cbn [filter]. now rewrite Hx, app_nil_r.
Qed.

Lemma fold_distinct_filter (f : pystr -> bool) (l : list pystr) :
  forall seen,
    filter f (fold_left add_distinct l seen)
    = fold_left add_distinct (filter f l) (filter f seen).
Proof.
  induction l as [|x l IH]; intros seen; [reflexivity|].
  cbn [fold_left filter]. rewrite IH, add_distinct_filter.
  now destruct (f x).
Qed.

(** Selecting before or after dropping the repeats gives the same list. *)
Lemma distinct_filter (f : pystr -> bool) (l : list pystr) :
  filter f (distinct l) = distinct (filter f l).
Proof. apply (fold_distinct_filter f l []). Qed.

Lemma dict_get_absent {V : Type} (f : pystr -> V) (k : pystr)
  (ks : list pystr) :
  ~ In k ks -> dict_get k (map (fun e => (e, f e)) ks) = None.
Proof.
  induction ks as [|k' ks IH]; cbn [map dict_get In]; [reflexivity|].
  intros Hk. rewrite pystr_eqb_neq by intuition congruence.
  apply IH. tauto.
Qed.

(** [validate_recipients] gives each address of the list one entry, in
    order of first appearance, holding what [validate_email] says of it, and
    no entry to any other string.  [get_invalid_emails] keeps the order and
    the repeats of the list; its members are the addresses the map holds
    [False] for, and the invalid keys of the map are its members, each
    once. *)
Theorem invalid_emails_agree_with_validation :
  forall {U : Unicode} (recipients : list pystr),
    let results := validate_recipients recipients in
    let invalid := get_invalid_emails recipients in
    dict_keys results = distinct recipients
    /\ (forall e, In e recipients ->
                  dict_get e results = Some (validate_email e))
    /\ (forall e, ~ In e recipients -> dict_get e results = None)
    /\ (forall e, In e invalid <-> dict_get e results = Some false)
    /\ map fst (filter (fun kv => negb (snd kv)) results)
       = distinct invalid.
Proof.
  intros U rs results invalid. unfold results, invalid, get_invalid_emails.
  rewrite validate_recipients_distinct.
  assert (Hin : forall e, In e rs ->
                  dict_get e (map (fun e => (e, validate_email e))
                                (distinct rs))
                  = Some (validate_email e)).
  { intros e He. apply (dict_get_tabulate validate_email).
    now apply distinct_in. }
  assert (Hout : forall e, ~ In e rs ->
                   dict_get e (map (fun e => (e, validate_email e))
                                 (distinct rs)) = None).
  { intros e He. apply (dict_get_absent validate_email).
    now rewrite distinct_in. }
  split.
  { unfold dict_keys. rewrite map_map. apply map_id. }
  split; [exact Hin|]. split; [exact Hout|]. split.
  - intros e. rewrite filter_In, negb_true_iff. split.
    + intros [He Hv]. now rewrite (Hin e He), Hv.
    + intros Hg. destruct (in_dec (list_eq_dec N.eq_dec) e rs) as [He|He].
      * rewrite (Hin e He) in Hg. injection Hg as Hv. now split.
      * rewrite (Hout e He) in Hg. discriminate.
  - rewrite invalid_of_tabulated. apply distinct_filter.
Qed.

(** Two bad addresses, one of them twice. *)
Lemma invalid_emails_witness :
  dict_get (py "b@") (validate_recipients (U := ascii_tables)
                         [py "b@"; py "a@x.com"; py "c"; py "b@"])
  = Some (validate_email (U := ascii_tables) (py "b@"))
  /\ dict_get (py "d@x.com")
       (validate_recipients (U := ascii_tables)
          [py "b@"; py "a@x.com"; py "c"; py "b@"])
     = None.
Proof.
  split.
  - apply (invalid_emails_agree_with_validation (U := ascii_tables)
             [py "b@"; py "a@x.com"; py "c"; py "b@"]).
    cbn [In]. now left.
  - apply (invalid_emails_agree_with_validation (U := ascii_tables)
             [py "b@"; py "a@x.com"; py "c"; py "b@"]).
    cbn [In]. intros [H|[H|[H|[H|[]]]]]; discriminate.
Defined.

(** ** Every way a pattern matches *)

Section Reaches.

Context {U : Unicode}.

Lemma reaches_seq (r1 r2 : regex) (p q : pos) :
  reaches (Seq r1 r2) p q <-> exists m, reaches r1 p m /\ reaches r2 m q.
Proof.
  unfold reaches. cbn [matches]. split.
  - intros (g & H). apply in_flat_map in H.
    destruct H as ([m g1] & H1 & H2). apply in_map_iff in H2.
    destruct H2 as ([q' g2] & E & H2). injection E as -> _.
    exists m. split; eexists; eassumption.
  - intros (m & (g1 & H1) & (g2 & H2)). exists (g1 ++ g2).
    apply in_flat_map. exists (m, g1). split; [exact H1|].
    apply in_map_iff. exists (q, g2). split; [reflexivity|exact H2].
Qed.

Lemma reaches_cls (f : N -> bool) (b a : pystr) (q : pos) :
  reaches (Cls f) (b, a) q
  <-> exists c a', a = c :: a' /\ f c = true /\ q = (c :: b, a').
Proof.
  unfold reaches. cbn [matches snd fst]. destruct a as [|c a].
  - split; [intros (g & [])|intros (c & a' & E & _); discriminate].
  - destruct (f c) eqn:E; split.
    + intros (g & [H|[]]). injection H as <- _. now exists c, a.
    + intros (c' & a' & Ea & _ & ->). injection Ea as <- <-.
      exists []. now left.
    + intros (g & []).
    + intros (c' & a' & Ea & Hf & _). injection Ea as <- <-. congruence.
Qed.

Lemma reaches_bol (p q : pos) :
  reaches (Bol false) p q <-> fst p = [] /\ q = p.
Proof.
  unfold reaches. cbn [matches]. destruct (fst p) as [|c b]; split.
  - intros (g & [H|[]]). injection H as <- _. now split.
  - intros [_ ->]. exists []. now left.
  - intros (g & []).
  - intros [E _]. discriminate.
Qed.

Lemma reaches_eol (p q : pos) :
  reaches Eol p q <-> (snd p = [] \/ snd p = [NL]) /\ q = p.
Proof.
  unfold reaches. cbn [matches]. destruct (snd p) as [|c [|c' a]].
  - split.
    + intros (g & [H|[]]). injection H as <- _. split; [now left|easy].
    + intros [_ ->]. exists []. now left.
  - destruct (N.eqb_spec c NL) as [->|Hc].
    + split.
      * intros (g & [H|[]]). injection H as <- _. split; [now right|easy].
      * intros [_ ->]. exists []. now left.
    + split; [intros (g & [])|].
      intros [[E|E] _]; [discriminate|]. injection E as ->. easy.
  - split; [intros (g & [])|]. intros [[E|E] _]; discriminate.
Qed.

(** A repeated class may stop after any number of its characters. *)
Lemma reaches_star_loop (m : pos -> list result) (f : N -> bool) :
  (forall p, m p = matches (Cls f) p) ->
  forall (a : pystr) (fuel : nat) (b : pystr) (q : pos),
    length a < fuel ->
    (exists g, In (q, g) (star_loop m fuel (b, a)))
    <-> exists x y,
          a = x ++ y /\ forallb f x = true /\ q = (rev x ++ b, y).
Proof.
  intros Hm. induction a as [|c a IH]; intros [|fuel] b q Hf; simpl in Hf;
    try lia; cbn [star_loop]; rewrite Hm; cbn [matches snd fst].
  - cbn [flat_map app]. split.
    + intros (g & [H|[]]). injection H as <- _. now exists [], [].
    + intros (x & y & E & _ & ->). symmetry in E.
      apply app_eq_nil in E. destruct E as [-> ->]. exists []. now left.
  - destruct (f c) eqn:E.
    + cbn [flat_map snd]. rewrite (ltb_tail c a a) by lia.
      rewrite app_nil_r. split.
      * intros (g & H). apply in_app_iff in H. destruct H as [H|[H|[]]].
        -- apply in_map_iff in H. destruct H as ([q' g'] & E' & H).
           injection E' as -> _.
           assert (Hlt : length a < fuel) by lia.
           destruct (proj1 (IH fuel (c :: b) q Hlt) (ex_intro _ g' H))
             as (x & y & -> & Hx & ->).
           exists (c :: x), y. cbn [app forallb rev]. rewrite E, Hx.
           split; [reflexivity|]. split; [reflexivity|].
           now rewrite <- app_assoc.
        -- injection H as <- _. now exists [], (c :: a).
      * intros (x & y & Ea & Hx & ->). destruct x as [|c' x].
        -- cbn [app] in Ea. subst y. exists []. apply in_app_iff.
           right. now left.
        -- cbn [app] in Ea. injection Ea as <- ->. cbn [forallb] in Hx.
           apply andb_true_iff in Hx. destruct Hx as [_ Hx].
           assert (Hlt : length (x ++ y) < fuel) by lia.
           destruct (proj2 (IH fuel (c :: b) (rev x ++ c :: b, y) Hlt))
             as (g & H); [now exists x, y|].
           exists g. apply in_app_iff. left. apply in_map_iff.
           exists ((rev x ++ c :: b, y), g). split; [|exact H].
           cbn [rev app]. now rewrite <- app_assoc.
    + cbn [flat_map app]. split.
      * intros (g & [H|[]]). injection H as <- _. now exists [], (c :: a).
      * intros (x & y & Ea & Hx & ->). destruct x as [|c' x].
        -- cbn [app] in Ea. subst y. exists []. now left.
        -- cbn [app] in Ea. injection Ea as <- ->. cbn [forallb] in Hx.
           rewrite E in Hx. discriminate.
Qed.

Lemma reaches_star_cls (f : N -> bool) (b a : pystr) (q : pos) :
  reaches (Star (Cls f)) (b, a) q
  <-> exists x y, a = x ++ y /\ forallb f x = true /\ q = (rev x ++ b, y).
Proof.
  apply (reaches_star_loop (matches (Cls f)) f); [reflexivity|].
  cbn [snd]. lia.
Qed.

Lemma reaches_at_least (n : nat) (f : N -> bool) :
  forall (b a : pystr) (q : pos),
    reaches (AtLeast n (Cls f)) (b, a) q
    <-> exists x y,
          a = x ++ y /\ forallb f x = true /\ n <= length x
          /\ q = (rev x ++ b, y).
Proof.
  induction n as [|n IH]; intros b a q; cbn [AtLeast].
  - rewrite reaches_star_cls. split.
    + intros (x & y & Ha & Hx & Hq). exists x, y.
      split; [exact Ha|]. split; [exact Hx|]. split; [lia|exact Hq].
    + intros (x & y & Ha & Hx & _ & Hq). now exists x, y.
  - rewrite reaches_seq. split.
    + intros (m & Hc & Hr). apply reaches_cls in Hc.
      destruct Hc as (c & a' & -> & Hf & ->). apply IH in Hr.
      destruct Hr as (x & y & -> & Hx & Hn & ->).
      exists (c :: x), y. cbn [app forallb rev length]. rewrite Hf, Hx.
      split; [reflexivity|]. split; [reflexivity|]. split; [lia|].
      now rewrite <- app_assoc.
    + intros (x & y & -> & Hx & Hn & ->). destruct x as [|c x];
        [cbn [length] in Hn; lia|].
      cbn [forallb] in Hx. apply andb_true_iff in Hx.
      destruct Hx as [Hc Hx]. cbn [length] in Hn.
      exists (c :: b, x ++ y). split.
      * apply reaches_cls. now exists c, (x ++ y).
      * apply IH. exists x, y. split; [reflexivity|]. split; [exact Hx|].
        split; [lia|]. cbn [rev]. now rewrite <- app_assoc.
Qed.

Lemma validate_email_reaches (s : pystr) :
  validate_email s = true <-> exists q, reaches re_email ([], s) q.
Proof.
  unfold validate_email, re_match, reaches.
  destruct (matches re_email ([], s)) as [|[q g] rest]; cbn [hd_error].
  - split; [discriminate|intros (q & g & [])].
  - split; [|reflexivity]. intros _. exists q, g. now left.
Qed.

(** The pattern of [validate_email] on a text of the shape it describes,
    with [e] after it. *)
Lemma email_reaches (local domain tld e : pystr) :
  local <> [] -> forallb is_local_char local = true ->
  domain <> [] -> forallb is_domain_char domain = true ->
  2 <= length tld -> forallb is_alpha tld = true ->
  e = [] \/ e = [NL] ->
  exists q,
    reaches re_email ([], local ++ AT :: domain ++ DOT :: tld ++ e) q.
Proof.
  intros Hl Hlc Hd Hdc Ht Htc He.
  exists (rev tld ++ DOT :: rev domain ++ AT :: rev local ++ [], e).
  unfold re_email. apply reaches_seq. eexists. split.
  { apply reaches_bol. split; reflexivity. }
  apply reaches_seq. eexists. split.
  { change (Plus (Cls is_local_char)) with (AtLeast 1 (Cls is_local_char)).
    apply reaches_at_least. exists local, (AT :: domain ++ DOT :: tld ++ e).
    split; [reflexivity|]. split; [exact Hlc|]. split; [|reflexivity].
    destruct local; [congruence|cbn [length]; lia]. }
  apply reaches_seq. eexists. split.
  { apply reaches_cls. exists AT, (domain ++ DOT :: tld ++ e).
    split; [reflexivity|]. split; [apply N.eqb_refl|reflexivity]. }
  apply reaches_seq. eexists. split.
  { change (Plus (Cls is_domain_char))
      with (AtLeast 1 (Cls is_domain_char)).
    apply reaches_at_least. exists domain, (DOT :: tld ++ e).
    split; [reflexivity|]. split; [exact Hdc|]. split; [|reflexivity].
    destruct domain; [congruence|cbn [length]; lia]. }
  apply reaches_seq. eexists. split.
  { apply reaches_cls. exists DOT, (tld ++ e).
    split; [reflexivity|]. split; [apply N.eqb_refl|reflexivity]. }
  apply reaches_seq. eexists. split.
  { apply reaches_at_least. exists tld, e.
    split; [reflexivity|]. split; [exact Htc|]. split; [exact Ht|].
    reflexivity. }
  apply reaches_eol. split; [exact He|reflexivity].
Qed.

End Reaches.

(** [validate_email] accepts exactly the strings made of a local part of
    one or more ASCII letters, digits and [._%+-], then [@], a domain of one
    or more ASCII letters, digits, full stops and hyphens, a full stop and
    two or more ASCII letters; and each such string with one line feed after
    it. *)
Theorem validate_email_accepts_exactly :
  forall {U : Unicode} (email : pystr),
    validate_email email = true
    <-> email_shape email
        \/ exists address, email = address ++ [NL] /\ email_shape address.
Proof.
  intros U s. rewrite validate_email_reaches. split.
  - intros (q & H). unfold re_email in H.
    apply reaches_seq in H. destruct H as (p0 & Hb & H).
    apply reaches_bol in Hb. destruct Hb as [_ ->].
    apply reaches_seq in H. destruct H as (p1 & Hl & H).
    change (Plus (Cls is_local_char))
      with (AtLeast 1 (Cls is_local_char)) in Hl.
    apply reaches_at_least in Hl.
    destruct Hl as (local & y1 & -> & Hlc & Hl & ->).
    apply reaches_seq in H. destruct H as (p2 & Ha & H).
    apply reaches_cls in Ha. destruct Ha as (c & y2 & -> & Hc & ->).
    apply N.eqb_eq in Hc. subst c.
    apply reaches_seq in H. destruct H as (p3 & Hd & H).
    change (Plus (Cls is_domain_char))
      with (AtLeast 1 (Cls is_domain_char)) in Hd.
    apply reaches_at_least in Hd.
    destruct Hd as (domain & y3 & -> & Hdc & Hd & ->).
    apply reaches_seq in H. destruct H as (p4 & Ho & H).
    apply reaches_cls in Ho. destruct Ho as (c & y4 & -> & Hc & ->).
    apply N.eqb_eq in Hc. subst c.
    apply reaches_seq in H. destruct H as (p5 & Ht & H).
    apply reaches_at_least in Ht.
    destruct Ht as (tld & e & -> & Htc & Ht & ->).
    apply reaches_eol in H. destruct H as [He _]. cbn [snd] in He.
    assert (Hshape : email_shape (local ++ AT :: domain ++ DOT :: tld)).
    { exists local, domain, tld. split; [reflexivity|].
      split; [now destruct local|]. split; [exact Hlc|].
      split; [now destruct domain|]. split; [exact Hdc|].
      split; [exact Ht|exact Htc]. }
    destruct He as [->| ->].
    + left. now rewrite app_nil_r.
    + right. exists (local ++ AT :: domain ++ DOT :: tld).
      split; [|exact Hshape].
      rewrite <- app_assoc. cbn [app]. rewrite <- app_assoc. reflexivity.
  - intros [H|(address & -> & H)];
      destruct H as (local & domain & tld & -> & Hl & Hlc & Hd & Hdc
                     & Ht & Htc).
    + rewrite <- (app_nil_r tld).
      apply email_reaches; try assumption. now left.
    + rewrite <- app_assoc. cbn [app]. rewrite <- app_assoc. cbn [app].
      apply email_reaches; try assumption. now right.
Qed.


(** ** Sanitizing twice *)

(** C3.  The sanitizer is not idempotent on the content: of two list
    markers at the start of a line the first pass removes one, and a second
    pass removes the other. *)
Theorem sanitizer_twice_differs_on_nested_markers :
  forall {U : Unicode},
    content (_clean_content (content_only (py "- - x"))) = py "- x"
    /\ content (_clean_content (_clean_content (content_only (py "- - x"))))
       = py "x".
Proof. intros U. split; vm_compute; reflexivity. Qed.
